(** * Statistical comparison engine of [scripts/analyze_results.py]

    A shallow embedding of the numeric core of the script
    ([calculate_stats], [welch_t_test], [normal_cdf], [cohens_d],
    [effect_size_interpretation], [analyze_metric] and the Conclusions loop
    of [generate_report]), of the way [main] turns the loaded tables into
    the list of results, and the properties its specification states.

    Python's [float] is IEEE 754 binary64; it is modelled by Rocq's primitive
    binary64 floats, so every arithmetic step rounds the way CPython's does.
    Python's arithmetic exceptions are modelled by an error monad:
    - [x / y] raises [ZeroDivisionError] when the divisor equals zero;
    - [x ** 2] raises [OverflowError] when a finite [x] has an infinite square;
    - [math.sqrt x] raises [ValueError] when [x < 0].
    [math.erf] is not a primitive operation and is taken as a parameter. *)

From Stdlib Require Import Floats ZArith List String Ascii Bool Arith Lia.
From Stdlib Require Import Reals Lra.
Import ListNotations.

Set Warnings "-inexact-float".

(** ** Python exceptions as an error monad *)

Inductive PyError : Set :=
| ZeroDivisionError
| OverflowError
| ValueError.

Inductive Py (A : Type) : Type :=
| Ok (a : A)
| Raise (e : PyError).
Arguments Ok {A} a.
Arguments Raise {A} e.

Definition bind {A B : Type} (c : Py A) (k : A -> Py B) : Py B :=
  match c with
  | Ok a => k a
  | Raise e => Raise e
  end.

Notation "x <- c ;; k" := (bind c (fun x => k))
  (at level 61, c at next level, right associativity).
Notation "' p <- c ;; k" := (bind c (fun p => k))
  (at level 61, p pattern, c at next level, right associativity).

(** ** Python float operations *)

(** [float(n)] for a length [n]: the correctly rounded binary64 value. *)
Definition float_of_nat (n : nat) : float :=
  SF2Prim (binary_normalize prec emax (Z.of_nat n) 0 false).

(** [x / y] on two floats. *)
Definition py_div (x y : float) : Py float :=
  if (y =? 0)%float then Raise ZeroDivisionError else Ok (x / y)%float.

(** [x / n] for a float [x] and an int [n]: the int is converted to a float
    first; the conversion of a non-zero int is never zero, so the division
    raises exactly when [n] is [0]. *)
Definition py_div_int (x : float) (n : nat) : Py float :=
  if (n =? 0)%nat then Raise ZeroDivisionError
  else Ok (x / float_of_nat n)%float.

(** [x ** 2]: CPython's [float_pow] answers NaN, infinite and zero operands
    itself, calls the C library's [pow] on the others and raises
    [OverflowError] when the result of a finite operand is infinite.  The
    square returned by [pow] is modelled by the correctly rounded product;
    the C library's [pow] may differ from it in the last digit, so a
    standard deviation, a confidence bound or an effect size computed here
    can differ from CPython's in its last digits.  The properties below
    use of a square only that it is not negative, and when it raises. *)
Definition py_pow2 (x : float) : Py float :=
  let r := (x * x)%float in
  if is_finite x && is_infinity r then Raise OverflowError else Ok r.

(** [math.sqrt x]. *)
Definition py_sqrt (x : float) : Py float :=
  if (x <? 0)%float then Raise ValueError else Ok (PrimFloat.sqrt x).

(** [sum(values)]: left-to-right accumulation from [0], as CPython does up
    to 3.11.  (CPython 3.12 and later add a compensation term to the
    accumulated sum, also in the sum of the squared deviations, so on some
    samples their sum differs from this one.  The theorems below use the
    sum of a list only as a function of the list, or on a one-element
    list, and the concrete samples evaluated below have the same sum with
    the compensation.) *)
Definition py_sum (values : list float) : float :=
  fold_left PrimFloat.add values 0%float.

(** [sum((x - mean) ** 2 for x in values)]: the generator's terms are
    computed and added one at a time; a raising term aborts the sum. *)
Fixpoint sum_sq_from (acc : float) (values : list float) (mean : float)
  : Py float :=
  match values with
  | [] => Ok acc
  | x :: rest =>
      t <- py_pow2 (x - mean)%float ;;
      sum_sq_from (acc + t)%float rest mean
  end.

Definition sum_sq (values : list float) (mean : float) : Py float :=
  sum_sq_from 0%float values mean.

(** [min(values)] and [max(values)] on a non-empty list: the first element
    is kept until a later one compares strictly below (above) it. *)
Definition py_min (x : float) (rest : list float) : float :=
  fold_left (fun m item => if (item <? m)%float then item else m) rest x.

Definition py_max (x : float) (rest : list float) : float :=
  fold_left (fun m item => if (m <? item)%float then item else m) rest x.

(** ** [Statistics] and [calculate_stats] *)

Record Statistics : Set := mkStatistics {
  n : nat;
  mean : float;
  std : float;
  min_val : float;
  max_val : float;
  ci_lower : float;
  ci_upper : float
}.

Definition calculate_stats (values : list float) : Py (option Statistics) :=
  match values with
  | [] => Ok None
  | v :: vs =>
      let n := List.length values in
      mean <- py_div_int (py_sum values) n ;;
      if (n <? 2)%nat then
        Ok (Some (mkStatistics n mean 0%float
                    (py_min v vs) (py_max v vs) mean mean))
      else
        sq <- sum_sq values mean ;;
        variance <- py_div_int sq (n - 1) ;;
        std <- py_sqrt variance ;;
        let t_value := if (30 <? n)%nat then 1.96%float else 2.0%float in
        root_n <- py_sqrt (float_of_nat n) ;;
        q <- py_div std root_n ;;
        let margin := (t_value * q)%float in
        Ok (Some (mkStatistics n mean std
                    (py_min v vs) (py_max v vs)
                    (mean - margin)%float (mean + margin)%float))
  end.

(** ** [welch_t_test], [normal_cdf], [cohens_d] *)

Section Erf.

Variable erf : float -> float.

Definition normal_cdf (x : float) : Py float :=
  root2 <- py_sqrt 2%float ;;
  q <- py_div x root2 ;;
  Ok (0.5 * (1 + erf q))%float.

Definition welch_t_test (sample1 sample2 : list float) : Py (float * float) :=
  let n1 := List.length sample1 in
  let n2 := List.length sample2 in
  if (n1 <? 2)%nat || (n2 <? 2)%nat then Ok (0.0%float, 1.0%float)
  else
    mean1 <- py_div_int (py_sum sample1) n1 ;;
    mean2 <- py_div_int (py_sum sample2) n2 ;;
    sq1 <- sum_sq sample1 mean1 ;;
    var1 <- py_div_int sq1 (n1 - 1) ;;
    sq2 <- sum_sq sample2 mean2 ;;
    var2 <- py_div_int sq2 (n2 - 1) ;;
    a <- py_div_int var1 n1 ;;
    b <- py_div_int var2 n2 ;;
    se <- py_sqrt (a + b)%float ;;
    if (se =? 0)%float then Ok (0.0%float, 1.0%float)
    else
      t_stat <- py_div (mean1 - mean2)%float se ;;
      a' <- py_div_int var1 n1 ;;
      b' <- py_div_int var2 n2 ;;
      num <- py_pow2 (a' + b')%float ;;
      a2 <- py_div_int var1 n1 ;;
      a2sq <- py_pow2 a2 ;;
      d1 <- py_div_int a2sq (n1 - 1) ;;
      b2 <- py_div_int var2 n2 ;;
      b2sq <- py_pow2 b2 ;;
      d2 <- py_div_int b2sq (n2 - 1) ;;
      let denom := (d1 + d2)%float in
      df <- (if (0 <? denom)%float then py_div num denom else Ok 1%float) ;;
      let z := abs t_stat in
      c <- normal_cdf z ;;
      let p_value := (2 * (1 - c))%float in
      Ok (t_stat, p_value).

End Erf.

(** Lines 93-100 of [welch_t_test] on their own: the standard error
    [sqrt(var1/n1 + var2/n2)] the test branches on. *)
Definition standard_error (sample1 sample2 : list float) : Py float :=
  let n1 := List.length sample1 in
  let n2 := List.length sample2 in
  mean1 <- py_div_int (py_sum sample1) n1 ;;
  mean2 <- py_div_int (py_sum sample2) n2 ;;
  sq1 <- sum_sq sample1 mean1 ;;
  var1 <- py_div_int sq1 (n1 - 1) ;;
  sq2 <- sum_sq sample2 mean2 ;;
  var2 <- py_div_int sq2 (n2 - 1) ;;
  a <- py_div_int var1 n1 ;;
  b <- py_div_int var2 n2 ;;
  py_sqrt (a + b)%float.

Definition cohens_d (sample1 sample2 : list float) : Py float :=
  let n1 := List.length sample1 in
  let n2 := List.length sample2 in
  if (n1 <? 2)%nat || (n2 <? 2)%nat then Ok 0.0%float
  else
    mean1 <- py_div_int (py_sum sample1) n1 ;;
    mean2 <- py_div_int (py_sum sample2) n2 ;;
    sq1 <- sum_sq sample1 mean1 ;;
    var1 <- py_div_int sq1 (n1 - 1) ;;
    sq2 <- sum_sq sample2 mean2 ;;
    var2 <- py_div_int sq2 (n2 - 1) ;;
    pooled <- py_div_int
                (float_of_nat (n1 - 1) * var1
                 + float_of_nat (n2 - 1) * var2)%float
                (n1 + n2 - 2) ;;
    pooled_std <- py_sqrt pooled ;;
    if (pooled_std =? 0)%float then Ok 0.0%float
    else py_div (mean1 - mean2)%float pooled_std.

Definition effect_size_interpretation (d : float) : string :=
  let d := abs d in
  if (d <? 0.2)%float then "negligible"%string
  else if (d <? 0.5)%float then "small"%string
  else if (d <? 0.8)%float then "medium"%string
  else "large"%string.

(** ** [analyze_metric] *)

(** The dictionary [analyze_metric] returns: either the two-key error record
    or the fully populated comparison. *)
Inductive Result : Type :=
| ErrorRecord (metric : string) (error : string)
| Comparison (metric : string) (baseline esm : Statistics)
    (improvement_pct : float) (improved : bool)
    (t_statistic p_value : float) (cohens_d : float)
    (effect_size : string) (significant : bool).

(** Lines 181-187: the signed improvement percentage and the [improved]
    flag, from the polarity and the two means. *)
Definition improvement (lower_is_better : bool)
    (baseline_mean esm_mean : float) : Py (float * bool) :=
  if lower_is_better then
    q <- py_div (baseline_mean - esm_mean)%float baseline_mean ;;
    Ok ((q * 100)%float, (esm_mean <? baseline_mean)%float)
  else
    q <- py_div (esm_mean - baseline_mean)%float baseline_mean ;;
    Ok ((q * 100)%float, (baseline_mean <? esm_mean)%float).

Section Analyze.

Variable erf : float -> float.

Definition analyze_metric (baseline_values esm_values : list float)
    (metric_name : string) (lower_is_better : bool) : Py Result :=
  baseline_stats <- calculate_stats baseline_values ;;
  esm_stats <- calculate_stats esm_values ;;
  match baseline_stats, esm_stats with
  | Some baseline_stats, Some esm_stats =>
      '(improvement, improved) <-
        improvement lower_is_better (mean baseline_stats) (mean esm_stats) ;;
      '(t_stat, p_value) <- welch_t_test erf baseline_values esm_values ;;
      d <- cohens_d baseline_values esm_values ;;
      Ok (Comparison metric_name baseline_stats esm_stats
            improvement improved t_stat p_value d
            (effect_size_interpretation d)
            (p_value <? 0.05)%float)
  | _, _ => Ok (ErrorRecord metric_name "Insufficient data")
  end.

End Analyze.

(** ** The Conclusions loop of [generate_report] *)

(** One iteration of the loop over [results]: error records are skipped, a
    significant and improved metric is appended to [validated], any other
    metric that is not improved is appended to [refuted]. *)
Definition conclusions_step (acc : list string * list string) (r : Result)
  : list string * list string :=
  let '(validated, refuted) := acc in
  match r with
  | ErrorRecord _ _ => (validated, refuted)
  | Comparison metric _ _ _ improved _ _ _ _ significant =>
      if significant && improved then (validated ++ [metric], refuted)
      else if negb improved then (validated, refuted ++ [metric])
      else (validated, refuted)
  end.

Definition conclusions (results : list Result) : list string * list string :=
  fold_left conclusions_step results ([], []).

(** ** [main]: from the loaded tables to the list of results

    The model of [main] starts from the tables [load_csv] returned and
    ends with the decision to generate the report: the parsing of the
    arguments, the reading of the files and the writing of the report,
    and whatever they raise, are outside it. *)

(** A row of [csv.DictReader]: the dictionary from column names to cell
    texts, read by [get] at its first binding of a name.  A cell the reader
    left as [None] (a short line) reads like a missing column. *)
Definition Row : Type := list (string * string).

Fixpoint get (r : Row) (key : string) : option string :=
  match r with
  | [] => None
  | (k, v) :: rest => if String.eqb k key then Some v else get rest key
  end.

(** [r.get(key) == value]. *)
Definition get_eqb (r : Row) (key value : string) : bool :=
  match get r key with
  | Some v => String.eqb v value
  | None => false
  end.

(** [str.replace(old, new)] for one-character [old] and [new]. *)
Fixpoint replace_char (old new : ascii) (s : string) : string :=
  match s with
  | EmptyString => EmptyString
  | String c rest =>
      String (if Ascii.eqb c old then new else c) (replace_char old new rest)
  end.

Definition is_lower (c : ascii) : bool :=
  (97 <=? nat_of_ascii c)%nat && (nat_of_ascii c <=? 122)%nat.

Definition is_upper (c : ascii) : bool :=
  (65 <=? nat_of_ascii c)%nat && (nat_of_ascii c <=? 90)%nat.

Definition to_upper (c : ascii) : ascii :=
  if is_lower c then ascii_of_nat (nat_of_ascii c - 32) else c.

Definition to_lower (c : ascii) : ascii :=
  if is_upper c then ascii_of_nat (nat_of_ascii c + 32) else c.

(** [str.title()] on ASCII text: a letter is upper-cased when the previous
    character is not a letter and lower-cased when it is. *)
Fixpoint title_from (previous_is_cased : bool) (s : string) : string :=
  match s with
  | EmptyString => EmptyString
  | String c rest =>
      if is_lower c then
        String (if previous_is_cased then c else to_upper c)
               (title_from true rest)
      else if is_upper c then
        String (if previous_is_cased then to_lower c else c)
               (title_from true rest)
      else String c (title_from false rest)
  end.

Definition title (s : string) : string := title_from false s.

(** The tables [main] loads with [load_csv]. *)
Record Tables : Type := mkTables {
  baseline_latency : list Row;
  esm_latency : list Row;
  baseline_cpu : list Row;
  esm_cpu : list Row;
  baseline_syscalls : list Row;
  esm_syscalls : list Row;
  baseline_wakeups : list Row;
  esm_wakeups : list Row
}.

Definition scenarios : list string :=
  ["single_tap"; "scroll"; "fast_swipe"]%string.

(** [f"Latency - {scenario.replace('_', ' ').title()} (ms)"]. *)
Definition latency_name (scenario : string) : string :=
  ("Latency - " ++ title (replace_char "_" " " scenario) ++ " (ms)")%string.

(** The names [main] gives its seven metrics, in the order of its calls. *)
Definition metric_names : list string :=
  ["Latency - Single Tap (ms)"; "Latency - Scroll (ms)";
   "Latency - Fast Swipe (ms)"; "CPU - system_server (%)";
   "CPU - Total (%)"; "Syscalls (per 100 events)";
   "Wakeups per second"]%string.

(** What [main] leaves behind. *)
Inductive Outcome : Type :=
| Report (results : list Result)
| NoResults.

Section Main.

Variable erf : float -> float.

(** [float(text)]: the parsed number, or [ValueError]. *)
Variable py_float : string -> Py float.

(** [[float(r[key]) for r in rows if keep r and r.get(key)]]: rows whose
    cell is missing or empty are skipped, the others are parsed in order,
    and a cell that does not parse aborts the comprehension. *)
Fixpoint column (rows : list Row) (keep : Row -> bool) (key : string)
  : Py (list float) :=
  match rows with
  | [] => Ok []
  | r :: rest =>
      match get r key with
      | Some (String c s) =>
          if keep r then
            x <- py_float (String c s) ;;
            xs <- column rest keep key ;;
            Ok (x :: xs)
          else column rest keep key
      | _ => column rest keep key
      end
  end.

(** [if baseline_vals and esm_vals: results.append(analyze_metric(...))],
    always with [lower_is_better=True]. *)
Definition append_metric (results : list Result)
    (baseline_vals esm_vals : list float) (name : string)
  : Py (list Result) :=
  match baseline_vals, esm_vals with
  | _ :: _, _ :: _ =>
      r <- analyze_metric erf baseline_vals esm_vals name true ;;
      Ok (results ++ [r])
  | _, _ => Ok results
  end.

(** One metric: the two comprehensions, then the guarded call. *)
Definition metric_step (baseline esm : list Row) (keep : Row -> bool)
    (key name : string) (results : list Result) : Py (list Result) :=
  baseline_vals <- column baseline keep key ;;
  esm_vals <- column esm keep key ;;
  append_metric results baseline_vals esm_vals name.

(** The loop over the latency scenarios. *)
Fixpoint latency_loop (baseline esm : list Row) (todo : list string)
    (results : list Result) : Py (list Result) :=
  match todo with
  | [] => Ok results
  | scenario :: rest =>
      results <- metric_step baseline esm
                   (fun r => get_eqb r "scenario" scenario)
                   "latency_ms" (latency_name scenario) results ;;
      latency_loop baseline esm rest results
  end.

Definition main_results (t : Tables) : Py (list Result) :=
  results <- latency_loop (baseline_latency t) (esm_latency t)
               scenarios [] ;;
  results <- metric_step (baseline_cpu t) (esm_cpu t) (fun _ => true)
               "system_server_cpu" "CPU - system_server (%)" results ;;
  results <- metric_step (baseline_cpu t) (esm_cpu t) (fun _ => true)
               "total_cpu" "CPU - Total (%)" results ;;
  results <- metric_step (baseline_syscalls t) (esm_syscalls t)
               (fun _ => true)
               "total" "Syscalls (per 100 events)" results ;;
  metric_step (baseline_wakeups t) (esm_wakeups t) (fun _ => true)
    "wakeups_per_sec" "Wakeups per second" results.

(** [if results: generate_report(results, output_path)], else the notice
    that there is nothing to analyze. *)
Definition main (t : Tables) : Py Outcome :=
  results <- main_results t ;;
  match results with
  | [] => Ok NoResults
  | _ :: _ => Ok (Report results)
  end.

End Main.

(** A small run: one latency scenario measured on both sides, one blank
    cell, every other table empty. *)
Definition sample_float (text : string) : Py float :=
  if String.eqb text "100" then Ok 100%float
  else if String.eqb text "80" then Ok 80%float
  else Raise ValueError.

Definition sample_tables : Tables :=
  mkTables
    [[("scenario", "scroll"); ("latency_ms", "100")];
     [("scenario", "scroll"); ("latency_ms", EmptyString)]]%string
    [[("scenario", "scroll"); ("latency_ms", "80")]]%string
    [] [] [] [] [] [].

(** A run whose only cell does not parse. *)
Definition unparsable_tables : Tables :=
  mkTables [[("scenario", "scroll"); ("latency_ms", "fast")]]%string
    [] [] [] [] [] [] [].

(** ** The same code over exact real arithmetic

    The specification's data model speaks of real-valued observations.
    [Exact] reads [calculate_stats] and the improvement computation with
    every float operation replaced by the exact operation on [R]: nothing
    rounds, nothing overflows, and the only exceptions left are division by
    zero and the square root of a negative number. *)
Module Exact.

Definition py_div (x y : R) : Py R :=
  if Req_dec_T y 0 then Raise ZeroDivisionError else Ok (x / y)%R.

Definition py_div_int (x : R) (n : nat) : Py R :=
  if (n =? 0)%nat then Raise ZeroDivisionError else Ok (x / INR n)%R.

Definition py_pow2 (x : R) : Py R := Ok (x * x)%R.

Definition py_sqrt (x : R) : Py R :=
  if Rlt_dec x 0 then Raise ValueError else Ok (sqrt x).

Definition py_sum (values : list R) : R := fold_left Rplus values 0%R.

Fixpoint sum_sq_from (acc : R) (values : list R) (mean : R) : Py R :=
  match values with
  | [] => Ok acc
  | x :: rest =>
      t <- py_pow2 (x - mean)%R ;;
      sum_sq_from (acc + t)%R rest mean
  end.

Definition sum_sq (values : list R) (mean : R) : Py R :=
  sum_sq_from 0%R values mean.

Definition py_min (x : R) (rest : list R) : R :=
  fold_left (fun m item => if Rlt_dec item m then item else m) rest x.

Definition py_max (x : R) (rest : list R) : R :=
  fold_left (fun m item => if Rlt_dec m item then item else m) rest x.

Record Statistics : Type := mkStatistics {
  n : nat;
  mean : R;
  std : R;
  min_val : R;
  max_val : R;
  ci_lower : R;
  ci_upper : R
}.

Definition calculate_stats (values : list R) : Py (option Statistics) :=
  match values with
  | [] => Ok None
  | v :: vs =>
      let n := List.length values in
      mean <- py_div_int (py_sum values) n ;;
      if (n <? 2)%nat then
        Ok (Some (mkStatistics n mean 0%R
                    (py_min v vs) (py_max v vs) mean mean))
      else
        sq <- sum_sq values mean ;;
        variance <- py_div_int sq (n - 1) ;;
        std <- py_sqrt variance ;;
        let t_value := if (30 <? n)%nat then (196 / 100)%R else 2%R in
        root_n <- py_sqrt (INR n) ;;
        q <- py_div std root_n ;;
        let margin := (t_value * q)%R in
        Ok (Some (mkStatistics n mean std
                    (py_min v vs) (py_max v vs)
                    (mean - margin)%R (mean + margin)%R))
  end.

Definition improvement (lower_is_better : bool)
    (baseline_mean esm_mean : R) : Py (R * bool) :=
  if lower_is_better then
    q <- py_div (baseline_mean - esm_mean)%R baseline_mean ;;
    Ok ((q * 100)%R, if Rlt_dec esm_mean baseline_mean then true else false)
  else
    q <- py_div (esm_mean - baseline_mean)%R baseline_mean ;;
    Ok ((q * 100)%R, if Rlt_dec baseline_mean esm_mean then true else false).

End Exact.

(** ** Accessors of a [Result] *)

Definition is_error (r : Result) : bool :=
  match r with
  | ErrorRecord _ _ => true
  | Comparison _ _ _ _ _ _ _ _ _ _ => false
  end.

Definition metric_of (r : Result) : string :=
  match r with
  | ErrorRecord m _ => m
  | Comparison m _ _ _ _ _ _ _ _ _ => m
  end.

Definition improved_of (r : Result) : bool :=
  match r with
  | ErrorRecord _ _ => false
  | Comparison _ _ _ _ i _ _ _ _ _ => i
  end.

Definition improvement_pct_of (r : Result) : float :=
  match r with
  | ErrorRecord _ _ => 0%float
  | Comparison _ _ _ p _ _ _ _ _ _ => p
  end.

Definition significant_of (r : Result) : bool :=
  match r with
  | ErrorRecord _ _ => false
  | Comparison _ _ _ _ _ _ _ _ _ s => s
  end.

Definition t_statistic_of (r : Result) : float :=
  match r with
  | ErrorRecord _ _ => 0%float
  | Comparison _ _ _ _ _ t _ _ _ _ => t
  end.

Definition p_value_of (r : Result) : float :=
  match r with
  | ErrorRecord _ _ => 1%float
  | Comparison _ _ _ _ _ _ p _ _ _ => p
  end.

Definition cohens_d_of (r : Result) : float :=
  match r with
  | ErrorRecord _ _ => 0%float
  | Comparison _ _ _ _ _ _ _ d _ _ => d
  end.

Definition effect_size_of (r : Result) : string :=
  match r with
  | ErrorRecord _ _ => EmptyString
  | Comparison _ _ _ _ _ _ _ _ ef _ => ef
  end.

Definition baseline_of (r : Result) : option Statistics :=
  match r with
  | ErrorRecord _ _ => None
  | Comparison _ b _ _ _ _ _ _ _ _ => Some b
  end.

Definition esm_of (r : Result) : option Statistics :=
  match r with
  | ErrorRecord _ _ => None
  | Comparison _ _ e _ _ _ _ _ _ _ => Some e
  end.

(** ** Vocabulary of the properties *)

(** [c] raises only exceptions satisfying [P]. *)
Definition raises_only {A} (P : PyError -> Prop) (c : Py A) : Prop :=
  forall e, c = Raise e -> P e.


(** The improvement percentage and the flag the polarity rule prescribes. *)
Definition polarity_pct (lower_is_better : bool) (bm em : float) : float :=
  if lower_is_better then ((bm - em) / bm * 100)%float
  else ((em - bm) / bm * 100)%float.

Definition polarity_flag (lower_is_better : bool) (bm em : float) : bool :=
  if lower_is_better then (em <? bm)%float else (bm <? em)%float.

(** Equal as numbers: the same value, or two zeros of either sign. *)
Definition sf_sim (a b : spec_float) : Prop :=
  a = b \/ exists s s', a = S754_zero s /\ b = S754_zero s'.

Definition f_sim (x y : float) : Prop := sf_sim (Prim2SF x) (Prim2SF y).

(** Python's [x == y], extended so that a NaN matches a NaN. *)
Definition feq (x y : float) : bool :=
  (x =? y)%float || (is_nan x && is_nan y).

(** A list obtained from another by dropping elements. *)
Inductive subseq {A : Type} : list A -> list A -> Prop :=
| subseq_nil : subseq [] []
| subseq_skip (x : A) (l1 l2 : list A) : subseq l1 l2 -> subseq l1 (x :: l2)
| subseq_take (x : A) (l1 l2 : list A) :
    subseq l1 l2 -> subseq (x :: l1) (x :: l2).

(** A metric without a usable cell on one side at least. *)
Definition no_data (py_float : string -> Py float) (baseline esm : list Row)
    (keep : Row -> bool) (key : string) : Prop :=
  column py_float baseline keep key = Ok [] \/
  column py_float esm keep key = Ok [].

(** The shape of every result [main] appends: a comparison whose baseline
    mean is not zero, with the flag and the percentage of a metric for
    which lower is better. *)
Definition appended (r : Result) : Prop :=
  is_error r = false /\
  exists bs es,
    baseline_of r = Some bs /\ esm_of r = Some es /\
    (mean bs =? 0)%float = false /\
    improved_of r = (mean es <? mean bs)%float /\
    improvement_pct_of r = ((mean bs - mean es) / mean bs * 100)%float.

(** No metric of [main] has usable cells on both sides. *)
Definition nothing_to_analyze (py_float : string -> Py float) (t : Tables)
  : Prop :=
  (forall s, In s scenarios ->
     no_data py_float (baseline_latency t) (esm_latency t)
       (fun r => get_eqb r "scenario" s) "latency_ms") /\
  no_data py_float (baseline_cpu t) (esm_cpu t) (fun _ => true)
    "system_server_cpu" /\
  no_data py_float (baseline_cpu t) (esm_cpu t) (fun _ => true)
    "total_cpu" /\
  no_data py_float (baseline_syscalls t) (esm_syscalls t) (fun _ => true)
    "total" /\
  no_data py_float (baseline_wakeups t) (esm_wakeups t) (fun _ => true)
    "wakeups_per_sec".

(** ** Rounded values *)

Section RoundedValues.
Local Open Scope Z_scope.

(** The float a rounded mantissa [m1] at exponent [E] denotes. *)
Definition rounded (s : bool) (m1 E : Z) : spec_float :=
  if m1 =? 0 then S754_zero s
  else if m1 <? 2 ^ 53 then
    if E <=? 971 then S754_finite s (Z.to_pos m1) E else S754_infinity s
  else
    if E + 1 <=? 971 then S754_finite s (Z.to_pos (2 ^ 52)) (E + 1)
    else S754_infinity s.

(** A canonical mantissa-exponent pair. *)
Definition canon (m : positive) (e : Z) : Prop :=
  fexp prec emax (Z.pos (digits2_pos m) + e) = e.

(** A rounded mantissa: at most 53 bits (or [2 ^ 53] after a carry), and
    full above the subnormal exponent. *)
Definition wf_round (m1 E : Z) : Prop :=
  -1074 <= E /\ 0 <= m1 <= 2 ^ 53 /\ (-1074 < E -> 2 ^ 52 <= m1).

(** NaN, or not below zero. *)
Definition sf_nonneg (r : spec_float) : Prop :=
  r = S754_nan \/ SFleb (S754_zero false) r = true.

(** Positive, and at least [2 ^ (k - 1)]: [+infinity], or a canonical
    positive number whose digits reach position [k]. *)
Definition sf_pos_mag (x : spec_float) (k : Z) : Prop :=
  x = S754_infinity false \/
  exists m e, x = S754_finite false m e /\ canon m e /\
              k <= Z.pos (digits2_pos m) + e.

(** NaN, or not above zero. *)
Definition sf_nonpos (r : spec_float) : Prop :=
  r = S754_nan \/ SFleb r (S754_zero false) = true.

End RoundedValues.

(** NaN, or not below zero, for a primitive float. *)
Definition f_nonneg (x : float) : Prop := sf_nonneg (Prim2SF x).

(** NaN, or not above zero, for a primitive float. *)
Definition f_nonpos (x : float) : Prop := sf_nonpos (Prim2SF x).

(** Zero of either sign, or NaN. *)
Definition sf_zero_or_nan (x : spec_float) : Prop :=
  x = S754_nan \/ exists s, x = S754_zero s.

(** Python's [x == 0 or math.isnan(x)]. *)
Definition zero_or_nan (x : float) : bool := (x =? 0)%float || is_nan x.

(** What the collection of the results may raise: the two arithmetic
    exceptions of the comparator, or what [float] raises on a non-empty
    cell. *)
Definition main_error (py_float : string -> Py float) (e : PyError) : Prop :=
  e = OverflowError \/ e = ZeroDivisionError \/
  exists cell, cell <> EmptyString /\ py_float cell = Raise e.

(** * Properties *)

(** ** Order facts on binary64 values, from the specification of the
    primitive comparison *)

Ltac sf_cases :=
  repeat match goal with
  | s : bool |- _ => destruct s
  | |- context [Z.compare ?a ?b] => destruct (Z.compare_spec a b)
  | |- context [Pos.compare ?a ?b] => destruct (Pos.compare_spec a b)
  end; simpl in *; subst; try congruence; try lia.

Lemma SFltb_SFleb_antisym (x y : spec_float) :
  SFleb x y = true -> SFltb y x = false.
Proof.
  unfold SFleb, SFltb, SFcompare.
  destruct x as [sx|sx| |sx mx ex], y as [sy|sy| |sy my ey]; simpl;
    try congruence; try (destruct sx; congruence);
    try (destruct sy; congruence); try (destruct sx, sy; congruence).
  change (Pos.compare_cont Eq mx my) with (Pos.compare mx my).
  change (Pos.compare_cont Eq my mx) with (Pos.compare my mx).
  sf_cases.
Qed.

Lemma SFltb_SFleb_trans (x y z : spec_float) :
  SFltb x y = true -> SFleb y z = true -> SFltb x z = true.
Proof.
  unfold SFleb, SFltb, SFcompare.
  destruct x as [sx|sx| |sx mx ex], y as [sy|sy| |sy my ey],
           z as [sz|sz| |sz mz ez]; simpl;
    repeat match goal with
    | |- context [Pos.compare_cont Eq ?a ?b] =>
        change (Pos.compare_cont Eq a b) with (Pos.compare a b)
    end;
    sf_cases.
Qed.

Lemma ltb_leb_antisym (x y : float) :
  (x <=? y)%float = true -> (y <? x)%float = false.
Proof. rewrite leb_spec, ltb_spec. apply SFltb_SFleb_antisym. Qed.

Lemma ltb_leb_trans (x y z : float) :
  (x <? y)%float = true -> (y <=? z)%float = true -> (x <? z)%float = true.
Proof. rewrite !ltb_spec, leb_spec. apply SFltb_SFleb_trans. Qed.

(** ** Effect-size bands *)

(** C9. The label depends on [abs d] only, with lower edges inclusive:
    [abs d < 0.2] gives "negligible", [0.2 <= abs d < 0.5] gives "small",
    [0.5 <= abs d < 0.8] gives "medium" and [0.8 <= abs d] gives "large";
    at exactly 0.2, 0.5 and 0.8 the labels are "small", "medium" and
    "large".  The comparisons are Python's on binary64 values. *)
Theorem effect_size_bands (d : float) :
  ((abs d <? 0.2)%float = true ->
     effect_size_interpretation d = "negligible"%string) /\
  ((0.2 <=? abs d)%float = true -> (abs d <? 0.5)%float = true ->
     effect_size_interpretation d = "small"%string) /\
  ((0.5 <=? abs d)%float = true -> (abs d <? 0.8)%float = true ->
     effect_size_interpretation d = "medium"%string) /\
  ((0.8 <=? abs d)%float = true ->
     effect_size_interpretation d = "large"%string) /\
  effect_size_interpretation 0.2%float = "small"%string /\
  effect_size_interpretation 0.5%float = "medium"%string /\
  effect_size_interpretation 0.8%float = "large"%string /\
  effect_size_interpretation (-0.2)%float = "small"%string /\
  effect_size_interpretation (-0.5)%float = "medium"%string /\
  effect_size_interpretation (-0.8)%float = "large"%string.
Proof.
  assert (below : forall lo hi : float,
             (lo <=? hi)%float = true -> (hi <=? abs d)%float = true ->
             (abs d <? lo)%float = false).
  { intros lo hi Hlo Hhi.
    destruct (abs d <? lo)%float eqn:E; [|reflexivity].
    pose proof (ltb_leb_trans _ _ _ E Hlo) as F.
    rewrite (ltb_leb_antisym _ _ Hhi) in F. discriminate. }
  unfold effect_size_interpretation.
  repeat split; try reflexivity.
  - intros H. now rewrite H.
  - intros Hlo Hhi.
    now rewrite (ltb_leb_antisym _ _ Hlo), Hhi.
  - intros Hlo Hhi.
    rewrite (below 0.2%float 0.5%float eq_refl Hlo).
    now rewrite (ltb_leb_antisym _ _ Hlo), Hhi.
  - intros Hlo.
    rewrite (below 0.2%float 0.8%float eq_refl Hlo).
    rewrite (below 0.5%float 0.8%float eq_refl Hlo).
    now rewrite (ltb_leb_antisym _ _ Hlo).
Qed.

(** ** The Conclusions partition *)

Lemma conclusions_step_validated acc r m :
  In m (fst (conclusions_step acc r)) <->
  In m (fst acc) \/
  (is_error r = false /\ metric_of r = m /\
   significant_of r = true /\ improved_of r = true).
Proof.
  destruct acc as [v f], r as [mt er|mt b e ip i t p d ef s]; simpl.
  - intuition congruence.
  - destruct s, i; simpl; rewrite ?in_app_iff; simpl; intuition congruence.
Qed.

Lemma conclusions_step_refuted acc r m :
  In m (snd (conclusions_step acc r)) <->
  In m (snd acc) \/
  (is_error r = false /\ metric_of r = m /\ improved_of r = false).
Proof.
  destruct acc as [v f], r as [mt er|mt b e ip i t p d ef s]; simpl.
  - intuition congruence.
  - destruct s, i; simpl; rewrite ?in_app_iff; simpl; intuition congruence.
Qed.

Lemma conclusions_fold results : forall acc m,
  (In m (fst (fold_left conclusions_step results acc)) <->
   In m (fst acc) \/
   exists r, In r results /\ is_error r = false /\ metric_of r = m /\
             significant_of r = true /\ improved_of r = true) /\
  (In m (snd (fold_left conclusions_step results acc)) <->
   In m (snd acc) \/
   exists r, In r results /\ is_error r = false /\ metric_of r = m /\
             improved_of r = false).
Proof.
  induction results as [|r rs IH]; intros acc m; simpl.
  - split; split; intros H; auto; destruct H as [H|[r [[] _]]]; exact H.
  - destruct (IH (conclusions_step acc r) m) as [IHv IHr].
    rewrite IHv, IHr, conclusions_step_validated, conclusions_step_refuted.
    split; split.
    + intros [[H|H]|[r' [Hin H]]]; eauto 8.
    + intros [H|[r' [[->|Hin] H]]]; eauto 8.
    + intros [[H|H]|[r' [Hin H]]]; eauto 8.
    + intros [H|[r' [[->|Hin] H]]]; eauto 8.
Qed.

(** C2. A metric name is listed under "validated" exactly when some
    non-error result carrying it is both significant and improved, and
    under "unvalidated" exactly when some non-error result carrying it is
    not improved, significant or not.  A result that is improved but not
    significant, and an error record, put their metric in neither list: a
    name all of whose results are of these two kinds is in neither. *)
Theorem conclusions_partition (results : list Result) (m : string) :
  (In m (fst (conclusions results)) <->
   exists r, In r results /\ is_error r = false /\ metric_of r = m /\
             significant_of r = true /\ improved_of r = true) /\
  (In m (snd (conclusions results)) <->
   exists r, In r results /\ is_error r = false /\ metric_of r = m /\
             improved_of r = false) /\
  ((forall r, In r results -> metric_of r = m ->
              is_error r = true \/
              (improved_of r = true /\ significant_of r = false)) ->
   ~ In m (fst (conclusions results)) /\
   ~ In m (snd (conclusions results))).
Proof.
  unfold conclusions.
  destruct (conclusions_fold results ([], []) m) as [Hv Hr].
  simpl in Hv, Hr.
  assert (V : In m (fst (fold_left conclusions_step results ([], []))) <->
              exists r, In r results /\ is_error r = false /\
                        metric_of r = m /\
                        significant_of r = true /\ improved_of r = true)
    by (rewrite Hv; intuition).
  assert (R : In m (snd (fold_left conclusions_step results ([], []))) <->
              exists r, In r results /\ is_error r = false /\
                        metric_of r = m /\ improved_of r = false)
    by (rewrite Hr; intuition).
  split; [exact V|]. split; [exact R|].
  intros Hall. rewrite V, R. split.
  - intros [r [Hin [He [Hm [Hs Hi]]]]].
    destruct (Hall r Hin Hm) as [E|[_ S]]; congruence.
  - intros [r [Hin [He [Hm Hi]]]].
    destruct (Hall r Hin Hm) as [E|[I _]]; congruence.
Qed.

(** The three-result scenario of the specification: only the significant
    and improved metric is validated, the significant but not improved one
    is unvalidated, the improved but not significant one is in neither. *)
Example conclusions_three_results (b e : Statistics) (x : float) :
  conclusions
    [Comparison "first" b e x true x x x "large" true;
     Comparison "second" b e x false x x x "large" true;
     Comparison "third" b e x true x x x "small" false;
     ErrorRecord "fourth" "Insufficient data"]
  = (["first"%string], ["second"%string]).
Proof. reflexivity. Qed.

(** ** Reasoning in the error monad *)

Lemma bind_Ok_inv {A B} (c : Py A) (k : A -> Py B) (b : B) :
  bind c k = Ok b -> exists a, c = Ok a /\ k a = Ok b.
Proof. destruct c; simpl; [eauto|discriminate]. Qed.

Ltac bind_inv H :=
  let a := fresh "a" in
  let E := fresh "E" in
  apply bind_Ok_inv in H; destruct H as [a [E H]].


Ltac bind_replay_in H G :=
  let a := fresh "a" in
  let E := fresh "E" in
  apply bind_Ok_inv in H; destruct H as [a [E H]];
  rewrite E in G; clear E; cbn [bind] in G.

Lemma calculate_stats_nil_iff (values : list float) (o : option Statistics) :
  calculate_stats values = Ok o -> (o = None <-> values = []).
Proof.
  destruct values as [|v vs]; unfold calculate_stats.
  - intros [= <-]. tauto.
  - intros H. bind_inv H.
    destruct (_ <? 2)%nat.
    + injection H as <-. split; discriminate.
    + do 5 (bind_inv H). injection H as <-. split; discriminate.
Qed.

Lemma normal_cdf_eq (erf : float -> float) (x : float) :
  normal_cdf erf x = Ok (0.5 * (1 + erf (x / PrimFloat.sqrt 2)))%float.
Proof. reflexivity. Qed.

(** ** The comparator *)

Lemma improvement_eq lob bm em :
  improvement lob bm em =
  if (bm =? 0)%float then Raise ZeroDivisionError
  else Ok (polarity_pct lob bm em, polarity_flag lob bm em).
Proof.
  unfold improvement, polarity_pct, polarity_flag, py_div.
  destruct lob, (bm =? 0)%float; reflexivity.
Qed.

(** C1. For non-empty samples the comparator returns a result exactly when
    no step raises, and the result's improvement percentage and flag then
    follow the polarity rule: [(b - c) / b * 100] and [c < b] when lower is
    better, [(c - b) / b * 100] and [c > b] otherwise, for the baseline mean
    [b] and the candidate mean [c]. *)
Theorem analyze_metric_polarity (erf : float -> float)
    (baseline_values esm_values : list float) (name : string)
    (lower_is_better : bool) (r : Result) :
  baseline_values <> [] -> esm_values <> [] ->
  (analyze_metric erf baseline_values esm_values name lower_is_better = Ok r
   <->
   exists bs es t p d,
     calculate_stats baseline_values = Ok (Some bs) /\
     calculate_stats esm_values = Ok (Some es) /\
     (mean bs =? 0)%float = false /\
     welch_t_test erf baseline_values esm_values = Ok (t, p) /\
     cohens_d baseline_values esm_values = Ok d /\
     r = Comparison name bs es
           (if lower_is_better
            then ((mean bs - mean es) / mean bs * 100)%float
            else ((mean es - mean bs) / mean bs * 100)%float)
           (if lower_is_better
            then (mean es <? mean bs)%float
            else (mean bs <? mean es)%float)
           t p d (effect_size_interpretation d) (p <? 0.05)%float).
Proof.
  intros Hb He. unfold analyze_metric. split.
  - intros H. bind_inv H. bind_inv H.
    destruct a as [bs|];
      [|apply calculate_stats_nil_iff in E;
        now destruct (Hb (proj1 E eq_refl))].
    destruct a0 as [es|];
      [|apply calculate_stats_nil_iff in E0;
        now destruct (He (proj1 E0 eq_refl))].
    bind_inv H. destruct a as [ip imp].
    bind_inv H. destruct a as [t p]. bind_inv H.
    injection H as <-.
    rewrite improvement_eq in E1.
    destruct (mean bs =? 0)%float eqn:Z; [discriminate|].
    injection E1 as <- <-.
    exists bs, es, t, p, a. repeat split; assumption.
  - intros (bs & es & t & p & d & Eb & Ee & Z & Ew & Ec & ->).
    rewrite Eb, Ee. simpl. rewrite improvement_eq, Z. simpl.
    rewrite Ew. simpl. rewrite Ec. reflexivity.
Qed.

(** The specification's example: baseline mean 100, candidate mean 80,
    lower is better: improvement 20.0 and improved. *)
Lemma analyze_metric_polarity_witness :
  analyze_metric (fun x => x) [100%float] [80%float] "latency" true =
  Ok (Comparison "latency"
        (mkStatistics 1 100 0 100 100 100 100)
        (mkStatistics 1 80 0 80 80 80 80)
        20 true 0 1 0 "negligible" false).
Proof.
  apply (analyze_metric_polarity (fun x => x) [100%float] [80%float]
           "latency" true); try discriminate.
  exists (mkStatistics 1 100 0 100 100 100 100),
         (mkStatistics 1 80 0 80 80 80 80), 0%float, 1%float, 0%float.
  repeat split; reflexivity.
Defined.

(** C3. The division by the baseline mean is unguarded: there are non-empty
    samples whose baseline mean is exactly 0, and on every pair of
    non-empty samples whose baseline mean equals 0 the comparator raises
    [ZeroDivisionError] instead of returning a record. *)
Theorem analyze_metric_zero_baseline :
  (exists baseline_values esm_values bs,
     baseline_values <> [] /\ esm_values <> [] /\
     calculate_stats baseline_values = Ok (Some bs) /\
     mean bs = 0%float /\
     forall erf name lower_is_better,
       analyze_metric erf baseline_values esm_values name lower_is_better
       = Raise ZeroDivisionError) /\
  (forall erf baseline_values esm_values name lower_is_better bs es,
     calculate_stats baseline_values = Ok (Some bs) ->
     calculate_stats esm_values = Ok (Some es) ->
     (mean bs =? 0)%float = true ->
     analyze_metric erf baseline_values esm_values name lower_is_better
     = Raise ZeroDivisionError).
Proof.
  assert (U : forall erf baseline_values esm_values name lower_is_better
                     bs es,
             calculate_stats baseline_values = Ok (Some bs) ->
             calculate_stats esm_values = Ok (Some es) ->
             (mean bs =? 0)%float = true ->
             analyze_metric erf baseline_values esm_values name
               lower_is_better = Raise ZeroDivisionError).
  { intros erf b e name lob bs es Eb Ee Z. unfold analyze_metric.
    rewrite Eb, Ee. simpl. rewrite improvement_eq, Z. reflexivity. }
  split; [|exact U].
  exists [0%float; 0%float; 0%float], [80%float],
         (mkStatistics 3 0 0 0 0 0 0).
  split; [discriminate|]. split; [discriminate|].
  split; [vm_compute; reflexivity|]. split; [reflexivity|].
  intros erf name lob.
  apply (U erf _ _ name lob (mkStatistics 3 0 0 0 0 0 0)
           (mkStatistics 1 80 0 80 80 80 80));
    vm_compute; reflexivity.
Qed.

(** The statistics of both samples are computed before either is tested
    for emptiness, so an overflow in the non-empty sample pre-empts the
    error record: [(1e200 - 0.0) ** 2] raises [OverflowError]. *)
Lemma analyze_metric_empty_overflow :
  calculate_stats [1e200%float; (-1e200)%float] = Raise OverflowError /\
  analyze_metric (fun x => x) [1e200%float; (-1e200)%float] [] "latency" true
  = Raise OverflowError.
Proof. split; vm_compute; reflexivity. Qed.

(** C6, amended. When either sample is empty, the comparator first computes
    the statistics of both samples; an exception raised there propagates,
    and otherwise the result is the error record holding just the metric
    name and "Insufficient data", with no statistics, improvement,
    significance or effect size: the tests are never run. *)
Theorem analyze_metric_insufficient (erf : float -> float)
    (baseline_values esm_values : list float) (name : string)
    (lower_is_better : bool) :
  baseline_values = [] \/ esm_values = [] ->
  analyze_metric erf baseline_values esm_values name lower_is_better =
  match calculate_stats baseline_values, calculate_stats esm_values with
  | Ok _, Ok _ => Ok (ErrorRecord name "Insufficient data")
  | Raise err, _ => Raise err
  | Ok _, Raise err => Raise err
  end.
Proof.
  intros H. unfold analyze_metric.
  destruct (calculate_stats baseline_values) as [ob|err] eqn:Eb;
    [|reflexivity].
  destruct (calculate_stats esm_values) as [oe|err] eqn:Ee; [|reflexivity].
  simpl. destruct H as [-> | ->].
  - injection Eb as <-. reflexivity.
  - injection Ee as <-. destruct ob; reflexivity.
Qed.

Lemma analyze_metric_insufficient_witness :
  analyze_metric (fun x => x) [] [8%float; 9%float; 10%float] "latency" true
  = Ok (ErrorRecord "latency" "Insufficient data").
Proof.
  exact (analyze_metric_insufficient (fun x => x) []
           [8%float; 9%float; 10%float] "latency" true (or_introl eq_refl)).
Defined.

(** ** The significance tester *)

Lemma raises_only_bind {A B} (P : PyError -> Prop) (c : Py A)
    (k : A -> Py B) :
  raises_only P c -> (forall a, c = Ok a -> raises_only P (k a)) ->
  raises_only P (bind c k).
Proof.
  intros Hc Hk e. destruct c as [a|e']; simpl.
  - apply (Hk a eq_refl).
  - intros [= ->]. now apply Hc.
Qed.

Lemma raises_only_Ok {A} (P : PyError -> Prop) (a : A) :
  raises_only P (Ok a).
Proof. intros e. discriminate. Qed.







Lemma Prim2SF_zero : Prim2SF 0%float = S754_zero false.
Proof. reflexivity. Qed.

Lemma pos_not_zero (d : float) :
  (0 <? d)%float = true -> (d =? 0)%float = false.
Proof.
  rewrite FloatAxioms.ltb_spec, FloatAxioms.eqb_spec, Prim2SF_zero.
  unfold SFltb, SFeqb.
  destruct (Prim2SF d) as [s|s| |s m e]; simpl; try discriminate;
    destruct s; congruence.
Qed.


(** C8. When both samples have at least 2 observations and the standard
    error is not 0, a returned p-value is [2 * (1 - Phi(|t|))] for the
    returned [t], with [Phi(x) = 0.5 * (1 + erf(x / sqrt 2))]: it is a
    function of [t] alone, whatever the degrees of freedom came to. *)
Theorem welch_t_test_p_value (erf : float -> float)
    (sample1 sample2 : list float) (se t p : float) :
  2 <= List.length sample1 -> 2 <= List.length sample2 ->
  standard_error sample1 sample2 = Ok se ->
  (se =? 0)%float = false ->
  welch_t_test erf sample1 sample2 = Ok (t, p) ->
  normal_cdf erf (abs t)
    = Ok (0.5 * (1 + erf (abs t / PrimFloat.sqrt 2)))%float /\
  p = (2 * (1 - 0.5 * (1 + erf (abs t / PrimFloat.sqrt 2))))%float.
Proof.
  intros N1 N2 Hse Z H. split; [apply normal_cdf_eq|].
  unfold welch_t_test in H.
  replace ((List.length sample1 <? 2)%nat || (List.length sample2 <? 2)%nat)
    with false in H
    by (symmetry; apply orb_false_iff; split; apply Nat.ltb_ge; lia).
  unfold standard_error in Hse.
  do 8 (bind_replay_in Hse H).
  rewrite Hse in H. cbn [bind] in H. rewrite Z in H.
  repeat (bind_inv H).
  match goal with E : normal_cdf _ _ = Ok _ |- _ =>
    rewrite normal_cdf_eq in E; injection E as <- end.
  now injection H as <- <-.
Qed.

Lemma welch_t_test_p_value_witness :
  welch_t_test (fun x => x) [1; 2; 3]%float [2; 4; 9]%float
  = Ok ((-1.3887301496588274)%float, 0.018019493938034259%float) /\
  0.018019493938034259%float
  = (2 * (1 - 0.5 *
            (1 + abs (-1.3887301496588274) / PrimFloat.sqrt 2)))%float.
Proof.
  split; [vm_compute; reflexivity|].
  apply (welch_t_test_p_value (fun x => x) [1; 2; 3]%float [2; 4; 9]%float
           2.1602468994692865%float (-1.3887301496588274)%float
           0.018019493938034259%float).
  - repeat constructor.
  - repeat constructor.
  - vm_compute. reflexivity.
  - reflexivity.
  - vm_compute. reflexivity.
Defined.

(** ** Sample statistics over exact reals *)

Module ExactFacts.
Import Exact.

Lemma fold_sum (l : list R) : forall a, fold_left Rplus l a = (a + py_sum l)%R.
Proof.
  unfold py_sum. induction l as [|x l IH]; intros a; simpl.
  - lra.
  - rewrite IH, (IH (0 + x)%R). lra.
Qed.

Lemma py_sum_cons x l : py_sum (x :: l) = (x + py_sum l)%R.
Proof. unfold py_sum at 1. simpl. rewrite fold_sum. lra. Qed.

Lemma py_min_le (rest : list R) : forall x,
  (py_min x rest <= x)%R /\ Forall (fun y => py_min x rest <= y)%R rest.
Proof.
  unfold py_min. induction rest as [|y rest IH]; intros x; simpl.
  - split; [lra|constructor].
  - destruct (Rlt_dec y x) as [L|L];
      [destruct (IH y) as [A B] | destruct (IH x) as [A B]];
      (split; [lra | apply Forall_cons; [lra | exact B]]).
Qed.

Lemma py_max_ge (rest : list R) : forall x,
  (x <= py_max x rest)%R /\ Forall (fun y => y <= py_max x rest)%R rest.
Proof.
  unfold py_max. induction rest as [|y rest IH]; intros x; simpl.
  - split; [lra|constructor].
  - destruct (Rlt_dec x y) as [L|L];
      [destruct (IH y) as [A B] | destruct (IH x) as [A B]];
      (split; [lra | apply Forall_cons; [lra | exact B]]).
Qed.

Lemma sum_bounds (lo hi : R) (l : list R) :
  Forall (fun y => lo <= y)%R l -> Forall (fun y => y <= hi)%R l ->
  (INR (List.length l) * lo <= py_sum l <= INR (List.length l) * hi)%R.
Proof.
  induction 1 as [|x l Hx Hl IH]; intros Hhi.
  - unfold py_sum. simpl. lra.
  - inversion Hhi as [|? ? Hx' Hl']; subst.
    rewrite py_sum_cons. change (List.length (x :: l)) with (S (List.length l)).
    rewrite S_INR, !Rmult_plus_distr_r. specialize (IH Hl'). lra.
Qed.

Lemma sum_sq_from_ge (values : list R) (mean : R) : forall acc,
  exists s, sum_sq_from acc values mean = Ok s /\ (acc <= s)%R.
Proof.
  induction values as [|x rest IH]; intros acc; simpl.
  - exists acc. split; [reflexivity|lra].
  - destruct (IH (acc + (x - mean) * (x - mean))%R) as [s [E L]].
    exists s. split; [exact E|].
    pose proof (Rle_0_sqr (x - mean)) as Q. unfold Rsqr in Q. lra.
Qed.

Lemma py_div_int_pos x n :
  n <> 0 -> py_div_int x n = Ok (x / INR n)%R.
Proof.
  intros H. unfold py_div_int. now destruct (Nat.eqb_spec n 0).
Qed.

Lemma py_sqrt_nonneg x : (0 <= x)%R -> py_sqrt x = Ok (sqrt x).
Proof.
  intros H. unfold py_sqrt. destruct (Rlt_dec x 0); [lra|reflexivity].
Qed.

Lemma py_div_nonzero x y : y <> 0%R -> py_div x y = Ok (x / y)%R.
Proof.
  intros H. unfold py_div. destruct (Req_dec_T y 0); [contradiction|easy].
Qed.

(** In exact arithmetic [calculate_stats] is total on non-empty samples
    and its result satisfies the invariant of [Statistics]. *)
Lemma calculate_stats_exact (values : list R) :
  values <> [] ->
  exists st,
    calculate_stats values = Ok (Some st) /\
    n st = List.length values /\
    (ci_lower st <= mean st <= ci_upper st)%R /\
    (min_val st <= mean st <= max_val st)%R /\
    (List.length values < 2 ->
     std st = 0%R /\ ci_lower st = mean st /\ ci_upper st = mean st /\
     forall x, In x values -> mean st = x).
Proof.
  destruct values as [|v vs]; [congruence|intros _].
  unfold calculate_stats.
  set (len := List.length (v :: vs)).
  assert (Hlen : len = S (List.length vs)) by reflexivity.
  assert (Hpos : (0 < INR len)%R) by (apply lt_0_INR; lia).
  rewrite py_div_int_pos by lia. cbn [bind].
  set (m := (py_sum (v :: vs) / INR len)%R).
  assert (Hm : (py_min v vs <= m <= py_max v vs)%R).
  { destruct (py_min_le vs v) as [A B], (py_max_ge vs v) as [C D].
    destruct (sum_bounds (py_min v vs) (py_max v vs) (v :: vs)) as [L U];
      try (constructor; assumption).
    fold len in L, U. unfold m. split.
    - apply Rmult_le_reg_r with (INR len); [exact Hpos|].
      unfold Rdiv. rewrite Rmult_assoc, Rinv_l by lra. lra.
    - apply Rmult_le_reg_r with (INR len); [exact Hpos|].
      unfold Rdiv. rewrite Rmult_assoc, Rinv_l by lra. lra. }
  destruct (Nat.ltb_spec len 2) as [Hn|Hn].
  - eexists. split; [reflexivity|].
    cbn [n mean std min_val max_val ci_lower ci_upper].
    split; [reflexivity|]. split; [lra|]. split; [exact Hm|].
    intros _. repeat split.
    intros x Hx. destruct vs as [|w ws]; [|simpl in Hlen; lia].
    destruct Hx as [<-|[]]. unfold m, py_sum. subst len. simpl. field.
  - destruct (sum_sq_from_ge (v :: vs) m 0%R) as [sq [Esq Hsq]].
    unfold sum_sq. rewrite Esq. cbn [bind].
    rewrite py_div_int_pos by lia. cbn [bind].
    assert (Hvar : (0 <= sq / INR (len - 1))%R).
    { apply Rmult_le_pos; [exact Hsq|].
      apply Rlt_le, Rinv_0_lt_compat, lt_0_INR. lia. }
    rewrite py_sqrt_nonneg by exact Hvar. cbn [bind].
    rewrite py_sqrt_nonneg by lra. cbn [bind].
    assert (Hroot : (0 < sqrt (INR len))%R) by now apply sqrt_lt_R0.
    rewrite py_div_nonzero by lra. cbn [bind].
    eexists. split; [reflexivity|].
    cbn [n mean std min_val max_val ci_lower ci_upper].
    assert (Hq : (0 <= sqrt (sq / INR (len - 1)) / sqrt (INR len))%R).
    { apply Rmult_le_pos; [apply sqrt_pos|].
      now apply Rlt_le, Rinv_0_lt_compat. }
    assert (Hmargin :
              (0 <= (if (30 <? len)%nat then 196 / 100 else 2) *
                    (sqrt (sq / INR (len - 1)) / sqrt (INR len)))%R).
    { apply Rmult_le_pos; [destruct (30 <? len)%nat; lra|exact Hq]. }
    split; [reflexivity|]. split; [lra|]. split; [exact Hm|].
    intros; lia.
Qed.

Lemma improvement_exact_eq lob bm em :
  bm <> 0%R ->
  improvement lob bm em =
  Ok (if lob then ((bm - em) / bm * 100)%R else ((em - bm) / bm * 100)%R,
      if lob then (if Rlt_dec em bm then true else false)
      else (if Rlt_dec bm em then true else false)).
Proof.
  intros H. unfold improvement. rewrite !py_div_nonzero by exact H.
  destruct lob; reflexivity.
Qed.

Lemma ratio_pos (x b : R) : (0 < b)%R -> (0 < x / b * 100 <-> 0 < x)%R.
Proof.
  intros Hb. pose proof (Rinv_0_lt_compat b Hb) as Hi. unfold Rdiv.
  split; intros H.
  - destruct (Rle_or_lt x 0) as [L|L]; [|exact L].
    assert (x * / b <= 0)%R by nra. lra.
  - assert (0 < x * / b)%R by now apply Rmult_lt_0_compat. lra.
Qed.

Lemma ratio_neg (x b : R) : (b < 0)%R -> (x / b * 100 < 0 <-> 0 < x)%R.
Proof.
  intros Hb.
  replace (x / b * 100)%R with (- (x / (- b) * 100))%R
    by (field; lra).
  pose proof (ratio_pos x (- b)%R). lra.
Qed.

End ExactFacts.

(** ** Symmetries of the binary64 operations *)

Lemma SFopp_binary_round_aux s m e l :
  SFopp (binary_round_aux prec emax s m e l)
  = binary_round_aux prec emax (negb s) m e l.
Proof.
  unfold binary_round_aux.
  destruct (shr_fexp prec emax m e l) as [mrs' e'].
  destruct (shr_fexp prec emax _ e' loc_Exact) as [mrs'' e''].
  destruct (shr_m mrs''); try reflexivity.
  destruct (Z.leb e'' _); reflexivity.
Qed.

Lemma SFopp_binary_round s m e :
  SFopp (binary_round prec emax s m e) = binary_round prec emax (negb s) m e.
Proof.
  unfold binary_round. destruct (shl_align m e _) as [mz ez].
  apply SFopp_binary_round_aux.
Qed.

Lemma binary_normalize_opp m e :
  sf_sim (binary_normalize prec emax (- m) e false)
         (SFopp (binary_normalize prec emax m e false)).
Proof.
  destruct m as [|p|p]; simpl.
  - right. eauto.
  - left. now rewrite SFopp_binary_round.
  - left. now rewrite SFopp_binary_round.
Qed.

Lemma SFadd_comm x y : SF64add x y = SF64add y x.
Proof.
  unfold SF64add, SFadd.
  destruct x as [sx|sx| |sx mx ex], y as [sy|sy| |sy my ey];
    try reflexivity; try (destruct sx, sy; reflexivity).
  now rewrite Z.min_comm, Z.add_comm.
Qed.

Lemma SFsub_antisym x y : sf_sim (SF64sub x y) (SFopp (SF64sub y x)).
Proof.
  unfold SF64sub, SFsub.
  destruct x as [sx|sx| |sx mx ex], y as [sy|sy| |sy my ey];
    try (left; reflexivity);
    try solve [destruct sx, sy; simpl;
               solve [left; reflexivity | right; eauto]].
  rewrite (Z.min_comm ey ex).
  match goal with
  | |- sf_sim (binary_normalize _ _ (?a - ?b)%Z _ _) _ =>
      replace (a - b)%Z with (- (b - a))%Z by lia
  end.
  apply binary_normalize_opp.
Qed.

Lemma SFdiv_opp a s : SF64div (SFopp a) s = SFopp (SF64div a s).
Proof.
  unfold SF64div, SFdiv.
  destruct a as [sa|sa| |sa ma ea], s as [ss|ss| |ss ms es]; simpl;
    try reflexivity; try solve [destruct sa, ss; reflexivity].
  destruct (SFdiv_core_binary prec emax (Z.pos ma) ea (Z.pos ms) es)
    as [[mz ez] lz].
  rewrite SFopp_binary_round_aux. now destruct sa, ss.
Qed.

Lemma SFdiv_sim a b s : sf_sim a b -> sf_sim (SF64div a s) (SF64div b s).
Proof.
  intros [->|[sa [sb [-> ->]]]]; [now left|].
  unfold SF64div, SFdiv. destruct s as [ss|ss| |ss ms es];
    solve [left; reflexivity | right; eauto].
Qed.

Lemma SFabs_sim a b : sf_sim a b -> SFabs a = SFabs b.
Proof. intros [->|[sa [sb [-> ->]]]]; reflexivity. Qed.

Lemma SFabs_opp a : SFabs (SFopp a) = SFabs a.
Proof. now destruct a. Qed.

Lemma SFeqb_refl a : a <> S754_nan -> SFeqb a a = true.
Proof.
  unfold SFeqb, SFcompare. destruct a as [s|s| |s m e]; try congruence;
    intros _; try (now destruct s).
  rewrite Z.compare_refl, Pos.compare_cont_refl. now destruct s.
Qed.

Lemma f_sim_feq x y : f_sim x y -> feq x y = true.
Proof.
  unfold f_sim, feq, is_nan. rewrite !FloatAxioms.eqb_spec.
  intros [E|[s [s' [E E']]]].
  - rewrite <- E. destruct (Prim2SF x) eqn:Ex;
      try (rewrite SFeqb_refl by discriminate; reflexivity).
    reflexivity.
  - rewrite E, E'. reflexivity.
Qed.

Lemma add_comm (x y : float) : (x + y = y + x)%float.
Proof. apply Prim2SF_inj. rewrite !add_spec. apply SFadd_comm. Qed.

Lemma sub_antisym (x y : float) : f_sim (x - y)%float (- (y - x))%float.
Proof.
  unfold f_sim. rewrite opp_spec, !sub_spec. apply SFsub_antisym.
Qed.

Lemma div_sim_opp (a b s : float) :
  f_sim a (- b)%float -> f_sim (a / s)%float (- (b / s))%float.
Proof.
  unfold f_sim. rewrite !opp_spec, !div_spec, <- SFdiv_opp.
  apply SFdiv_sim.
Qed.

Lemma abs_sim_opp (a b : float) : f_sim a (- b)%float -> abs a = abs b.
Proof.
  unfold f_sim. rewrite opp_spec. intros H. apply Prim2SF_inj.
  rewrite !abs_spec, (SFabs_sim _ _ H). apply SFabs_opp.
Qed.

Lemma py_div_int_ok x n :
  n <> 0 -> py_div_int x n = Ok (x / float_of_nat n)%float.
Proof. intros H. unfold py_div_int. now destruct (Nat.eqb_spec n 0). Qed.

Lemma py_div_ok x y :
  (y =? 0)%float = false -> py_div x y = Ok (x / y)%float.
Proof. intros H. unfold py_div. now rewrite H. Qed.

Lemma py_pow2_overflow x e : py_pow2 x = Raise e -> e = OverflowError.
Proof. unfold py_pow2. destruct (_ && _); congruence. Qed.

Lemma sum_sq_from_overflow values mean e : forall acc,
  sum_sq_from acc values mean = Raise e -> e = OverflowError.
Proof.
  induction values as [|x rest IH]; intros acc; simpl; [discriminate|].
  destruct (py_pow2 (x - mean)) as [t|e'] eqn:E; simpl.
  - apply IH.
  - intros [= <-]. now apply py_pow2_overflow in E.
Qed.

Lemma sum_sq_overflow values mean e :
  sum_sq values mean = Raise e -> e = OverflowError.
Proof. apply sum_sq_from_overflow. Qed.

(** ** Swapping the two samples *)

Lemma welch_t_test_swap (erf : float -> float) (A B : list float) :
  match welch_t_test erf A B, welch_t_test erf B A with
  | Ok (t, p), Ok (t', p') => feq t (- t')%float = true /\ p = p'
  | Raise e, Raise e' => e = e'
  | _, _ => False
  end.
Proof.
  unfold welch_t_test.
  rewrite (orb_comm (List.length B <? 2)%nat).
  destruct (_ || _) eqn:N; [split; reflexivity|].
  apply orb_false_elim in N. destruct N as [N1 N2].
  apply Nat.ltb_ge in N1, N2.
  rewrite !py_div_int_ok by lia. cbn [bind].
  set (mA := (py_sum A / float_of_nat (List.length A))%float).
  set (mB := (py_sum B / float_of_nat (List.length B))%float).
  destruct (sum_sq A mA) as [sqA|eA] eqn:EA;
    destruct (sum_sq B mB) as [sqB|eB] eqn:EB; cbn [bind];
    rewrite ?py_div_int_ok by lia; cbn [bind];
    try rewrite EA; try rewrite EB; cbn [bind];
    rewrite ?py_div_int_ok by lia; cbn [bind].
  2-4: try reflexivity; apply sum_sq_overflow in EA, EB; congruence.
  rewrite (add_comm (sqB / _ / _)%float).
  destruct (py_sqrt _) as [se|e] eqn:Ese; cbn [bind]; [|reflexivity].
  destruct (se =? 0)%float eqn:Z; [split; reflexivity|].
  rewrite !py_div_ok by exact Z. cbn [bind].
  set (a := (sqA / _ / _)%float). set (b := (sqB / _ / _)%float).
  destruct (py_pow2 (a + b)) as [num|e] eqn:En; cbn [bind]; [|reflexivity].
  destruct (py_pow2 a) as [a2|ea] eqn:Ea;
    destruct (py_pow2 b) as [b2|eb] eqn:Eb; cbn [bind];
    rewrite ?py_div_int_ok by lia; cbn [bind];
    try rewrite Ea; try rewrite Eb; cbn [bind];
    rewrite ?py_div_int_ok by lia; cbn [bind].
  2-4: try reflexivity; apply py_pow2_overflow in Ea, Eb; congruence.
  rewrite (add_comm (b2 / _)%float).
  assert (T : f_sim ((mA - mB) / se)%float (- ((mB - mA) / se))%float)
    by apply div_sim_opp, sub_antisym.
  rewrite !normal_cdf_eq, (abs_sim_opp _ _ T).
  destruct (0 <? _)%float eqn:D;
    [rewrite py_div_ok by now apply pos_not_zero|]; cbn [bind];
    (split; [now apply f_sim_feq | reflexivity]).
Qed.

Lemma cohens_d_swap (A B : list float) :
  match cohens_d A B, cohens_d B A with
  | Ok d, Ok d' => feq d (- d')%float = true
  | Raise e, Raise e' => e = e'
  | _, _ => False
  end.
Proof.
  unfold cohens_d.
  rewrite (orb_comm (List.length B <? 2)%nat).
  destruct (_ || _) eqn:N; [reflexivity|].
  apply orb_false_elim in N. destruct N as [N1 N2].
  apply Nat.ltb_ge in N1, N2.
  rewrite !py_div_int_ok by lia. cbn [bind].
  set (mA := (py_sum A / float_of_nat (List.length A))%float).
  set (mB := (py_sum B / float_of_nat (List.length B))%float).
  destruct (sum_sq A mA) as [sqA|eA] eqn:EA;
    destruct (sum_sq B mB) as [sqB|eB] eqn:EB; cbn [bind];
    rewrite ?py_div_int_ok by lia; cbn [bind];
    try rewrite EA; try rewrite EB; cbn [bind];
    rewrite ?py_div_int_ok by lia; cbn [bind].
  2-4: try reflexivity; apply sum_sq_overflow in EA, EB; congruence.
  rewrite (add_comm (float_of_nat (List.length B - 1) * _)%float).
  rewrite (Nat.add_comm (List.length B)).
  destruct (py_sqrt _) as [pooled_std|e] eqn:Ep; cbn [bind]; [|reflexivity].
  destruct (pooled_std =? 0)%float eqn:Z; [reflexivity|].
  rewrite !py_div_ok by exact Z.
  apply f_sim_feq, div_sim_opp, sub_antisym.
Qed.

(** C4. Swapping the two samples negates the t-statistic, keeps the
    p-value and negates Cohen's d, on every pair of samples and in every
    branch; a call that raises on one order raises the same exception on
    the other.  A statistic and its swapped, negated counterpart are equal
    under Python's [==] (so the degenerate [0.0] matches [-0.0]) or are
    both NaN; the two p-values are identical. *)
Theorem swap_symmetry (erf : float -> float) (A B : list float) :
  match welch_t_test erf A B, welch_t_test erf B A with
  | Ok (t, p), Ok (t', p') => feq t (- t')%float = true /\ p = p'
  | Raise e, Raise e' => e = e'
  | _, _ => False
  end /\
  match cohens_d A B, cohens_d B A with
  | Ok d, Ok d' => feq d (- d')%float = true
  | Raise e, Raise e' => e = e'
  | _, _ => False
  end.
Proof. split; [apply welch_t_test_swap | apply cohens_d_swap]. Qed.

Example swap_symmetry_samples :
  welch_t_test (fun x => x) [1; 2; 3]%float [2; 4; 9]%float
  = Ok ((-1.3887301496588274)%float, 0.018019493938034259%float) /\
  welch_t_test (fun x => x) [2; 4; 9]%float [1; 2; 3]%float
  = Ok (1.3887301496588274%float, 0.018019493938034259%float) /\
  cohens_d [1; 2; 3]%float [2; 4; 9]%float = Ok (-1.1338934190276817)%float /\
  cohens_d [2; 4; 9]%float [1; 2; 3]%float = Ok 1.1338934190276817%float /\
  welch_t_test (fun x => x) [5%float] [1; 2]%float = Ok (0%float, 1%float) /\
  feq 0%float (- 0)%float = true.
Proof. repeat split; vm_compute; reflexivity. Qed.

(** ** Rounding to nearest in binary64

    What the specification of the primitive operations says about the
    result of a rounding: its mantissa is the truncated one or the next, it
    is canonical, and it never crosses a representable number. *)

Section Rounding.
Local Open Scope Z_scope.

Lemma digits2_pos_size p : digits2_pos p = Pos.size p.
Proof. induction p; simpl; congruence. Qed.

Lemma digits_bounds (p : positive) :
  2 ^ (Z.pos (digits2_pos p) - 1) <= Z.pos p < 2 ^ Z.pos (digits2_pos p).
Proof.
  induction p as [p IH|p IH|]; simpl digits2_pos.
  - rewrite Pos2Z.inj_succ.
    replace (Z.succ (Z.pos (digits2_pos p)) - 1)
      with (Z.succ (Z.pos (digits2_pos p) - 1)) by lia.
    rewrite !Z.pow_succ_r by lia. lia.
  - rewrite Pos2Z.inj_succ.
    replace (Z.succ (Z.pos (digits2_pos p)) - 1)
      with (Z.succ (Z.pos (digits2_pos p) - 1)) by lia.
    rewrite !Z.pow_succ_r by lia. lia.
  - simpl. lia.
Qed.

(** [iter_pos] is n-fold iteration. *)
Lemma iter_pos_nat {A} (f : A -> A) (n : positive) : forall x,
  SpecFloat.iter_pos f n x = Nat.iter (Pos.to_nat n) f x.
Proof.
  induction n as [n IH|n IH|]; intros x; simpl SpecFloat.iter_pos.
  - rewrite !IH. rewrite Pos2Nat.inj_xI.
    rewrite <- Nat.iter_add. rewrite <- Nat.iter_succ_r. f_equal. lia.
  - rewrite !IH. rewrite Pos2Nat.inj_xO.
    rewrite <- Nat.iter_add. f_equal. lia.
  - reflexivity.
Qed.

Lemma shr_1_m (mrs : shr_record) :
  0 <= shr_m mrs -> shr_m (shr_1 mrs) = shr_m mrs / 2.
Proof.
  destruct mrs as [m r s]. simpl. intros H.
  destruct m as [|[p|p|]|p]; simpl; try lia; try reflexivity.
  - rewrite Pos2Z.inj_xI. apply Z.div_unique with 1; lia.
  - rewrite Pos2Z.inj_xO. apply Z.div_unique with 0; lia.
Qed.

Lemma shr_iter_m (k : nat) : forall mrs,
  0 <= shr_m mrs ->
  shr_m (Nat.iter k shr_1 mrs) = shr_m mrs / 2 ^ Z.of_nat k.
Proof.
  induction k as [|k IH]; intros mrs H.
  - simpl. now rewrite Z.div_1_r.
  - rewrite Nat.iter_succ_r, IH.
    + rewrite shr_1_m by exact H. rewrite Nat2Z.inj_succ, Z.pow_succ_r by lia.
      rewrite Z.div_div by lia. reflexivity.
    + rewrite shr_1_m by exact H. apply Z.div_pos; lia.
Qed.

Lemma fexp_eq e : fexp prec emax e = Z.max (e - 53) (-1074).
Proof. reflexivity. Qed.

Lemma digits_unique (p : positive) (n : Z) :
  2 ^ (n - 1) <= Z.pos p < 2 ^ n -> Z.pos (digits2_pos p) = n.
Proof.
  intros [L U]. pose proof (digits_bounds p) as [L' U'].
  set (d := Z.pos (digits2_pos p)) in *.
  assert (Hd : 0 < d) by (unfold d; lia).
  assert (Hn : 0 < n).
  { destruct (Z.lt_trichotomy n 0) as [N|[N|N]]; try lia.
    - rewrite Z.pow_neg_r in U by lia. lia.
    - subst n. simpl in U. lia. }
  destruct (Z.lt_trichotomy d n) as [C|[C|C]]; [|exact C|].
  - assert (2 ^ d <= 2 ^ (n - 1)) by (apply Z.pow_le_mono_r; lia). lia.
  - assert (2 ^ n <= 2 ^ (d - 1)) by (apply Z.pow_le_mono_r; lia). lia.
Qed.

Lemma shr_1_exact (mrs : shr_record) :
  shr_r mrs = false -> shr_s mrs = false -> (shr_m mrs) mod 2 = 0 ->
  0 <= shr_m mrs ->
  shr_r (shr_1 mrs) = false /\ shr_s (shr_1 mrs) = false.
Proof.
  destruct mrs as [m r s]. simpl. intros -> -> H P.
  destruct m as [|[p|p|]|p]; simpl; try lia; auto.
  - rewrite Pos2Z.inj_xI in H.
    rewrite Z.add_comm, Z.mul_comm, Z.mod_add in H by lia.
    discriminate.
  - discriminate.
Qed.

Lemma shr_iter_exact (k : nat) : forall mrs,
  shr_r mrs = false -> shr_s mrs = false ->
  (shr_m mrs) mod 2 ^ Z.of_nat k = 0 -> 0 <= shr_m mrs ->
  shr_r (Nat.iter k shr_1 mrs) = false /\
  shr_s (Nat.iter k shr_1 mrs) = false.
Proof.
  induction k as [|k IH]; intros mrs R S M P.
  - simpl. auto.
  - rewrite Nat.iter_succ_r.
    rewrite Nat2Z.inj_succ, Z.pow_succ_r in M by lia.
    assert (M2 : shr_m mrs mod 2 = 0).
    { apply Z.mod_divide; [lia|]. apply Z.mod_divide in M; [|lia].
      destruct M as [c ->]. exists (c * 2 ^ Z.of_nat k). ring. }
    destruct (shr_1_exact mrs R S M2 P) as [R1 S1].
    apply IH; auto.
    + rewrite shr_1_m by exact P.
      apply Z.mod_divide in M; [|lia]. destruct M as [c ->].
      replace (c * (2 * 2 ^ Z.of_nat k)) with ((c * 2 ^ Z.of_nat k) * 2)
        by ring.
      rewrite Z.div_mul by lia. apply Z.mod_mul. lia.
    + rewrite shr_1_m by exact P. apply Z.div_pos; lia.
Qed.

Lemma shr_record_of_loc_m m l : shr_m (shr_record_of_loc m l) = m.
Proof. now destruct l as [|[]]. Qed.

Lemma loc_of_shr_record_exact mrs :
  shr_r mrs = false -> shr_s mrs = false ->
  loc_of_shr_record mrs = loc_Exact.
Proof. destruct mrs as [m r s]. simpl. now intros -> ->. Qed.

Lemma shr_fexp_spec (p : positive) (e : Z) (l : location) :
  let E := fexp prec emax (Z.pos (digits2_pos p) + e) in
  e <= E ->
  exists mrs,
    shr_fexp prec emax (Z.pos p) e l = (mrs, E) /\
    shr_m mrs = Z.pos p / 2 ^ (E - e) /\
    (l = loc_Exact -> Z.pos p mod 2 ^ (E - e) = 0 ->
     loc_of_shr_record mrs = loc_Exact).
Proof.
  intros E HE. unfold shr_fexp, shr. simpl Zdigits2. fold E.
  destruct (E - e) as [|k|k] eqn:K; try lia.
  - exists (shr_record_of_loc (Z.pos p) l).
    replace E with e by lia. split; [reflexivity|]. split.
    + rewrite shr_record_of_loc_m. simpl. now rewrite Z.div_1_r.
    + intros -> _. reflexivity.
  - rewrite iter_pos_nat.
    exists (Nat.iter (Pos.to_nat k) shr_1 (shr_record_of_loc (Z.pos p) l)).
    split; [f_equal; lia|]. split.
    + rewrite shr_iter_m by (rewrite shr_record_of_loc_m; lia).
      rewrite shr_record_of_loc_m, positive_nat_Z. reflexivity.
    + intros -> M. apply loc_of_shr_record_exact;
        apply shr_iter_exact; simpl; try reflexivity; try lia;
        now rewrite positive_nat_Z.
Qed.

Lemma round_nearest_even_cases m l :
  (round_nearest_even m l = m \/
   (round_nearest_even m l = m + 1 /\ l <> loc_Exact)).
Proof.
  destruct l as [|[]]; simpl; auto.
  - destruct (Z.even m); [auto|right; split; [reflexivity|discriminate]].
  - right. split; [reflexivity|discriminate].
Qed.

Lemma second_shr (m1 E : Z) (s : bool) :
  -1074 <= E -> 0 <= m1 <= 2 ^ 53 ->
  (let '(mrs'', e'') := shr_fexp prec emax m1 E loc_Exact in
   match shr_m mrs'' with
   | Z0 => S754_zero s
   | Zpos m => if Z.leb e'' (Z.sub emax prec) then S754_finite s m e''
               else S754_infinity s
   | Zneg _ => S754_nan
   end) = rounded s m1 E.
Proof.
  intros HE [L U]. unfold rounded, shr_fexp, shr.
  destruct m1 as [|q|q]; [| |lia].
  - simpl Zdigits2. simpl (0 =? 0). cbv iota.
    rewrite fexp_eq.
    destruct (Z.max (0 + E - 53) (-1074) - E) eqn:K; try lia; reflexivity.
  - simpl Zdigits2. change (Z.pos q =? 0) with false. cbv iota.
    rewrite fexp_eq.
    pose proof (digits_bounds q) as [DL DU].
    destruct (Z.ltb_spec (Z.pos q) (2 ^ 53)) as [C|C].
    + assert (D : Z.pos (digits2_pos q) <= 53).
      { destruct (Z.le_gt_cases (Z.pos (digits2_pos q)) 53) as [G|G];
          [exact G|].
        assert (2 ^ 53 <= 2 ^ (Z.pos (digits2_pos q) - 1))
          by (apply Z.pow_le_mono_r; lia).
        lia. }
      destruct (Z.max (Z.pos (digits2_pos q) + E - 53) (-1074) - E) eqn:K;
        try lia; simpl shr_m; rewrite Pos2Z.id || idtac; reflexivity.
    + assert (Q : Z.pos q = 2 ^ 53) by lia.
      assert (D : Z.pos (digits2_pos q) = 54)
        by (apply digits_unique; rewrite Q; simpl; lia).
      rewrite D.
      replace (Z.max (54 + E - 53) (-1074) - E) with 1 by lia.
      injection Q as ->. reflexivity.
Qed.

Lemma floor_shift_lt (p : positive) (e E : Z) :
  e <= E -> Z.pos (digits2_pos p) + e - 53 <= E ->
  0 <= Z.pos p / 2 ^ (E - e) < 2 ^ 53.
Proof.
  intros H1 H2. pose proof (digits_bounds p) as [_ U].
  set (d := Z.pos (digits2_pos p)) in *.
  assert (P : 0 < 2 ^ (E - e)) by (apply Z.pow_pos_nonneg; lia).
  split; [apply Z.div_pos; lia|].
  apply Z.div_lt_upper_bound; [exact P|].
  rewrite <- Z.pow_add_r by lia.
  assert (2 ^ d <= 2 ^ (E - e + 53)) by (apply Z.pow_le_mono_r; lia).
  lia.
Qed.

Lemma binary_round_aux_cases (s : bool) (p : positive) (e : Z) (l : location) :
  let E := fexp prec emax (Z.pos (digits2_pos p) + e) in
  let m0 := Z.pos p / 2 ^ (E - e) in
  e <= E ->
  exists m1,
    binary_round_aux prec emax s (Z.pos p) e l = rounded s m1 E /\
    m0 <= m1 <= m0 + 1 /\
    (l = loc_Exact -> Z.pos p mod 2 ^ (E - e) = 0 -> m1 = m0).
Proof.
  intros E m0 HE. unfold binary_round_aux.
  destruct (shr_fexp_spec p e l HE) as [mrs [-> [Hm Hl]]]. fold E in Hm, Hl.
  set (m1 := round_nearest_even (shr_m mrs) (loc_of_shr_record mrs)).
  assert (B : 0 <= m0 < 2 ^ 53).
  { apply floor_shift_lt; [exact HE|]. unfold E. rewrite fexp_eq. lia. }
  assert (C : m0 <= m1 <= m0 + 1 /\
              (l = loc_Exact -> Z.pos p mod 2 ^ (E - e) = 0 -> m1 = m0)).
  { unfold m1. rewrite Hm. fold m0.
    destruct (round_nearest_even_cases m0 (loc_of_shr_record mrs))
      as [->|[-> N]].
    - split; [lia|auto].
    - split; [lia|]. intros L M. now rewrite (Hl L M) in N. }
  exists m1. split; [|exact C].
  apply second_shr; [unfold E; rewrite fexp_eq; lia|lia].
Qed.

Lemma iter_xO (d p : positive) :
  Z.pos (Pos.iter xO p d) = Z.pos p * 2 ^ Z.pos d.
Proof.
  induction d as [|d IH] using Pos.peano_ind.
  - simpl. lia.
  - rewrite Pos.iter_succ, Pos2Z.inj_xO, IH, Pos2Z.inj_succ,
      Z.pow_succ_r by lia. ring.
Qed.

Lemma shl_align_spec (p : positive) (e e' : Z) :
  Z.pos (fst (shl_align p e e')) = Z.pos p * 2 ^ (e - Z.min e e') /\
  snd (shl_align p e e') = Z.min e e'.
Proof.
  unfold shl_align. destruct (e' - e) as [|k|k] eqn:K; cbn [fst snd].
  - replace (Z.min e e') with e by lia.
    rewrite Z.sub_diag, Z.pow_0_r, Z.mul_1_r. auto.
  - replace (Z.min e e') with e by lia.
    rewrite Z.sub_diag, Z.pow_0_r, Z.mul_1_r. auto.
  - replace (Z.min e e') with e' by lia. rewrite iter_xO.
    split; [|reflexivity]. f_equal. f_equal. lia.
Qed.

Lemma digits_shift (p q : positive) (k : Z) :
  0 <= k -> Z.pos q = Z.pos p * 2 ^ k ->
  Z.pos (digits2_pos q) = Z.pos (digits2_pos p) + k.
Proof.
  intros Hk Hq. apply digits_unique. rewrite Hq.
  pose proof (digits_bounds p) as [L U].
  set (d := Z.pos (digits2_pos p)) in *.
  assert (Hd : 0 < d) by (unfold d; lia).
  replace (d + k - 1) with ((d - 1) + k) by lia.
  rewrite !Z.pow_add_r by lia.
  assert (0 < 2 ^ k) by (apply Z.pow_pos_nonneg; lia).
  split; nia.
Qed.

Lemma binary_round_cases (s : bool) (p : positive) (e : Z) :
  let E := fexp prec emax (Z.pos (digits2_pos p) + e) in
  exists m1,
    binary_round prec emax s p e = rounded s m1 E /\
    (E <= e -> m1 = Z.pos p * 2 ^ (e - E)) /\
    (e <= E ->
     Z.pos p / 2 ^ (E - e) <= m1 <= Z.pos p / 2 ^ (E - e) + 1 /\
     (Z.pos p mod 2 ^ (E - e) = 0 -> m1 = Z.pos p / 2 ^ (E - e))).
Proof.
  intros E. unfold binary_round. fold E.
  pose proof (shl_align_spec p e E) as [Hm He].
  destruct (shl_align p e E) as [mz ez]. cbn [fst snd] in Hm, He.
  assert (D : Z.pos (digits2_pos mz) + ez = Z.pos (digits2_pos p) + e).
  { rewrite (digits_shift p mz (e - Z.min e E)); [lia|lia|exact Hm]. }
  assert (HE : ez <= fexp prec emax (Z.pos (digits2_pos mz) + ez))
    by (rewrite D; fold E; lia).
  destruct (binary_round_aux_cases s mz ez loc_Exact HE)
    as [m1 [Hr [Hb Hx]]].
  rewrite D in Hr, Hb, Hx. fold E in Hr, Hb, Hx.
  exists m1. split; [exact Hr|]. split.
  - intros C. replace (E - ez) with 0 in Hb, Hx by lia.
    rewrite Z.pow_0_r, Z.div_1_r in Hb, Hx.
    rewrite Hx; [|reflexivity|apply Z.mod_1_r].
    rewrite Hm. f_equal. f_equal. lia.
  - intros C. replace ez with e in * by lia.
    assert (Q : Z.pos mz = Z.pos p).
    { rewrite Hm. replace (e - Z.min e E) with 0 by lia.
      now rewrite Z.pow_0_r, Z.mul_1_r. }
    rewrite Q in Hb, Hx. split; [exact Hb|]. now apply Hx.
Qed.

Lemma canon_facts m e :
  canon m e ->
  -1074 <= e /\ Z.pos m < 2 ^ 53 /\ (-1074 < e -> 2 ^ 52 <= Z.pos m).
Proof.
  unfold canon. rewrite fexp_eq. intros H.
  pose proof (digits_bounds m) as [L U].
  set (d := Z.pos (digits2_pos m)) in *.
  assert (Hd : 0 < d) by (unfold d; lia).
  split; [lia|]. split.
  - assert (2 ^ d <= 2 ^ 53) by (apply Z.pow_le_mono_r; lia). lia.
  - intros N. assert (d = 53) by lia.
    replace (d - 1) with 52 in L by lia. exact L.
Qed.

Lemma pow2_pos k : 0 <= k -> 0 < 2 ^ k.
Proof. intros. apply Z.pow_pos_nonneg; lia. Qed.

Lemma pow2_split (a b : Z) : 0 <= a -> 0 <= b -> 2 ^ (a + b) = 2 ^ a * 2 ^ b.
Proof. intros. apply Z.pow_add_r; lia. Qed.

Lemma pow2_53 : 2 ^ 53 = 2 * 2 ^ 52.
Proof. reflexivity. Qed.

Lemma canon_lt_of_exp m1 e1 m2 e2 b :
  canon m1 e1 -> canon m2 e2 -> b <= e1 -> e1 < e2 ->
  Z.pos m1 * 2 ^ (e1 - b) < Z.pos m2 * 2 ^ (e2 - b).
Proof.
  intros C1 C2 B L.
  destruct (canon_facts _ _ C1) as [A1 [U1 _]].
  destruct (canon_facts _ _ C2) as [A2 [_ L2]].
  specialize (L2 ltac:(lia)).
  replace (e2 - b) with ((e2 - e1 - 1) + (1 + (e1 - b))) by lia.
  rewrite (pow2_split (e2 - e1 - 1)) by lia.
  rewrite (pow2_split 1) by lia.
  pose proof (pow2_pos (e1 - b) ltac:(lia)) as PA.
  pose proof (pow2_pos (e2 - e1 - 1) ltac:(lia)) as PB.
  rewrite pow2_53 in U1. rewrite Z.pow_1_r.
  generalize dependent (2 ^ 52). generalize dependent (2 ^ (e1 - b)).
  generalize dependent (2 ^ (e2 - e1 - 1)).
  intros B' PB A PA T U1 L2.
  assert (H1 : Z.pos m1 * A < 2 * T * A)
    by (apply Z.mul_lt_mono_pos_r; assumption).
  assert (H2 : 2 * T * A <= Z.pos m2 * (2 * A)).
  { replace (2 * T * A) with (T * (2 * A)) by ring.
    apply Z.mul_le_mono_nonneg_r; lia. }
  assert (H3 : Z.pos m2 * (2 * A) <= Z.pos m2 * (B' * (2 * A))).
  { apply Z.mul_le_mono_nonneg_l; [lia|].
    replace (2 * A) with (1 * (2 * A)) at 1 by ring.
    apply Z.mul_le_mono_nonneg_r; lia. }
  lia.
Qed.

Lemma compare_canon m1 e1 m2 e2 b :
  canon m1 e1 -> canon m2 e2 -> b <= e1 -> b <= e2 ->
  SFcompare (S754_finite false m1 e1) (S754_finite false m2 e2)
  = Some (Z.pos m1 * 2 ^ (e1 - b) ?= Z.pos m2 * 2 ^ (e2 - b)).
Proof.
  intros C1 C2 B1 B2. unfold SFcompare. f_equal.
  destruct (Z.compare_spec e1 e2) as [->|L|L].
  - rewrite <- Zmult_compare_compat_r
      by (apply Z.lt_gt, pow2_pos; lia).
    reflexivity.
  - symmetry. apply Z.compare_lt_iff. now apply canon_lt_of_exp.
  - symmetry. apply Z.compare_gt_iff. now apply canon_lt_of_exp.
Qed.

Lemma digits_le_53 (q : positive) :
  Z.pos q < 2 ^ 53 -> Z.pos (digits2_pos q) <= 53.
Proof.
  intros C. pose proof (digits_bounds q) as [DL DU].
  destruct (Z.le_gt_cases (Z.pos (digits2_pos q)) 53) as [G|G]; [exact G|].
  assert (2 ^ 53 <= 2 ^ (Z.pos (digits2_pos q) - 1))
    by (apply Z.pow_le_mono_r; lia).
  lia.
Qed.

Lemma wf_round_canon m1 E :
  wf_round m1 E -> 0 < m1 < 2 ^ 53 -> canon (Z.to_pos m1) E.
Proof.
  intros [HE [B N]] [P U]. unfold canon. rewrite fexp_eq.
  destruct m1 as [|q|q]; try lia. simpl Z.to_pos.
  pose proof (digits_le_53 q U).
  destruct (Z.eq_dec E (-1074)) as [->|D]; [lia|].
  assert (Z.pos (digits2_pos q) = 53)
    by (apply digits_unique; simpl (53 - 1); lia).
  lia.
Qed.

Lemma canon_2p52 E : -1074 <= E -> canon (Z.to_pos (2 ^ 52)) (E + 1).
Proof. intros H. unfold canon. rewrite fexp_eq. simpl digits2_pos. lia. Qed.

Lemma rounded_le_canon m1 E mf ef b :
  wf_round m1 E -> canon mf ef -> ef <= 971 -> b <= E -> b <= ef ->
  m1 * 2 ^ (E - b) <= Z.pos mf * 2 ^ (ef - b) ->
  SFleb (rounded false m1 E) (S754_finite false mf ef) = true.
Proof.
  intros W C F BE Bf V. pose proof W as [HE [B N]].
  destruct (canon_facts _ _ C) as [Af [Uf Lf]].
  unfold rounded.
  (* an exponent above that of [f] is impossible *)
  assert (X : forall m E', canon m E' -> b <= E' ->
                Z.pos m * 2 ^ (E' - b) <= Z.pos mf * 2 ^ (ef - b) ->
                E' <= ef).
  { intros m E' Cm BE' Vm.
    destruct (Z.le_gt_cases E' ef) as [G|G]; [exact G|].
    pose proof (canon_lt_of_exp mf ef m E' b C Cm Bf G). lia. }
  destruct (Z.eqb_spec m1 0) as [->|NZ]; [reflexivity|].
  destruct (Z.ltb_spec m1 (2 ^ 53)) as [U|U].
  - pose proof (wf_round_canon m1 E W ltac:(lia)) as Cm.
    assert (Q : Z.pos (Z.to_pos m1) = m1) by (apply Z2Pos.id; lia).
    assert (E <= ef) by (apply (X (Z.to_pos m1) E Cm BE); now rewrite Q).
    destruct (Z.leb_spec E 971); [|lia].
    unfold SFleb. rewrite (compare_canon _ _ _ _ b Cm C BE Bf), Q.
    destruct (Z.compare_spec (m1 * 2 ^ (E - b)) (Z.pos mf * 2 ^ (ef - b)));
      try reflexivity; lia.
  - assert (M : m1 = 2 ^ 53) by lia.
    pose proof (canon_2p52 E HE) as Cm.
    assert (V' : Z.pos (Z.to_pos (2 ^ 52)) * 2 ^ (E + 1 - b)
                 <= Z.pos mf * 2 ^ (ef - b)).
    { replace (E + 1 - b) with (1 + (E - b)) by lia.
      rewrite pow2_split by lia. rewrite M in V.
      change (Z.pos (Z.to_pos (2 ^ 52))) with (2 ^ 52).
      change (2 ^ 53) with (2 ^ 52 * 2 ^ 1) in V. lia. }
    assert (E + 1 <= ef) by (apply (X _ _ Cm); [lia|exact V']).
    destruct (Z.leb_spec (E + 1) 971); [|lia].
    unfold SFleb. rewrite (compare_canon _ _ _ _ b Cm C ltac:(lia) Bf).
    destruct (Z.compare_spec (Z.pos (Z.to_pos (2 ^ 52)) * 2 ^ (E + 1 - b))
                (Z.pos mf * 2 ^ (ef - b)));
      try reflexivity; lia.
Qed.

Lemma canon_le_rounded m1 E mf ef b :
  wf_round m1 E -> canon mf ef -> b <= E -> b <= ef ->
  Z.pos mf * 2 ^ (ef - b) <= m1 * 2 ^ (E - b) ->
  SFleb (S754_finite false mf ef) (rounded false m1 E) = true.
Proof.
  intros W C BE Bf V. pose proof W as [HE [B N]].
  unfold rounded.
  pose proof (pow2_pos (ef - b) ltac:(lia)).
  pose proof (pow2_pos (E - b) ltac:(lia)).
  destruct (Z.eqb_spec m1 0) as [->|NZ]; [lia|].
  destruct (Z.ltb_spec m1 (2 ^ 53)) as [U|U].
  - destruct (Z.leb_spec E 971); [|reflexivity].
    pose proof (wf_round_canon m1 E W ltac:(lia)) as Cm.
    assert (Q : Z.pos (Z.to_pos m1) = m1) by (apply Z2Pos.id; lia).
    unfold SFleb. rewrite (compare_canon _ _ _ _ b C Cm Bf BE), Q.
    destruct (Z.compare_spec (Z.pos mf * 2 ^ (ef - b)) (m1 * 2 ^ (E - b)));
      try reflexivity; lia.
  - destruct (Z.leb_spec (E + 1) 971); [|reflexivity].
    assert (M : m1 = 2 ^ 53) by lia.
    pose proof (canon_2p52 E HE) as Cm.
    unfold SFleb. rewrite (compare_canon _ _ _ _ b C Cm Bf ltac:(lia)).
    replace (E + 1 - b) with (1 + (E - b)) by lia.
    rewrite pow2_split by lia. rewrite M in V.
    change (Z.pos (Z.to_pos (2 ^ 52))) with (2 ^ 52).
    change (2 ^ 53) with (2 ^ 52 * 2 ^ 1) in V.
    destruct (Z.compare_spec (Z.pos mf * 2 ^ (ef - b))
                (2 ^ 52 * (2 ^ 1 * 2 ^ (E - b))));
      try reflexivity; lia.
Qed.

Lemma binary_round_wf (s : bool) (p : positive) (e : Z) :
  let E := fexp prec emax (Z.pos (digits2_pos p) + e) in
  exists m1,
    binary_round prec emax s p e = rounded s m1 E /\
    wf_round m1 E /\
    (E <= e -> m1 = Z.pos p * 2 ^ (e - E)) /\
    (e <= E ->
     Z.pos p / 2 ^ (E - e) <= m1 <= Z.pos p / 2 ^ (E - e) + 1 /\
     (Z.pos p mod 2 ^ (E - e) = 0 -> m1 = Z.pos p / 2 ^ (E - e))).
Proof.
  intros E. destruct (binary_round_cases s p e) as [m1 [Hr [Hx Hi]]].
  fold E in Hr, Hx, Hi. exists m1. split; [exact Hr|].
  split; [|split; assumption].
  pose proof (digits_bounds p) as [DL DU].
  assert (HE : E = Z.max (Z.pos (digits2_pos p) + e - 53) (-1074))
    by (unfold E; now rewrite fexp_eq).
  set (d := Z.pos (digits2_pos p)) in *.
  assert (Hd : 0 < d) by (unfold d; lia).
  unfold wf_round. split; [lia|].
  destruct (Z.le_gt_cases E e) as [C|C].
  - rewrite (Hx C). pose proof (pow2_pos (e - E) ltac:(lia)) as PP.
    split.
    + split; [lia|].
      assert (Z.pos p * 2 ^ (e - E) < 2 ^ d * 2 ^ (e - E))
        by (apply Z.mul_lt_mono_pos_r; lia).
      rewrite <- pow2_split in H by lia.
      assert (2 ^ (d + (e - E)) <= 2 ^ 53)
        by (apply Z.pow_le_mono_r; lia).
      lia.
    + intros N. assert (e - E = 53 - d) by lia.
      assert (2 ^ (d - 1) * 2 ^ (e - E) <= Z.pos p * 2 ^ (e - E))
        by (apply Z.mul_le_mono_nonneg_r; lia).
      rewrite <- pow2_split in H0 by lia.
      replace (d - 1 + (e - E)) with 52 in H0 by lia. exact H0.
  - destruct (Hi ltac:(lia)) as [Hb _].
    pose proof (floor_shift_lt p e E ltac:(lia) ltac:(fold d; lia)) as F.
    split; [lia|].
    intros N. assert (K : E - e = d - 53) by lia.
    assert (2 ^ 52 <= Z.pos p / 2 ^ (E - e)); [|lia].
    apply Z.div_le_lower_bound; [apply pow2_pos; lia|].
    rewrite Z.mul_comm, <- pow2_split by lia.
    replace (52 + (E - e)) with (d - 1) by lia. exact DL.
Qed.

(** Rounding never crosses a representable number. *)
Lemma binary_round_le_canon (p mf : positive) (e ef : Z) :
  canon mf ef -> ef <= 971 -> e <= ef ->
  Z.pos p <= Z.pos mf * 2 ^ (ef - e) ->
  SFleb (binary_round prec emax false p e) (S754_finite false mf ef) = true.
Proof.
  intros C F B V.
  destruct (binary_round_wf false p e) as [m1 [-> [W [Hx Hi]]]].
  set (E := fexp prec emax (Z.pos (digits2_pos p) + e)) in *.
  destruct (canon_facts _ _ C) as [Af [Uf Lf]].
  destruct (Z.le_gt_cases E e) as [D|D].
  - apply (rounded_le_canon m1 E mf ef E W C F); try lia.
    rewrite (Hx D), Z.sub_diag, Z.pow_0_r, Z.mul_1_r.
    replace (ef - E) with ((ef - e) + (e - E)) by lia.
    rewrite pow2_split, Z.mul_assoc by lia.
    apply Z.mul_le_mono_nonneg_r; [apply Z.lt_le_incl, pow2_pos; lia|exact V].
  - destruct (Hi ltac:(lia)) as [[L U] X].
    pose proof (pow2_pos (E - e) ltac:(lia)) as PK.
    pose proof (Z.mul_div_le (Z.pos p) (2 ^ (E - e)) PK) as FL.
    apply (rounded_le_canon m1 E mf ef e W C F); try lia.
    destruct (Z.eq_dec m1 (Z.pos p / 2 ^ (E - e))) as [->|NE].
    { rewrite Z.mul_comm. lia. }
    assert (M1 : m1 = Z.pos p / 2 ^ (E - e) + 1) by lia.
    assert (NM : Z.pos p mod 2 ^ (E - e) <> 0) by (intros Q; now apply NE, X).
    assert (ST : 2 ^ (E - e) * (Z.pos p / 2 ^ (E - e)) < Z.pos p).
    { pose proof (Z.div_mod (Z.pos p) (2 ^ (E - e)) ltac:(lia)).
      pose proof (Z.mod_pos_bound (Z.pos p) (2 ^ (E - e)) PK). lia. }
    set (m0 := Z.pos p / 2 ^ (E - e)) in *.
    destruct (Z.le_gt_cases E ef) as [G|G].
    + (* [f] lies on the grid of step [2 ^ (E - e)] *)
      replace (ef - e) with ((ef - E) + (E - e)) in V |- * by lia.
      rewrite pow2_split, Z.mul_assoc in V |- * by lia.
      set (c := Z.pos mf * 2 ^ (ef - E)) in *.
      rewrite M1.
      apply Z.mul_le_mono_nonneg_r; [lia|].
      assert (m0 < c); [|lia].
      apply Z.mul_lt_mono_pos_l with (2 ^ (E - e)); [exact PK|].
      rewrite (Z.mul_comm _ c). lia.
    + (* [f] is below the binade of the rounded value *)
      destruct W as [HE [Bm Nm]]. specialize (Nm ltac:(lia)).
      exfalso.
      assert (Z.pos mf * 2 ^ (ef - e) < 2 ^ 53 * 2 ^ (ef - e))
        by (apply Z.mul_lt_mono_pos_r; [apply pow2_pos; lia|exact Uf]).
      assert (2 ^ 53 * 2 ^ (ef - e) <= 2 ^ 52 * 2 ^ (E - e)).
      { rewrite <- !pow2_split by lia. apply Z.pow_le_mono_r; lia. }
      assert (2 ^ 52 <= m0).
      { pose proof (digits_bounds p) as [DL DU].
        assert (HEm : E = Z.max (Z.pos (digits2_pos p) + e - 53) (-1074))
          by (unfold E; now rewrite fexp_eq).
        assert (HEq : E = Z.pos (digits2_pos p) + e - 53) by lia.
        unfold m0. apply Z.div_le_lower_bound; [exact PK|].
        rewrite Z.mul_comm, <- pow2_split by lia.
        replace (52 + (E - e)) with (Z.pos (digits2_pos p) - 1) by lia.
        exact DL. }
      assert (2 ^ 52 * 2 ^ (E - e) <= 2 ^ (E - e) * m0).
      { rewrite (Z.mul_comm (2 ^ (E - e))).
        apply Z.mul_le_mono_nonneg_r; lia. }
      lia.
Qed.

Lemma canon_le_binary_round (p mf : positive) (e ef : Z) :
  canon mf ef -> e <= ef ->
  Z.pos mf * 2 ^ (ef - e) <= Z.pos p ->
  SFleb (S754_finite false mf ef) (binary_round prec emax false p e) = true.
Proof.
  intros C B V.
  destruct (binary_round_wf false p e) as [m1 [-> [W [Hx Hi]]]].
  set (E := fexp prec emax (Z.pos (digits2_pos p) + e)) in *.
  destruct (canon_facts _ _ C) as [Af [Uf Lf]].
  destruct (Z.le_gt_cases E e) as [D|D].
  - apply (canon_le_rounded m1 E mf ef E W C); try lia.
    rewrite (Hx D), Z.sub_diag, Z.pow_0_r, Z.mul_1_r.
    replace (ef - E) with ((ef - e) + (e - E)) by lia.
    rewrite pow2_split, Z.mul_assoc by lia.
    apply Z.mul_le_mono_nonneg_r; [apply Z.lt_le_incl, pow2_pos; lia|exact V].
  - destruct (Hi ltac:(lia)) as [[L U] X].
    pose proof (pow2_pos (E - e) ltac:(lia)) as PK.
    apply (canon_le_rounded m1 E mf ef e W C); try lia.
    set (m0 := Z.pos p / 2 ^ (E - e)) in *.
    assert (S0 : Z.pos mf * 2 ^ (ef - e) <= m0 * 2 ^ (E - e));
      [|assert (m0 * 2 ^ (E - e) <= m1 * 2 ^ (E - e))
          by (apply Z.mul_le_mono_nonneg_r; lia); lia].
    destruct (Z.le_gt_cases E ef) as [G|G].
    + replace (ef - e) with ((ef - E) + (E - e)) in V |- * by lia.
      rewrite pow2_split, Z.mul_assoc in V |- * by lia.
      apply Z.mul_le_mono_nonneg_r; [lia|].
      unfold m0. apply Z.div_le_lower_bound; [exact PK|].
      rewrite Z.mul_comm. exact V.
    + assert (Z.pos mf * 2 ^ (ef - e) < 2 ^ 53 * 2 ^ (ef - e))
        by (apply Z.mul_lt_mono_pos_r; [apply pow2_pos; lia|exact Uf]).
      assert (2 ^ 53 * 2 ^ (ef - e) <= 2 ^ 52 * 2 ^ (E - e)).
      { rewrite <- !pow2_split by lia. apply Z.pow_le_mono_r; lia. }
      assert (2 ^ 52 <= m0).
      { pose proof (digits_bounds p) as [DL DU].
        assert (HEm : E = Z.max (Z.pos (digits2_pos p) + e - 53) (-1074))
          by (unfold E; now rewrite fexp_eq).
        assert (HEq : E = Z.pos (digits2_pos p) + e - 53) by lia.
        unfold m0. apply Z.div_le_lower_bound; [exact PK|].
        rewrite Z.mul_comm, <- pow2_split by lia.
        replace (52 + (E - e)) with (Z.pos (digits2_pos p) - 1) by lia.
        exact DL. }
      assert (2 ^ 52 * 2 ^ (E - e) <= m0 * 2 ^ (E - e))
        by (apply Z.mul_le_mono_nonneg_r; lia).
      lia.
Qed.

Lemma SFleb_opp a b :
  SFleb a b = true -> SFleb (SFopp b) (SFopp a) = true.
Proof.
  unfold SFleb, SFcompare.
  destruct a as [sa|sa| |sa ma ea], b as [sb|sb| |sb mb eb]; simpl;
    repeat match goal with
    | |- context [Pos.compare_cont Eq ?a ?b] =>
        change (Pos.compare_cont Eq a b) with (Pos.compare a b)
    end;
    sf_cases.
Qed.

Lemma SFleb_refl a : a <> S754_nan -> SFleb a a = true.
Proof.
  unfold SFleb, SFcompare. destruct a as [s|s| |s m e]; try congruence;
    intros _; try (now destruct s).
  rewrite Z.compare_refl, Pos.compare_cont_refl. now destruct s.
Qed.

Lemma valid_canon s m e :
  valid_binary (S754_finite s m e) = true ->
  canon m e /\ e <= 971.
Proof.
  simpl. unfold bounded, canonical_mantissa. intros H.
  apply andb_prop in H. destruct H as [H1 H2].
  apply Z.eqb_eq in H1. apply Z.leb_le in H2. split; [exact H1|exact H2].
Qed.

(** The sign of a rounded value is the one given. *)
Lemma rounded_neg_le_pos m1 E mf ef :
  SFleb (rounded true m1 E) (S754_finite false mf ef) = true.
Proof.
  unfold rounded.
  destruct (m1 =? 0); [reflexivity|].
  destruct (m1 <? 2 ^ 53);
    match goal with |- context [if ?c then _ else _] => destruct c end;
    reflexivity.
Qed.

Lemma neg_le_rounded_pos m1 E mf ef :
  SFleb (S754_finite true mf ef) (rounded false m1 E) = true.
Proof.
  unfold rounded.
  destruct (m1 =? 0); [reflexivity|].
  destruct (m1 <? 2 ^ 53);
    match goal with |- context [if ?c then _ else _] => destruct c end;
    reflexivity.
Qed.

Lemma binary_round_neg_le_pos p e mf ef :
  SFleb (binary_round prec emax true p e) (S754_finite false mf ef) = true.
Proof.
  destruct (binary_round_wf true p e) as [m1 [-> _]].
  apply rounded_neg_le_pos.
Qed.

Lemma neg_le_binary_round_pos p e mf ef :
  SFleb (S754_finite true mf ef) (binary_round prec emax false p e) = true.
Proof.
  destruct (binary_round_wf false p e) as [m1 [-> _]].
  apply neg_le_rounded_pos.
Qed.

Lemma shl_align_min_l (mx : positive) (ex ey : Z) :
  Z.pos (fst (shl_align mx ex (Z.min ex ey)))
  = Z.pos mx * 2 ^ (ex - Z.min ex ey).
Proof.
  destruct (shl_align_spec mx ex (Z.min ex ey)) as [H _].
  rewrite H. f_equal. f_equal. lia.
Qed.

Lemma shl_align_min_r (my : positive) (ex ey : Z) :
  Z.pos (fst (shl_align my ey (Z.min ex ey)))
  = Z.pos my * 2 ^ (ey - Z.min ex ey).
Proof.
  destruct (shl_align_spec my ey (Z.min ex ey)) as [H _].
  rewrite H. f_equal. f_equal. lia.
Qed.

(** Subtracting a non-negative number never rounds above the minuend. *)
Lemma SFsub_le (x m : spec_float) :
  valid_binary x = true ->
  SFleb (S754_zero false) m = true ->
  SF64sub x m <> S754_nan ->
  SFleb (SF64sub x m) x = true.
Proof.
  intros Vx Hm Hn. unfold SF64sub, SFsub in *.
  destruct x as [sx|sx| |sx mx ex], m as [sy|sy| |sy my ey];
    try discriminate; try congruence;
    try (destruct sx, sy; try discriminate; try congruence; reflexivity).
  - (* finite - zero *)
    apply SFleb_refl. discriminate.
  - (* finite - finite *)
    destruct sy; [discriminate|].
    destruct (valid_canon _ _ _ Vx) as [Cx Bx].
    set (ez := Z.min ex ey) in *.
    pose proof (shl_align_min_l mx ex ey) as Ax.
    pose proof (shl_align_min_r my ey ex) as Ay.
    rewrite (Z.min_comm ey ex) in Ay. fold ez in Ax, Ay.
    set (X := fst (shl_align mx ex ez)) in *.
    set (Y := fst (shl_align my ey ez)) in *.
    destruct sx; simpl cond_Zopp.
    + (* negative minuend: the magnitude grows *)
      replace (- Z.pos X - Z.pos Y) with (Z.neg (X + Y)) by lia.
      simpl binary_normalize.
      change true with (negb false) at 1.
      rewrite <- SFopp_binary_round.
      change (S754_finite true mx ex) with (SFopp (S754_finite false mx ex)).
      apply SFleb_opp.
      apply canon_le_binary_round; [exact Cx|unfold ez; lia|].
      rewrite <- Ax. lia.
    + destruct (Z.pos X - Z.pos Y) as [|q|q] eqn:D; simpl binary_normalize.
      * reflexivity.
      * apply binary_round_le_canon; [exact Cx|exact Bx|unfold ez; lia|].
        rewrite <- Ax. lia.
      * apply binary_round_neg_le_pos.
Qed.

(** Adding a non-negative number never rounds below the first operand. *)
Lemma SFadd_ge (x m : spec_float) :
  valid_binary x = true ->
  SFleb (S754_zero false) m = true ->
  SF64add x m <> S754_nan ->
  SFleb x (SF64add x m) = true.
Proof.
  intros Vx Hm Hn. unfold SF64add, SFadd in *.
  destruct x as [sx|sx| |sx mx ex], m as [sy|sy| |sy my ey];
    try discriminate; try congruence;
    try (destruct sx, sy; try discriminate; try congruence; reflexivity).
  - (* finite + zero *)
    apply SFleb_refl. discriminate.
  - (* finite + finite *)
    destruct sy; [discriminate|].
    destruct (valid_canon _ _ _ Vx) as [Cx Bx].
    set (ez := Z.min ex ey) in *.
    pose proof (shl_align_min_l mx ex ey) as Ax.
    pose proof (shl_align_min_r my ey ex) as Ay.
    rewrite (Z.min_comm ey ex) in Ay. fold ez in Ax, Ay.
    set (X := fst (shl_align mx ex ez)) in *.
    set (Y := fst (shl_align my ey ez)) in *.
    destruct sx; unfold cond_Zopp.
    + destruct (- Z.pos X + Z.pos Y) as [|q|q] eqn:D; simpl binary_normalize.
      * reflexivity.
      * apply neg_le_binary_round_pos.
      * change true with (negb false) at 2.
        rewrite <- SFopp_binary_round.
        change (S754_finite true mx ex) with (SFopp (S754_finite false mx ex)).
        apply SFleb_opp.
        apply binary_round_le_canon; [exact Cx|exact Bx|unfold ez; lia|].
        rewrite <- Ax. lia.
    + replace (Z.pos X + Z.pos Y) with (Z.pos (X + Y)) by lia.
      simpl binary_normalize.
      apply canon_le_binary_round; [exact Cx|unfold ez; lia|].
      rewrite <- Ax. lia.
Qed.

Lemma binary_round_aux_nonneg m e l :
  sf_nonneg (binary_round_aux prec emax false m e l).
Proof.
  unfold binary_round_aux.
  destruct (shr_fexp prec emax m e l) as [mrs' e'].
  destruct (shr_fexp prec emax _ e' loc_Exact) as [mrs'' e''].
  destruct (shr_m mrs''); [right; reflexivity| |left; reflexivity].
  destruct (Z.leb e'' _); right; reflexivity.
Qed.

Lemma SFsqrt_nonneg x : sf_nonneg (SF64sqrt x).
Proof.
  unfold SF64sqrt, SFsqrt.
  destruct x as [s|[]| |[] m e]; try (left; reflexivity);
    try (right; reflexivity).
  destruct (SFsqrt_core_binary prec emax (Z.pos m) e) as [[mz ez] lz].
  apply binary_round_aux_nonneg.
Qed.

Lemma sf_nonneg_cases r :
  sf_nonneg r ->
  r = S754_nan \/ (exists s, r = S754_zero s) \/ r = S754_infinity false \/
  exists m e, r = S754_finite false m e.
Proof.
  intros [->|H]; [now left|].
  destruct r as [s|[]| |[] m e]; try discriminate; eauto 6.
Qed.

Lemma SFdiv_nonneg a b :
  sf_nonneg a -> sf_nonneg b -> (forall s, b <> S754_zero s) ->
  sf_nonneg (SF64div a b).
Proof.
  intros Ha Hb Hz.
  destruct (sf_nonneg_cases a Ha) as [->|[[sa ->]|[->|[ma [ea ->]]]]];
    destruct (sf_nonneg_cases b Hb) as [->|[[sb ->]|[->|[mb [eb ->]]]]];
    try (now destruct (Hz sb));
    unfold SF64div, SFdiv; try (left; reflexivity);
    try (right; reflexivity).
  all: try solve [right; repeat match goal with
                         | s : bool |- _ => destruct s
                         end; reflexivity].
  match goal with
  | |- context [SFdiv_core_binary ?a ?b ?c ?d ?e ?f] =>
      destruct (SFdiv_core_binary a b c d e f) as [[mz ez] lz]
  end.
  apply binary_round_aux_nonneg.
Qed.


Lemma SFmul_nonneg a b : sf_nonneg a -> sf_nonneg b -> sf_nonneg (SF64mul a b).
Proof.
  intros Ha Hb.
  destruct (sf_nonneg_cases a Ha) as [->|[[sa ->]|[->|[ma [ea ->]]]]];
    destruct (sf_nonneg_cases b Hb) as [->|[[sb ->]|[->|[mb [eb ->]]]]];
    unfold SF64mul, SFmul; try (left; reflexivity);
    try (right; reflexivity).
  all: try solve [right; repeat match goal with
                         | s : bool |- _ => destruct s
                         end; reflexivity].
  apply binary_round_aux_nonneg.
Qed.

Lemma rounded_pos_mag (m1 E k : Z) :
  wf_round m1 E -> 0 < m1 ->
  (m1 < 2 ^ 53 -> k <= Z.pos (digits2_pos (Z.to_pos m1)) + E) ->
  (m1 = 2 ^ 53 -> k <= 54 + E) ->
  sf_pos_mag (rounded false m1 E) k.
Proof.
  intros W P K1 K2. pose proof W as [HE [B N]]. unfold rounded.
  destruct (Z.eqb_spec m1 0) as [->|NZ]; [lia|].
  destruct (Z.ltb_spec m1 (2 ^ 53)) as [U|U].
  - destruct (Z.leb_spec E 971); [|now left].
    right. exists (Z.to_pos m1), E. split; [reflexivity|].
    split; [now apply wf_round_canon|auto].
  - destruct (Z.leb_spec (E + 1) 971); [|now left].
    right. exists (Z.to_pos (2 ^ 52)), (E + 1). split; [reflexivity|].
    split; [now apply canon_2p52|].
    assert (m1 = 2 ^ 53) by lia. specialize (K2 H0).
    change (Z.pos (digits2_pos (Z.to_pos (2 ^ 52)))) with 53. lia.
Qed.

Lemma binary_round_mag (p : positive) (e : Z) :
  -1074 <= e ->
  sf_pos_mag (binary_round prec emax false p e)
             (Z.pos (digits2_pos p) + e).
Proof.
  intros He.
  destruct (binary_round_wf false p e) as [m1 [-> [W [Hx Hi]]]].
  set (E := fexp prec emax (Z.pos (digits2_pos p) + e)) in *.
  assert (HE : E = Z.max (Z.pos (digits2_pos p) + e - 53) (-1074))
    by (unfold E; now rewrite fexp_eq).
  pose proof W as [WE [WB WN]].
  destruct (Z.le_gt_cases E e) as [C|C].
  - assert (Q : Z.pos (Z.to_pos m1) = Z.pos p * 2 ^ (e - E)).
    { rewrite Z2Pos.id; [now apply Hx|].
      rewrite (Hx C). apply Z.mul_pos_pos; [lia|apply pow2_pos; lia]. }
    assert (D := digits_shift p (Z.to_pos m1) (e - E) ltac:(lia) Q).
    apply rounded_pos_mag; try assumption.
    + rewrite (Hx C). apply Z.mul_pos_pos; [lia|apply pow2_pos; lia].
    + intros _. lia.
    + intros M. pose proof (digits_bounds p) as [_ DU].
      exfalso. rewrite (Hx C) in M.
      assert (Z.pos p * 2 ^ (e - E) < 2 ^ Z.pos (digits2_pos p) * 2 ^ (e - E))
        by (apply Z.mul_lt_mono_pos_r; [apply pow2_pos; lia|lia]).
      rewrite <- pow2_split in H by lia.
      assert (2 ^ (Z.pos (digits2_pos p) + (e - E)) <= 2 ^ 53)
        by (apply Z.pow_le_mono_r; lia).
      lia.
  - specialize (WN ltac:(lia)).
    assert (P52 : 0 < 2 ^ 52) by (apply pow2_pos; lia).
    apply rounded_pos_mag; try assumption; try lia.
    intros U.
    assert (Z.pos (digits2_pos (Z.to_pos m1)) = 53).
    { apply digits_unique. rewrite Z2Pos.id by lia.
      replace (53 - 1) with 52 by lia. lia. }
    lia.
Qed.

Lemma digits_gt (p : positive) (k : Z) :
  0 <= k -> 2 ^ k <= Z.pos p -> k + 1 <= Z.pos (digits2_pos p).
Proof.
  intros Hk H. pose proof (digits_bounds p) as [_ U].
  destruct (Z.le_gt_cases (k + 1) (Z.pos (digits2_pos p))) as [G|G];
    [exact G|].
  assert (2 ^ Z.pos (digits2_pos p) <= 2 ^ k)
    by (apply Z.pow_le_mono_r; lia).
  lia.
Qed.

Lemma floor_shift_ge (p : positive) (k : Z) :
  0 <= k -> k = Z.pos (digits2_pos p) - 53 ->
  2 ^ 52 <= Z.pos p / 2 ^ k.
Proof.
  intros Hk K. pose proof (digits_bounds p) as [DL _].
  apply Z.div_le_lower_bound; [apply pow2_pos; lia|].
  rewrite Z.mul_comm, <- pow2_split by lia.
  replace (52 + k) with (Z.pos (digits2_pos p) - 1) by lia. exact DL.
Qed.

(** A mantissa of at least 53 digits, well above the subnormal range,
    rounds to a normal positive number of the same magnitude. *)
Lemma binary_round_aux_big (p : positive) (e : Z) (l : location) :
  53 <= Z.pos (digits2_pos p) -> -1021 <= Z.pos (digits2_pos p) + e ->
  sf_pos_mag (binary_round_aux prec emax false (Z.pos p) e l)
             (Z.pos (digits2_pos p) + e).
Proof.
  intros D M.
  set (E := fexp prec emax (Z.pos (digits2_pos p) + e)).
  assert (HE : E = Z.pos (digits2_pos p) + e - 53)
    by (unfold E; rewrite fexp_eq; lia).
  destruct (binary_round_aux_cases false p e l ltac:(fold E; lia))
    as [m1 [-> [[L U] _]]].
  fold E in L, U |- *.
  pose proof (floor_shift_ge p (E - e) ltac:(lia) ltac:(lia)) as G.
  pose proof (floor_shift_lt p e E ltac:(lia) ltac:(lia)) as [_ F].
  assert (P52 : 0 < 2 ^ 52) by (apply pow2_pos; lia).
  assert (W : wf_round m1 E) by (unfold wf_round; lia).
  apply rounded_pos_mag; try assumption; try lia.
  intros Um.
  assert (Z.pos (digits2_pos (Z.to_pos m1)) = 53).
  { apply digits_unique. rewrite Z2Pos.id by lia.
    replace (53 - 1) with 52 by lia. lia. }
  lia.
Qed.

Lemma sf_pos_mag_pos x k :
  sf_pos_mag x k -> SFltb (S754_zero false) x = true.
Proof. intros [->|[m [e [-> _]]]]; reflexivity. Qed.

(** Dividing by a positive number of no greater exponent cannot underflow. *)
Lemma SFdiv_pos_mag (x : spec_float) (mb : positive) (eb : Z) :
  canon mb eb -> sf_pos_mag x eb ->
  sf_pos_mag (SF64div x (S754_finite false mb eb)) (-53).
Proof.
  intros Cb [->|[mx [ex [-> [Cx K]]]]]; [now left|].
  unfold SF64div, SFdiv, SFdiv_core_binary. simpl Zdigits2. simpl xorb.
  destruct (canon_facts _ _ Cb) as [Ab [Ub _]].
  destruct (canon_facts _ _ Cx) as [Ax [Ux _]].
  pose proof (digits_le_53 mb Ub) as Db. pose proof (digits_le_53 mx Ux) as Dx.
  pose proof (digits_bounds mb) as [LB UB].
  pose proof (digits_bounds mx) as [LX UX].
  set (dx := Z.pos (digits2_pos mx)) in *.
  set (db := Z.pos (digits2_pos mb)) in *.
  assert (Hdx : 0 < dx) by (unfold dx; lia).
  assert (Hdb : 0 < db) by (unfold db; lia).
  rewrite fexp_eq.
  replace (Z.min (Z.max (dx + ex - (db + eb) - 53) (-1074)) (ex - eb))
    with (dx + ex - (db + eb) - 53) by lia.
  set (e' := dx + ex - (db + eb) - 53).
  replace (ex - eb - e') with (53 - dx + db) by (unfold e'; lia).
  destruct (53 - dx + db) as [|s|s] eqn:S; try lia.
  rewrite Z.shiftl_mul_pow2 by lia.
  assert (PS : 0 < 2 ^ Z.pos s) by (apply pow2_pos; lia).
  assert (HM : 2 ^ 52 * Z.pos mb <= Z.pos mx * 2 ^ Z.pos s).
  { assert (2 ^ 52 * Z.pos mb <= 2 ^ 52 * 2 ^ db)
      by (apply Z.mul_le_mono_nonneg_l; lia).
    assert (2 ^ (dx - 1) * 2 ^ Z.pos s <= Z.pos mx * 2 ^ Z.pos s)
      by (apply Z.mul_le_mono_nonneg_r; lia).
    rewrite <- pow2_split in H, H0 by lia.
    replace (dx - 1 + Z.pos s) with (52 + db) in H0 by lia. lia. }
  pose proof (Z.div_eucl_eq (Z.pos mx * 2 ^ Z.pos s) (Z.pos mb) ltac:(lia))
    as EQ.
  pose proof (Z.mod_pos_bound (Z.pos mx * 2 ^ Z.pos s) (Z.pos mb) ltac:(lia))
    as MB.
  unfold Z.modulo in MB.
  destruct (Z.div_eucl (Z.pos mx * 2 ^ Z.pos s) (Z.pos mb)) as [q r] eqn:DE.
  assert (Q : 2 ^ 52 <= q).
  { assert (q = Z.pos mx * 2 ^ Z.pos s / Z.pos mb)
      by (unfold Z.div; now rewrite DE).
    subst q. apply Z.div_le_lower_bound; lia. }
  assert (P52 : 0 < 2 ^ 52) by (apply pow2_pos; lia).
  destruct q as [|qp|qp]; try lia.
  pose proof (digits_gt qp 52 ltac:(lia) Q) as DQ.
  pose proof (binary_round_aux_big qp e' (new_location (Z.pos mb) r)
                ltac:(lia) ltac:(unfold e'; lia)) as R.
  destruct R as [R|[m [e [R [C Kq]]]]]; [now left|right].
  exists m, e. split; [exact R|]. split; [exact C|]. unfold e' in Kq. lia.
Qed.


Lemma Prim2SF_100 :
  Prim2SF 100%float = S754_finite false 7036874417766400 (-46).
Proof. reflexivity. Qed.

Lemma SFmul_100_pos (x : spec_float) :
  sf_pos_mag x (-53) ->
  SFltb (S754_zero false) (SF64mul x (Prim2SF 100%float)) = true.
Proof.
  rewrite Prim2SF_100.
  intros [->|[m [e [-> [C K]]]]]; [reflexivity|].
  unfold SF64mul, SFmul. simpl xorb.
  destruct (canon_facts _ _ C) as [A [U L]].
  pose proof (digits_le_53 m U) as D.
  specialize (L ltac:(lia)).
  assert (P52 : 0 < 2 ^ 52) by (apply pow2_pos; lia).
  assert (H100 : 2 ^ 52 <= Z.pos 7036874417766400)
    by (vm_compute; discriminate).
  assert (G : 2 ^ 104 <= Z.pos (m * 7036874417766400)).
  { rewrite Pos2Z.inj_mul. change (2 ^ 104) with (2 ^ 52 * 2 ^ 52).
    apply Z.mul_le_mono_nonneg; lia. }
  pose proof (digits_gt _ 104 ltac:(lia) G) as DG.
  apply (sf_pos_mag_pos _
           (Z.pos (digits2_pos (m * 7036874417766400)) + (e + -46))).
  apply binary_round_aux_big; lia.
Qed.

Lemma SFltb_canon_val m1 e1 m2 e2 b :
  canon m1 e1 -> canon m2 e2 -> b <= e1 -> b <= e2 ->
  SFltb (S754_finite false m1 e1) (S754_finite false m2 e2)
  = (Z.pos m1 * 2 ^ (e1 - b) <? Z.pos m2 * 2 ^ (e2 - b)).
Proof.
  intros C1 C2 B1 B2. unfold SFltb, Z.ltb.
  now rewrite (compare_canon _ _ _ _ b C1 C2 B1 B2).
Qed.

Lemma SFltb_canon_exp m1 e1 m2 e2 :
  SFltb (S754_finite false m1 e1) (S754_finite false m2 e2) = true ->
  e1 <= e2.
Proof.
  unfold SFltb, SFcompare.
  destruct (Z.compare_spec e1 e2); try lia; discriminate.
Qed.

(** [b - c] for [c < b] and [b] positive: positive, and at least
    [2 ^ (eb - 1)]. *)
Lemma SFsub_lt_pos_mag (c : spec_float) (mb : positive) (eb : Z) :
  valid_binary (S754_finite false mb eb) = true -> valid_binary c = true ->
  SFltb c (S754_finite false mb eb) = true ->
  sf_pos_mag (SF64sub (S754_finite false mb eb) c) eb.
Proof.
  intros Vb Vc H. destruct (valid_canon _ _ _ Vb) as [Cb Bb].
  destruct (canon_facts _ _ Cb) as [Ab [Ub Lb]].
  pose proof (digits_bounds mb) as [DLb DUb].
  unfold SF64sub, SFsub.
  destruct c as [s|[]| |[] mc ec]; try discriminate.
  - (* zero *)
    right. exists mb, eb. split; [reflexivity|split; [exact Cb|lia]].
  - (* minus infinity *)
    now left.
  - (* negative *)
    destruct (valid_canon _ _ _ Vc) as [Cc Bc].
    destruct (canon_facts _ _ Cc) as [Ac _].
    set (ez := Z.min eb ec).
    pose proof (shl_align_min_l mb eb ec) as Ax. fold ez in Ax.
    set (X := fst (shl_align mb eb ez)) in *.
    set (Y := fst (shl_align mc ec ez)) in *.
    unfold cond_Zopp.
    replace (Z.pos X - - Z.pos Y) with (Z.pos (X + Y)) by lia.
    simpl binary_normalize.
    pose proof (binary_round_mag (X + Y) ez ltac:(unfold ez; lia)) as R.
    assert (eb - ez + 1 <= Z.pos (digits2_pos (X + Y))).
    { apply digits_gt; [unfold ez; lia|].
      assert (1 * 2 ^ (eb - ez) <= Z.pos mb * 2 ^ (eb - ez))
        by (apply Z.mul_le_mono_nonneg_r;
            [apply Z.lt_le_incl, pow2_pos; unfold ez; lia|lia]).
      lia. }
    destruct R as [R|[m [e [R [C K]]]]]; [now left|right].
    exists m, e. split; [exact R|split; [exact C|lia]].
  - (* positive, smaller *)
    destruct (valid_canon _ _ _ Vc) as [Cc Bc].
    destruct (canon_facts _ _ Cc) as [Ac [Uc _]].
    set (ez := Z.min eb ec).
    pose proof (shl_align_min_l mb eb ec) as Ax. fold ez in Ax.
    pose proof (shl_align_min_r mc eb ec) as Ay. fold ez in Ay.
    rewrite (SFltb_canon_val _ _ _ _ ez Cc Cb) in H by (unfold ez; lia).
    apply Z.ltb_lt in H.
    set (X := fst (shl_align mb eb ez)) in *.
    set (Y := fst (shl_align mc ec ez)) in *.
    unfold cond_Zopp.
    destruct (Z.pos X - Z.pos Y) as [|q|q] eqn:V; try lia.
    simpl binary_normalize.
    pose proof (binary_round_mag q ez ltac:(unfold ez; lia)) as R.
    assert (eb <= Z.pos (digits2_pos q) + ez).
    { destruct (Z.le_gt_cases (eb - 1) ec) as [G|G].
      - assert (0 < Z.pos (digits2_pos q)) by lia. unfold ez. lia.
      - (* the subtrahend is below half a unit of the minuend *)
        assert (EZ : ez = ec) by (unfold ez; lia).
        specialize (Lb ltac:(lia)).
        assert (2 ^ (51 + (eb - ec)) <= Z.pos q); [|
          pose proof (digits_gt q (51 + (eb - ec)) ltac:(lia) H0); lia].
        rewrite <- V, Ax, Ay, EZ, Z.sub_diag, Z.pow_0_r, Z.mul_1_r.
        assert (2 ^ 52 * 2 ^ (eb - ec) <= Z.pos mb * 2 ^ (eb - ec))
          by (apply Z.mul_le_mono_nonneg_r;
              [apply Z.lt_le_incl, pow2_pos; lia|lia]).
        assert (2 ^ 53 <= 2 ^ (51 + (eb - ec)))
          by (apply Z.pow_le_mono_r; lia).
        rewrite <- pow2_split in H0 by lia.
        replace (52 + (eb - ec)) with (1 + (51 + (eb - ec))) in H0 by lia.
        rewrite (pow2_split 1) in H0 by lia. rewrite Z.pow_1_r in H0.
        lia. }
    destruct R as [R|[m [e [R [C K]]]]]; [now left|right].
    exists m, e. split; [exact R|split; [exact C|lia]].
Qed.


(** [c - b] for [b < c] and [b] positive: positive, and at least
    [2 ^ eb]. *)
Lemma SFsub_gt_pos_mag (c : spec_float) (mb : positive) (eb : Z) :
  valid_binary (S754_finite false mb eb) = true -> valid_binary c = true ->
  SFltb (S754_finite false mb eb) c = true ->
  sf_pos_mag (SF64sub c (S754_finite false mb eb)) eb.
Proof.
  intros Vb Vc H. destruct (valid_canon _ _ _ Vb) as [Cb Bb].
  destruct (canon_facts _ _ Cb) as [Ab [Ub Lb]].
  unfold SF64sub, SFsub.
  destruct c as [s|[]| |[] mc ec]; try discriminate.
  - (* plus infinity *)
    now left.
  - (* positive, larger *)
    destruct (valid_canon _ _ _ Vc) as [Cc Bc].
    pose proof (SFltb_canon_exp _ _ _ _ H) as EE.
    set (ez := Z.min ec eb).
    pose proof (shl_align_min_l mc ec eb) as Ax. fold ez in Ax.
    pose proof (shl_align_min_r mb ec eb) as Ay. fold ez in Ay.
    rewrite (SFltb_canon_val _ _ _ _ ez Cb Cc) in H by (unfold ez; lia).
    apply Z.ltb_lt in H.
    set (X := fst (shl_align mc ec ez)) in *.
    set (Y := fst (shl_align mb eb ez)) in *.
    unfold cond_Zopp.
    destruct (Z.pos X - Z.pos Y) as [|q|q] eqn:V; try lia.
    simpl binary_normalize.
    pose proof (binary_round_mag q ez ltac:(unfold ez; lia)) as R.
    assert (0 < Z.pos (digits2_pos q)) by lia.
    destruct R as [R|[m [e [R [C K]]]]]; [now left|right].
    exists m, e. split; [exact R|split; [exact C|unfold ez in K; lia]].
Qed.

Lemma sf_nonpos_not_pos r :
  sf_nonpos r -> SFltb (S754_zero false) r = false.
Proof.
  intros [->|H]; [reflexivity|]. now apply SFltb_SFleb_antisym.
Qed.

Lemma sf_nonpos_opp r : sf_nonpos r <-> sf_nonneg (SFopp r).
Proof.
  unfold sf_nonpos, sf_nonneg.
  destruct r as [s|[]| |[] m e]; simpl; intuition congruence.
Qed.

Lemma rounded_true_nonpos m1 E : sf_nonpos (rounded true m1 E).
Proof.
  right. unfold rounded.
  destruct (m1 =? 0); [reflexivity|].
  destruct (m1 <? 2 ^ 53);
    match goal with |- context [if ?c then _ else _] => destruct c end;
    reflexivity.
Qed.

Lemma binary_round_true_nonpos p e :
  sf_nonpos (binary_round prec emax true p e).
Proof.
  destruct (binary_round_wf true p e) as [m1 [-> _]].
  apply rounded_true_nonpos.
Qed.

(** [b - c] when [c < b] fails, for [b] positive. *)
Lemma SFsub_not_lt_nonpos (c : spec_float) (mb : positive) (eb : Z) :
  valid_binary (S754_finite false mb eb) = true -> valid_binary c = true ->
  SFltb c (S754_finite false mb eb) = false ->
  sf_nonpos (SF64sub (S754_finite false mb eb) c).
Proof.
  intros Vb Vc H. destruct (valid_canon _ _ _ Vb) as [Cb Bb].
  unfold SF64sub, SFsub.
  destruct c as [s|[]| |[] mc ec]; try discriminate;
    try (left; reflexivity); try (right; reflexivity).
  destruct (valid_canon _ _ _ Vc) as [Cc Bc].
  set (ez := Z.min eb ec).
  pose proof (shl_align_min_l mb eb ec) as Ax. fold ez in Ax.
  pose proof (shl_align_min_r mc eb ec) as Ay. fold ez in Ay.
  rewrite (SFltb_canon_val _ _ _ _ ez Cc Cb) in H by (unfold ez; lia).
  apply Z.ltb_ge in H.
  set (X := fst (shl_align mb eb ez)) in *.
  set (Y := fst (shl_align mc ec ez)) in *.
  unfold cond_Zopp.
  destruct (Z.pos X - Z.pos Y) as [|q|q] eqn:V; try lia;
    simpl binary_normalize.
  - right. reflexivity.
  - apply binary_round_true_nonpos.
Qed.

(** [c - b] when [b < c] fails, for [b] positive. *)
Lemma SFsub_not_gt_nonpos (c : spec_float) (mb : positive) (eb : Z) :
  valid_binary (S754_finite false mb eb) = true -> valid_binary c = true ->
  SFltb (S754_finite false mb eb) c = false ->
  sf_nonpos (SF64sub c (S754_finite false mb eb)).
Proof.
  intros Vb Vc H. destruct (valid_canon _ _ _ Vb) as [Cb Bb].
  unfold SF64sub, SFsub.
  destruct c as [s|[]| |[] mc ec]; try discriminate;
    try (left; reflexivity); try (right; reflexivity).
  - (* negative *)
    unfold cond_Zopp.
    match goal with
    | |- context [(- Z.pos ?X - Z.pos ?Y)] =>
        replace (- Z.pos X - Z.pos Y) with (Z.neg (X + Y)) by lia
    end.
    simpl binary_normalize. apply binary_round_true_nonpos.
  - destruct (valid_canon _ _ _ Vc) as [Cc Bc].
    set (ez := Z.min ec eb).
    pose proof (shl_align_min_l mc ec eb) as Ax. fold ez in Ax.
    pose proof (shl_align_min_r mb ec eb) as Ay. fold ez in Ay.
    rewrite (SFltb_canon_val _ _ _ _ ez Cb Cc) in H by (unfold ez; lia).
    apply Z.ltb_ge in H.
    set (X := fst (shl_align mc ec ez)) in *.
    set (Y := fst (shl_align mb eb ez)) in *.
    unfold cond_Zopp.
    destruct (Z.pos X - Z.pos Y) as [|q|q] eqn:V; try lia;
      simpl binary_normalize.
    + right. reflexivity.
    + apply binary_round_true_nonpos.
Qed.

Lemma SFmul_opp a b : SF64mul (SFopp a) b = SFopp (SF64mul a b).
Proof.
  unfold SF64mul, SFmul.
  destruct a as [sa|sa| |sa ma ea], b as [sb|sb| |sb mb eb]; simpl;
    try reflexivity; try solve [destruct sa, sb; reflexivity].
  rewrite SFopp_binary_round_aux. now destruct sa, sb.
Qed.

Lemma SFdiv_nonpos r mb eb :
  sf_nonpos r -> sf_nonpos (SF64div r (S754_finite false mb eb)).
Proof.
  rewrite !sf_nonpos_opp, <- SFdiv_opp. intros H.
  apply SFdiv_nonneg; [exact H|right; reflexivity|discriminate].
Qed.

Lemma SFmul_100_nonpos r :
  sf_nonpos r -> sf_nonpos (SF64mul r (Prim2SF 100%float)).
Proof.
  rewrite !sf_nonpos_opp, <- SFmul_opp. intros H.
  apply SFmul_nonneg; [exact H|right; reflexivity].
Qed.

Lemma Prim2SF_one : Prim2SF 1%float = S754_finite false 4503599627370496 (-52).
Proof. reflexivity. Qed.

Lemma rounded_small s m E :
  0 < m < 2 ^ 53 -> E <= 971 -> rounded s m E = S754_finite s (Z.to_pos m) E.
Proof.
  intros [P U] B. unfold rounded.
  destruct (Z.eqb_spec m 0); [lia|].
  destruct (Z.ltb_spec m (2 ^ 53)); [|lia].
  destruct (Z.leb_spec E 971); [reflexivity|lia].
Qed.

(** Division by one is exact. *)
Lemma SFdiv_one (x : spec_float) :
  valid_binary x = true ->
  SF64div x (S754_finite false 4503599627370496 (-52)) = x.
Proof.
  intros V. unfold SF64div, SFdiv.
  destruct x as [s|s| |s m e]; try reflexivity;
    try (now destruct s).
  destruct (valid_canon _ _ _ V) as [C B].
  destruct (canon_facts _ _ C) as [A [U L]].
  pose proof (digits_bounds m) as [DL DU].
  assert (HC : Z.max (Z.pos (digits2_pos m) + e - 53) (-1074) = e)
    by (unfold canon in C; now rewrite fexp_eq in C).
  unfold SFdiv_core_binary. simpl Zdigits2.
  change (Z.pos (digits2_pos 4503599627370496)) with 53.
  rewrite fexp_eq.
  set (d := Z.pos (digits2_pos m)) in *.
  assert (Hd : 0 < d) by (unfold d; lia).
  set (e' := Z.min (Z.max (d + e - (53 + -52) - 53) (-1074)) (e - -52)).
  assert (He' : e' = Z.max (e - 1) (-1074)) by (unfold e'; lia).
  assert (Hs : 0 < e - -52 - e') by lia.
  destruct (e - -52 - e') as [|sh|sh] eqn:S; try lia.
  rewrite Z.shiftl_mul_pow2 by lia.
  assert (K : Z.pos sh = 52 + (e - e')) by lia.
  rewrite K, pow2_split by lia.
  change (Z.pos 4503599627370496) with (2 ^ 52).
  replace (Z.pos m * (2 ^ 52 * 2 ^ (e - e')))
    with (Z.pos m * 2 ^ (e - e') * 2 ^ 52) by ring.
  assert (P52 : 0 < 2 ^ 52) by (apply pow2_pos; lia).
  assert (DE : Z.div_eucl (Z.pos m * 2 ^ (e - e') * 2 ^ 52) (2 ^ 52)
               = (Z.pos m * 2 ^ (e - e'), 0)).
  { pose proof (Z.div_eucl_eq (Z.pos m * 2 ^ (e - e') * 2 ^ 52) (2 ^ 52)
                  ltac:(lia)) as EQ.
    pose proof (Z.div_mul (Z.pos m * 2 ^ (e - e')) (2 ^ 52) ltac:(lia)) as Q.
    pose proof (Z.mod_mul (Z.pos m * 2 ^ (e - e')) (2 ^ 52) ltac:(lia)) as R.
    unfold Z.div, Z.modulo in Q, R.
    destruct (Z.div_eucl _ _) as [q r]. now subst. }
  rewrite DE.
  assert (PQ : 0 < Z.pos m * 2 ^ (e - e'))
    by (apply Z.mul_pos_pos; [lia|apply pow2_pos; lia]).
  destruct (Z.pos m * 2 ^ (e - e')) as [|q|q] eqn:Q; try lia.
  assert (DQ : Z.pos (digits2_pos q) = d + (e - e'))
    by (apply (digits_shift m q); [lia|now rewrite Q]).
  assert (EQ : fexp prec emax (Z.pos (digits2_pos q) + e') = e)
    by (rewrite fexp_eq, DQ; lia).
  destruct (binary_round_aux_cases (xorb s false) q e'
              (new_location (2 ^ 52) 0) ltac:(rewrite EQ; lia))
    as [m1 [-> [_ X]]].
  rewrite EQ in X |- *.
  rewrite X; [|reflexivity|].
  - rewrite <- Q, Z.div_mul by (apply Z.neq_sym, Z.lt_neq, pow2_pos; lia).
    rewrite rounded_small by lia. simpl Z.to_pos. now destruct s.
  - rewrite <- Q. apply Z.mod_mul. apply Z.neq_sym, Z.lt_neq, pow2_pos; lia.
Qed.

End Rounding.

(** ** Order facts on the primitive operations *)

Lemma is_nan_false x : is_nan x = false -> Prim2SF x <> S754_nan.
Proof.
  unfold is_nan. rewrite FloatAxioms.eqb_spec. intros H E.
  rewrite E in H. discriminate.
Qed.

Lemma leb_refl x : is_nan x = false -> (x <=? x)%float = true.
Proof.
  intros H. rewrite FloatAxioms.leb_spec. now apply SFleb_refl, is_nan_false.
Qed.

Lemma f_nonneg_leb m :
  f_nonneg m -> Prim2SF m = S754_nan \/ (0 <=? m)%float = true.
Proof.
  intros [H|H]; [now left|right].
  now rewrite FloatAxioms.leb_spec, Prim2SF_zero.
Qed.

Lemma sub_le (x m : float) :
  f_nonneg m -> is_nan (x - m) = false -> (x - m <=? x)%float = true.
Proof.
  intros Hm Hn. apply is_nan_false in Hn.
  rewrite FloatAxioms.leb_spec. rewrite sub_spec in Hn |- *.
  destruct Hm as [E|Hm].
  - exfalso. apply Hn. rewrite E. unfold SF64sub, SFsub.
    now destruct (Prim2SF x).
  - now apply SFsub_le; [apply Prim2SF_valid| |].
Qed.

Lemma add_ge (x m : float) :
  f_nonneg m -> is_nan (x + m) = false -> (x <=? x + m)%float = true.
Proof.
  intros Hm Hn. apply is_nan_false in Hn.
  rewrite FloatAxioms.leb_spec. rewrite add_spec in Hn |- *.
  destruct Hm as [E|Hm].
  - exfalso. apply Hn. rewrite E. unfold SF64add, SFadd.
    now destruct (Prim2SF x).
  - now apply SFadd_ge; [apply Prim2SF_valid| |].
Qed.

Lemma sqrt_nonneg x : f_nonneg (PrimFloat.sqrt x).
Proof. unfold f_nonneg. rewrite sqrt_spec. apply SFsqrt_nonneg. Qed.

Lemma div_nonneg a b :
  f_nonneg a -> f_nonneg b -> (b =? 0)%float = false -> f_nonneg (a / b).
Proof.
  unfold f_nonneg. rewrite div_spec, FloatAxioms.eqb_spec, Prim2SF_zero.
  intros Ha Hb Hz. apply SFdiv_nonneg; try assumption.
  intros s E. rewrite E in Hz. discriminate.
Qed.

Lemma mul_nonneg a b : f_nonneg a -> f_nonneg b -> f_nonneg (a * b).
Proof. unfold f_nonneg. rewrite mul_spec. apply SFmul_nonneg. Qed.

Lemma py_sqrt_Ok x r : py_sqrt x = Ok r -> r = PrimFloat.sqrt x.
Proof. unfold py_sqrt. destruct (x <? 0)%float; congruence. Qed.

Lemma py_div_Ok x y r :
  py_div x y = Ok r -> (y =? 0)%float = false /\ r = (x / y)%float.
Proof.
  unfold py_div. destruct (y =? 0)%float; [discriminate|]. now intros [= <-].
Qed.

Lemma div_one (x : float) : (x / 1)%float = x.
Proof.
  apply Prim2SF_inj. rewrite div_spec, Prim2SF_one.
  apply SFdiv_one, Prim2SF_valid.
Qed.

Lemma zero_add (x : float) : f_sim (0 + x)%float x.
Proof.
  unfold f_sim. rewrite add_spec, Prim2SF_zero.
  unfold SF64add, SFadd.
  destruct (Prim2SF x) as [[]|s| |s m e]; try (now left).
  right. now exists false, true.
Qed.

Lemma single_mean (x : float) : feq ((0 + x) / 1)%float x = true.
Proof. rewrite div_one. apply f_sim_feq, zero_add. Qed.

(** In binary64 the confidence interval brackets the mean whenever its
    bounds are numbers. *)
Lemma calculate_stats_ci (values : list float) (st : Statistics) :
  calculate_stats values = Ok (Some st) ->
  (is_nan (ci_lower st) = false -> (ci_lower st <=? mean st)%float = true) /\
  (is_nan (ci_upper st) = false -> (mean st <=? ci_upper st)%float = true).
Proof.
  destruct values as [|v vs]; [discriminate|]. unfold calculate_stats.
  intros H. bind_inv H. destruct (_ <? 2)%nat.
  - injection H as <-. cbn [ci_lower ci_upper mean].
    split; apply leb_refl.
  - do 5 (bind_inv H). injection H as <-. cbn [ci_lower ci_upper mean].
    repeat match goal with
    | E : py_sqrt _ = Ok _ |- _ => apply py_sqrt_Ok in E
    end.
    match goal with
    | E : py_div _ _ = Ok _ |- _ =>
        apply py_div_Ok in E; destruct E as [Z ->]
    end.
    subst.
    match goal with
    | |- (_ -> (?x - ?m <=? ?x)%float = true) /\ _ =>
        assert (M : f_nonneg m)
    end.
    { apply mul_nonneg.
      - destruct (30 <? _)%nat; right; reflexivity.
      - apply div_nonneg; [apply sqrt_nonneg|apply sqrt_nonneg|exact Z]. }
    split; [now apply sub_le|now apply add_ge].
Qed.

Lemma pos_finite_spec (b : float) :
  (0 <? b)%float = true -> (b <? infinity)%float = true ->
  exists mb eb, Prim2SF b = S754_finite false mb eb.
Proof.
  rewrite !FloatAxioms.ltb_spec, Prim2SF_zero.
  change (Prim2SF infinity) with (S754_infinity false).
  destruct (Prim2SF b) as [s|[]| |[] m e]; try discriminate. eauto.
Qed.

(** In binary64, for a finite positive baseline mean, the improvement
    computation returns and the flag is exactly the sign test on the
    percentage. *)
Lemma improvement_sign_binary64 (lob : bool) (b c : float) :
  (0 <? b)%float = true -> (b <? infinity)%float = true ->
  exists pct imp,
    improvement lob b c = Ok (pct, imp) /\ imp = (0 <? pct)%float.
Proof.
  intros Hp Hf. rewrite improvement_eq, (pos_not_zero b Hp).
  do 2 eexists. split; [reflexivity|].
  destruct (pos_finite_spec b Hp Hf) as [mb [eb Eb]].
  pose proof (Prim2SF_valid b) as Vb. rewrite Eb in Vb.
  pose proof (Prim2SF_valid c) as Vc.
  destruct (valid_canon _ _ _ Vb) as [Cb _].
  unfold polarity_flag, polarity_pct.
  rewrite !FloatAxioms.ltb_spec, Prim2SF_zero.
  destruct lob; rewrite mul_spec, div_spec, sub_spec, Eb.
  - destruct (SFltb (Prim2SF c) (S754_finite false mb eb)) eqn:L; symmetry.
    + apply SFmul_100_pos, SFdiv_pos_mag; [exact Cb|].
      now apply SFsub_lt_pos_mag.
    + apply sf_nonpos_not_pos, SFmul_100_nonpos, SFdiv_nonpos.
      now apply SFsub_not_lt_nonpos.
  - destruct (SFltb (S754_finite false mb eb) (Prim2SF c)) eqn:L; symmetry.
    + apply SFmul_100_pos, SFdiv_pos_mag; [exact Cb|].
      now apply SFsub_gt_pos_mag.
    + apply sf_nonpos_not_pos, SFmul_100_nonpos, SFdiv_nonpos.
      now apply SFsub_not_gt_nonpos.
Qed.

(** ** Sample statistics in binary64 *)

(** In binary64 the mean of three copies of 0.1 is one unit in the last
    place above 0.1, hence above the maximum; and when the sum of finite
    observations overflows, the mean and the margin are both infinite and
    [ci_lower] is NaN, which compares below nothing. *)
Lemma calculate_stats_rounding :
  (exists st,
     calculate_stats [0.1; 0.1; 0.1]%float = Ok (Some st) /\
     max_val st = 0.1%float /\
     mean st = 0.10000000000000002%float /\
     (mean st <=? max_val st)%float = false) /\
  (exists st,
     calculate_stats [1.7e308; 1.7e308]%float = Ok (Some st) /\
     mean st = infinity /\
     (ci_lower st <=? mean st)%float = false).
Proof.
  split; eexists; (split; [vm_compute; reflexivity|]);
    repeat split; reflexivity.
Qed.

(** C7, amended. In binary64, whenever the statistics of a sample are
    computed, [ci_lower <= mean] holds unless [ci_lower] is NaN and
    [mean <= ci_upper] holds unless [ci_upper] is NaN, and a sample of one
    observation [x] has [std = 0], [min = max = x] and
    [ci_lower = ci_upper = mean], the mean being equal to [x] (under [==],
    or NaN with it).  The ordering [min <= mean <= max] is a fact of exact
    real arithmetic only: computed over the reals, the statistics of every
    non-empty sample satisfy it, together with
    [ci_lower <= mean <= ci_upper]. *)
Theorem calculate_stats_invariant :
  (forall (values : list float) (st : Statistics),
     calculate_stats values = Ok (Some st) ->
     (is_nan (ci_lower st) = false ->
      (ci_lower st <=? mean st)%float = true) /\
     (is_nan (ci_upper st) = false ->
      (mean st <=? ci_upper st)%float = true)) /\
  (forall x : float,
     exists m,
       calculate_stats [x] = Ok (Some (mkStatistics 1 m 0%float x x m m)) /\
       feq m x = true) /\
  (forall values : list R,
     values <> [] ->
     exists st,
       Exact.calculate_stats values = Ok (Some st) /\
       Exact.n st = List.length values /\
       (Exact.ci_lower st <= Exact.mean st <= Exact.ci_upper st)%R /\
       (Exact.min_val st <= Exact.mean st <= Exact.max_val st)%R /\
       (List.length values < 2 ->
        Exact.std st = 0%R /\
        Exact.ci_lower st = Exact.mean st /\
        Exact.ci_upper st = Exact.mean st /\
        forall x, In x values -> Exact.mean st = x)).
Proof.
  split; [|split].
  - exact calculate_stats_ci.
  - intros x. exists ((0 + x) / 1)%float.
    split; [reflexivity|apply single_mean].
  - exact ExactFacts.calculate_stats_exact.
Qed.

(** The specification's end-to-end baseline sample. *)
Lemma calculate_stats_invariant_witness :
  exists st,
    calculate_stats [10; 12; 11; 13; 9; 10; 11; 12]%float = Ok (Some st) /\
    mean st = 11%float /\
    (ci_lower st <=? mean st)%float = true /\
    (mean st <=? ci_upper st)%float = true.
Proof.
  eexists. split; [vm_compute; reflexivity|]. split; [reflexivity|].
  destruct (proj1 calculate_stats_invariant
              [10; 12; 11; 13; 9; 10; 11; 12]%float _ eq_refl) as [L U].
  split; [apply L|apply U]; reflexivity.
Defined.

(** ** Sign of the improvement percentage *)

(** When the sum of a finite baseline overflows, its mean is [+infinity]:
    the candidate is below it, so [improved] is true, while the percentage
    is [inf / inf * 100], a NaN, which is not above 0. *)
Lemma improvement_overflow :
  exists bs es t p d ef sg,
    analyze_metric (fun x => x) [1.7e308; 1.7e308]%float [1%float]
      "latency" true
    = Ok (Comparison "latency" bs es nan true t p d ef sg) /\
    (0 <? mean bs)%float = true /\
    (0 <? nan)%float = false.
Proof.
  do 7 eexists. split; [vm_compute; reflexivity|].
  split; reflexivity.
Qed.

(** C10, amended. For every pair of non-empty samples whose baseline mean
    is strictly positive and finite, and for either polarity, the
    [improved] flag of a returned comparison is true exactly when its
    [improvement_pct > 0].  With a negative baseline mean the equivalence
    is lost: baseline [-100] against candidate [-120], lower is better, is
    improved with a percentage of [-20]; and in exact real arithmetic a
    strictly negative baseline mean makes [improved] true exactly when
    [improvement_pct < 0]. *)
Theorem improvement_sign :
  (forall (erf : float -> float) (baseline_values esm_values : list float)
          (name : string) (lower_is_better : bool)
          (bs : Statistics) (r : Result),
     esm_values <> [] ->
     calculate_stats baseline_values = Ok (Some bs) ->
     (0 <? mean bs)%float = true -> (mean bs <? infinity)%float = true ->
     analyze_metric erf baseline_values esm_values name lower_is_better
     = Ok r ->
     is_error r = false /\
     improved_of r = (0 <? improvement_pct_of r)%float) /\
  (exists bs es t p d ef sg,
     analyze_metric (fun x => x) [(-100)%float] [(-120)%float] "latency" true
     = Ok (Comparison "latency" bs es (-20)%float true t p d ef sg) /\
     (mean bs <? 0)%float = true) /\
  (forall (lower_is_better : bool) (bm em : R),
     (bm < 0)%R ->
     exists pct improved,
       Exact.improvement lower_is_better bm em = Ok (pct, improved) /\
       (improved = true <-> (pct < 0)%R)).
Proof.
  split; [|split].
  - intros erf b e name lob bs r He Eb Hp Hf H.
    unfold analyze_metric in H. rewrite Eb in H. cbn [bind] in H.
    bind_inv H. destruct a as [es|];
      [|apply calculate_stats_nil_iff in E;
        now destruct (He (proj1 E eq_refl))].
    destruct (improvement_sign_binary64 lob (mean bs) (mean es) Hp Hf)
      as [pct [imp [Ei Hi]]].
    rewrite Ei in H. cbn [bind] in H.
    bind_inv H. destruct a as [t p]. bind_inv H. injection H as <-.
    split; [reflexivity|exact Hi].
  - do 7 eexists. split; [vm_compute; reflexivity|reflexivity].
  - intros lob bm em Hb.
    rewrite ExactFacts.improvement_exact_eq by lra.
    do 2 eexists. split; [reflexivity|].
    destruct lob; rewrite ExactFacts.ratio_neg by exact Hb.
    + destruct (Rlt_dec em bm); split; intros; try lra; congruence.
    + destruct (Rlt_dec bm em); split; intros; try lra; congruence.
Qed.

Lemma improvement_sign_witness :
  is_error
    (Comparison "latency"
       (mkStatistics 1 100 0 100 100 100 100)
       (mkStatistics 1 80 0 80 80 80 80)
       20 true 0 1 0 "negligible" false) = false /\
  true = (0 <? 20)%float.
Proof.
  apply (proj1 improvement_sign (fun x => x) [100%float] [80%float]
           "latency"%string true (mkStatistics 1 100 0 100 100 100 100)).
  - discriminate.
  - reflexivity.
  - reflexivity.
  - reflexivity.
  - reflexivity.
Defined.

(** * Further properties of the code

    ** The order on binary64 values that are not NaN *)

Lemma SFltb_false_SFleb (x y : spec_float) :
  x <> S754_nan -> y <> S754_nan -> SFltb x y = false -> SFleb y x = true.
Proof.
  unfold SFleb, SFltb, SFcompare.
  destruct x as [sx|sx| |sx mx ex], y as [sy|sy| |sy my ey]; simpl;
    try congruence; try (destruct sx; congruence);
    try (destruct sy; congruence); try (destruct sx, sy; congruence).
  intros _ _.
  change (Pos.compare_cont Eq mx my) with (Pos.compare mx my).
  change (Pos.compare_cont Eq my mx) with (Pos.compare my mx).
  sf_cases.
Qed.

Lemma SFltb_SFleb (x y : spec_float) : SFltb x y = true -> SFleb x y = true.
Proof.
  unfold SFleb, SFltb. destruct (SFcompare x y) as [[]|]; congruence.
Qed.

Lemma SFleb_trans (x y z : spec_float) :
  SFleb x y = true -> SFleb y z = true -> SFleb x z = true.
Proof.
  unfold SFleb, SFcompare.
  destruct x as [sx|sx| |sx mx ex], y as [sy|sy| |sy my ey],
           z as [sz|sz| |sz mz ez]; simpl;
    repeat match goal with
    | |- context [Pos.compare_cont Eq ?a ?b] =>
        change (Pos.compare_cont Eq a b) with (Pos.compare a b)
    end;
    sf_cases.
Qed.

Lemma ltb_false_leb (x y : float) :
  is_nan x = false -> is_nan y = false ->
  (x <? y)%float = false -> (y <=? x)%float = true.
Proof.
  intros Hx Hy. rewrite FloatAxioms.ltb_spec, FloatAxioms.leb_spec.
  apply SFltb_false_SFleb; now apply is_nan_false.
Qed.

Lemma ltb_leb (x y : float) :
  (x <? y)%float = true -> (x <=? y)%float = true.
Proof.
  rewrite FloatAxioms.ltb_spec, FloatAxioms.leb_spec. apply SFltb_SFleb.
Qed.

Lemma leb_trans (x y z : float) :
  (x <=? y)%float = true -> (y <=? z)%float = true -> (x <=? z)%float = true.
Proof. rewrite !FloatAxioms.leb_spec. apply SFleb_trans. Qed.

(** ** Sample size, minimum and maximum *)

Lemma py_min_In (rest : list float) : forall x, In (py_min x rest) (x :: rest).
Proof.
  unfold py_min. induction rest as [|a rest IH]; intros x; simpl; [now left|].
  destruct (IH (if (a <? x)%float then a else x)) as [E|H].
  - destruct (a <? x)%float; rewrite <- E; auto.
  - auto.
Qed.

Lemma py_max_In (rest : list float) : forall x, In (py_max x rest) (x :: rest).
Proof.
  unfold py_max. induction rest as [|a rest IH]; intros x; simpl; [now left|].
  destruct (IH (if (x <? a)%float then a else x)) as [E|H].
  - destruct (x <? a)%float; rewrite <- E; auto.
  - auto.
Qed.

Lemma py_min_lower (rest : list float) : forall x,
  Forall (fun v => is_nan v = false) (x :: rest) ->
  forall y, In y (x :: rest) -> (py_min x rest <=? y)%float = true.
Proof.
  unfold py_min. induction rest as [|a rest IH]; intros x F y Hy.
  - destruct Hy as [<-|[]]. simpl. apply leb_refl. now inversion F.
  - inversion F as [|? ? Nx F']; subst. inversion F' as [|? ? Na F'']; subst.
    simpl. set (m := if (a <? x)%float then a else x).
    assert (Nm : is_nan m = false) by (unfold m; now destruct (a <? x)%float).
    assert (Mx : (m <=? x)%float = true).
    { unfold m. destruct (a <? x)%float eqn:E;
        [now apply ltb_leb | now apply leb_refl]. }
    assert (Ma : (m <=? a)%float = true).
    { unfold m. destruct (a <? x)%float eqn:E;
        [now apply leb_refl | now apply ltb_false_leb]. }
    assert (IHm := IH m (Forall_cons _ Nm F'')).
    destruct Hy as [<-|[<-|Hy]].
    + apply leb_trans with m; [apply IHm; now left | exact Mx].
    + apply leb_trans with m; [apply IHm; now left | exact Ma].
    + apply IHm. now right.
Qed.

Lemma py_max_upper (rest : list float) : forall x,
  Forall (fun v => is_nan v = false) (x :: rest) ->
  forall y, In y (x :: rest) -> (y <=? py_max x rest)%float = true.
Proof.
  unfold py_max. induction rest as [|a rest IH]; intros x F y Hy.
  - destruct Hy as [<-|[]]. simpl. apply leb_refl. now inversion F.
  - inversion F as [|? ? Nx F']; subst. inversion F' as [|? ? Na F'']; subst.
    simpl. set (m := if (x <? a)%float then a else x).
    assert (Nm : is_nan m = false) by (unfold m; now destruct (x <? a)%float).
    assert (Mx : (x <=? m)%float = true).
    { unfold m. destruct (x <? a)%float eqn:E;
        [now apply ltb_leb | now apply leb_refl]. }
    assert (Ma : (a <=? m)%float = true).
    { unfold m. destruct (x <? a)%float eqn:E;
        [now apply leb_refl | now apply ltb_false_leb]. }
    assert (IHm := IH m (Forall_cons _ Nm F'')).
    destruct Hy as [<-|[<-|Hy]].
    + apply leb_trans with m; [exact Mx | apply IHm; now left].
    + apply leb_trans with m; [exact Ma | apply IHm; now left].
    + apply IHm. now right.
Qed.

Lemma calculate_stats_fields (values : list float) (st : Statistics) :
  calculate_stats values = Ok (Some st) ->
  exists v vs, values = v :: vs /\ n st = List.length values /\
               min_val st = py_min v vs /\ max_val st = py_max v vs.
Proof.
  destruct values as [|v vs]; [discriminate|]. unfold calculate_stats.
  intros H. exists v, vs. bind_inv H. destruct (_ <? 2)%nat.
  - injection H as <-. repeat split.
  - do 5 (bind_inv H). injection H as <-. repeat split.
Qed.

(** X1. The statistics of a sample record its length as [n], and their
    [min_val] and [max_val] are observations of the sample; when no
    observation is NaN, [min_val] is at or below every observation and
    [max_val] at or above every observation, so [min_val <= max_val]. *)
Theorem calculate_stats_range (values : list float) (st : Statistics) :
  calculate_stats values = Ok (Some st) ->
  n st = List.length values /\
  In (min_val st) values /\ In (max_val st) values /\
  (Forall (fun v => is_nan v = false) values ->
   (min_val st <=? max_val st)%float = true /\
   forall x, In x values ->
     (min_val st <=? x)%float = true /\ (x <=? max_val st)%float = true).
Proof.
  intros H.
  destruct (calculate_stats_fields _ _ H) as [v [vs [-> [N [Mi Ma]]]]].
  rewrite Mi, Ma. split; [exact N|].
  split; [apply py_min_In|]. split; [apply py_max_In|].
  intros F. split.
  - apply leb_trans with v;
      [apply py_min_lower | apply py_max_upper]; solve [exact F | now left].
  - intros x Hx.
    split; [now apply py_min_lower | now apply py_max_upper].
Qed.

Lemma calculate_stats_range_witness :
  exists st, calculate_stats [3; 1; 2]%float = Ok (Some st) /\
  n st = 3 /\ min_val st = 1%float /\ max_val st = 3%float /\
  In (min_val st) [3; 1; 2]%float.
Proof.
  eexists. split; [vm_compute; reflexivity|].
  split; [reflexivity|]. split; [reflexivity|]. split; [reflexivity|].
  exact (proj1 (proj2 (calculate_stats_range [3; 1; 2]%float _ eq_refl))).
Defined.

(** ** The standard deviation *)

Lemma f_nonneg_not_neg x : f_nonneg x -> (x <? 0)%float = false.
Proof.
  unfold f_nonneg. rewrite FloatAxioms.ltb_spec, Prim2SF_zero.
  intros [->|H]; [reflexivity|]. now apply SFltb_SFleb_antisym.
Qed.

(** X2. The standard deviation is never below zero: it is the constant 0
    for a single observation and a square root otherwise. *)
Theorem calculate_stats_std (values : list float) (st : Statistics) :
  calculate_stats values = Ok (Some st) ->
  (std st <? 0)%float = false /\
  (List.length values < 2 -> std st = 0%float) /\
  (2 <= List.length values ->
   exists variance, std st = PrimFloat.sqrt variance).
Proof.
  destruct values as [|v vs]; [discriminate|]. unfold calculate_stats.
  intros H. bind_inv H. destruct (Nat.ltb_spec (List.length (v :: vs)) 2).
  - injection H as <-. cbn [std]. repeat split; try reflexivity. lia.
  - do 5 (bind_inv H). injection H as <-. cbn [std].
    repeat match goal with
    | E : py_sqrt _ = Ok _ |- _ => apply py_sqrt_Ok in E
    end.
    subst. split; [apply f_nonneg_not_neg, sqrt_nonneg|].
    split; [lia|]. eauto.
Qed.

Lemma calculate_stats_std_witness :
  exists st, calculate_stats [1; 2; 3]%float = Ok (Some st) /\
             std st = 1%float /\ (std st <? 0)%float = false.
Proof.
  eexists. split; [vm_compute; reflexivity|]. split; [vm_compute; reflexivity|].
  exact (proj1 (calculate_stats_std [1; 2; 3]%float _ eq_refl)).
Defined.

(** ** Samples of fewer than two observations *)

Lemma welch_t_test_small erf s1 s2 :
  List.length s1 < 2 \/ List.length s2 < 2 ->
  welch_t_test erf s1 s2 = Ok (0.0%float, 1.0%float).
Proof.
  intros H. unfold welch_t_test.
  replace ((List.length s1 <? 2)%nat || (List.length s2 <? 2)%nat)
    with true; [reflexivity|].
  symmetry. apply orb_true_iff.
  destruct H as [H|H]; [left|right]; now apply Nat.ltb_lt.
Qed.

Lemma cohens_d_small s1 s2 :
  List.length s1 < 2 \/ List.length s2 < 2 -> cohens_d s1 s2 = Ok 0.0%float.
Proof.
  intros H. unfold cohens_d.
  replace ((List.length s1 <? 2)%nat || (List.length s2 <? 2)%nat)
    with true; [reflexivity|].
  symmetry. apply orb_true_iff.
  destruct H as [H|H]; [left|right]; now apply Nat.ltb_lt.
Qed.

(** X3. When either sample has fewer than 2 observations, a returned
    result is never significant, so the Conclusions loop never lists it as
    validated; a comparison then carries [t = 0.0], [p = 1.0], [d = 0.0]
    and the label "negligible". *)
Theorem analyze_metric_small_sample (erf : float -> float)
    (baseline_values esm_values : list float) (name : string)
    (lower_is_better : bool) (r : Result) :
  List.length baseline_values < 2 \/ List.length esm_values < 2 ->
  analyze_metric erf baseline_values esm_values name lower_is_better = Ok r ->
  significant_of r = false /\
  (forall acc, fst (conclusions_step acc r) = fst acc) /\
  (is_error r = false ->
   t_statistic_of r = 0%float /\ p_value_of r = 1%float /\
   cohens_d_of r = 0%float /\ effect_size_of r = "negligible"%string).
Proof.
  intros Hn H. unfold analyze_metric in H.
  bind_inv H. bind_inv H.
  match goal with
  | H : match ?a with _ => _ end = _ |- _ => destruct a as [bs|]
  end.
  2:{ injection H as <-. split; [reflexivity|].
      split; [intros [? ?]; simpl; reflexivity | discriminate]. }
  match goal with
  | H : match ?a with _ => _ end = _ |- _ => destruct a as [es|]
  end.
  2:{ injection H as <-. split; [reflexivity|].
      split; [intros [? ?]; simpl; reflexivity | discriminate]. }
  rewrite (welch_t_test_small erf _ _ Hn), (cohens_d_small _ _ Hn) in H.
  bind_inv H.
  match goal with p : (float * bool)%type |- _ => destruct p as [pct imp] end.
  cbn [bind] in H. injection H as <-.
  split; [reflexivity|].
  split; [intros [? ?]; simpl; destruct imp; reflexivity|].
  intros _. cbn. repeat split.
Qed.

Lemma analyze_metric_small_sample_witness :
  exists r, analyze_metric (fun x => x) [100%float] [80; 90]%float
              "latency" true = Ok r /\
            improved_of r = true /\ significant_of r = false.
Proof.
  eexists. split; [vm_compute; reflexivity|]. split; [reflexivity|].
  exact (proj1 (analyze_metric_small_sample (fun x => x) [100%float]
                  [80; 90]%float "latency" true _
                  (or_introl (Nat.lt_succ_diag_r 1)) eq_refl)).
Defined.

(** ** Reversing the polarity, exchanging the samples *)

Lemma SFmul_sim a b c : sf_sim a b -> sf_sim (SF64mul a c) (SF64mul b c).
Proof.
  intros [->|[sa [sb [-> ->]]]]; [now left|].
  unfold SF64mul, SFmul. destruct c as [sc|sc| |sc mc ec];
    solve [left; reflexivity | right; eauto].
Qed.

Lemma mul_sim_opp (a b c : float) :
  f_sim a (- b)%float -> f_sim (a * c)%float (- (b * c))%float.
Proof.
  unfold f_sim. rewrite !opp_spec, !mul_spec, <- SFmul_opp.
  apply SFmul_sim.
Qed.

Lemma SFeqb_sim x y : SFeqb x y = true -> sf_sim x y.
Proof.
  unfold SFeqb, SFcompare.
  destruct x as [sx|sx| |sx mx ex], y as [sy|sy| |sy my ey]; simpl;
    try discriminate; try (intros _; right; eauto; fail);
    try (destruct sx, sy; try discriminate; intros _; left; reflexivity).
  change (Pos.compare_cont Eq mx my) with (Pos.compare mx my).
  destruct sx, sy; try discriminate;
    destruct (Z.compare_spec ex ey); try discriminate;
    destruct (Pos.compare_spec mx my); try discriminate;
    intros _; subst; now left.
Qed.

Lemma feq_opp_abs (a b : float) : feq a (- b)%float = true -> abs a = abs b.
Proof.
  unfold feq. intros H. apply orb_true_iff in H. destruct H as [H|H].
  - apply abs_sim_opp. unfold f_sim.
    rewrite FloatAxioms.eqb_spec in H. now apply SFeqb_sim.
  - apply andb_true_iff in H. destruct H as [Ha Hb].
    assert (N : forall x, is_nan x = true -> Prim2SF x = S754_nan).
    { intros x. unfold is_nan. rewrite FloatAxioms.eqb_spec.
      destruct (Prim2SF x) as [s|s| |s m e]; try reflexivity;
        unfold SFeqb, SFcompare; try (destruct s; discriminate).
      rewrite Z.compare_refl, Pos.compare_cont_refl.
      destruct s; discriminate. }
    apply N in Ha, Hb. rewrite opp_spec in Hb.
    apply Prim2SF_inj. rewrite !abs_spec, Ha.
    destruct (Prim2SF b); try discriminate. reflexivity.
Qed.

Lemma effect_size_interpretation_opp (d d' : float) :
  feq d (- d')%float = true ->
  effect_size_interpretation d = effect_size_interpretation d'.
Proof.
  intros H. unfold effect_size_interpretation.
  now rewrite (feq_opp_abs _ _ H).
Qed.

Lemma ltb_asym (a b : float) : (a <? b)%float && (b <? a)%float = false.
Proof.
  destruct (a <? b)%float eqn:E; [|reflexivity]. simpl.
  apply ltb_leb_antisym. now apply ltb_leb.
Qed.

Lemma polarity_pct_flip (bm em : float) :
  feq (polarity_pct true bm em) (- polarity_pct false bm em)%float = true.
Proof.
  unfold polarity_pct. apply f_sim_feq, mul_sim_opp, div_sim_opp, sub_antisym.
Qed.

(** X4. Analysing the same samples under the opposite polarity raises the
    same exception or returns the same kind of record; two comparisons
    differ only in the improvement percentage, which is negated (equal
    under [==] after negation, or both NaN), and in the flag, which is
    never set under both polarities. *)
Theorem analyze_metric_polarity_flip (erf : float -> float)
    (baseline_values esm_values : list float) (name : string) :
  match analyze_metric erf baseline_values esm_values name true,
        analyze_metric erf baseline_values esm_values name false with
  | Ok (Comparison m bs es pct imp t p d ef sg),
    Ok (Comparison m' bs' es' pct' imp' t' p' d' ef' sg') =>
      feq pct (- pct')%float = true /\ imp && imp' = false /\
      m = m' /\ bs = bs' /\ es = es' /\ t = t' /\ p = p' /\ d = d' /\
      ef = ef' /\ sg = sg'
  | Ok (ErrorRecord m e), Ok (ErrorRecord m' e') => m = m' /\ e = e'
  | Raise e, Raise e' => e = e'
  | _, _ => False
  end.
Proof.
  unfold analyze_metric.
  destruct (calculate_stats baseline_values) as [[bs|]|e]; cbn [bind];
    [| |reflexivity].
  2:{ destruct (calculate_stats esm_values) as [[es|]|e]; cbn [bind];
        [split; reflexivity|split; reflexivity|reflexivity]. }
  destruct (calculate_stats esm_values) as [[es|]|e]; cbn [bind];
    [|split; reflexivity|reflexivity].
  rewrite !improvement_eq.
  destruct (mean bs =? 0)%float; cbn [bind]; [reflexivity|].
  destruct (welch_t_test erf baseline_values esm_values) as [[t p]|e];
    cbn [bind]; [|reflexivity].
  destruct (cohens_d baseline_values esm_values) as [d|e];
    cbn [bind]; [|reflexivity].
  split; [apply polarity_pct_flip|].
  unfold polarity_flag.
  split; [apply ltb_asym|].
  repeat split.
Qed.

(** X5. When the comparator returns for the two samples in both orders,
    whatever the names and polarities, the two results agree on the
    p-value, the significance flag and the effect-size label, exchange
    their baseline and candidate statistics, and have opposite
    t-statistics and opposite Cohen's d. *)
Theorem analyze_metric_swap (erf : float -> float) (A B : list float)
    (name name' : string) (lower_is_better lower_is_better' : bool)
    (r r' : Result) :
  analyze_metric erf A B name lower_is_better = Ok r ->
  analyze_metric erf B A name' lower_is_better' = Ok r' ->
  is_error r = is_error r' /\
  baseline_of r = esm_of r' /\ esm_of r = baseline_of r' /\
  feq (t_statistic_of r) (- t_statistic_of r')%float = true /\
  p_value_of r = p_value_of r' /\
  feq (cohens_d_of r) (- cohens_d_of r')%float = true /\
  effect_size_of r = effect_size_of r' /\
  significant_of r = significant_of r'.
Proof.
  intros H H'. unfold analyze_metric in H, H'.
  destruct (calculate_stats A) as [sa|e]; [|discriminate].
  destruct (calculate_stats B) as [sb|e]; [|discriminate].
  cbn [bind] in H, H'.
  destruct sa as [sa|], sb as [sb|];
    try (injection H as <-; injection H' as <-; repeat split; fail).
  pose proof (welch_t_test_swap erf A B) as W.
  pose proof (cohens_d_swap A B) as D.
  destruct (improvement _ (mean sa) _) as [[pct imp]|e]; [|discriminate].
  destruct (improvement _ (mean sb) _) as [[pct' imp']|e]; [|discriminate].
  cbn [bind] in H, H'.
  destruct (welch_t_test erf A B) as [[t p]|e]; [|discriminate].
  destruct (welch_t_test erf B A) as [[t' p']|e]; [|discriminate].
  destruct (cohens_d A B) as [d|e]; [|discriminate].
  destruct (cohens_d B A) as [d'|e]; [|discriminate].
  cbn [bind] in H, H'. injection H as <-. injection H' as <-.
  destruct W as [Wt ->]. cbn.
  rewrite (effect_size_interpretation_opp _ _ D).
  repeat split; assumption.
Qed.

Lemma analyze_metric_swap_witness :
  exists r r',
    analyze_metric (fun x => x) [1; 2; 3]%float [2; 4; 9]%float
      "latency" true = Ok r /\
    analyze_metric (fun x => x) [2; 4; 9]%float [1; 2; 3]%float
      "latency" true = Ok r' /\
    improved_of r = false /\ improved_of r' = true /\
    significant_of r = true /\ significant_of r = significant_of r'.
Proof.
  do 2 eexists. split; [vm_compute; reflexivity|].
  split; [vm_compute; reflexivity|].
  split; [reflexivity|]. split; [reflexivity|]. split; [reflexivity|].
  refine (proj2 (proj2 (proj2 (proj2 (proj2 (proj2 (proj2
    (analyze_metric_swap (fun x => x) [1; 2; 3]%float [2; 4; 9]%float
       "latency" "latency" true true _ _ eq_refl eq_refl)))))))).
Defined.

(** ** Positive numbers: conversion of a length, square root *)

Section PositiveValues.
Local Open Scope Z_scope.

Lemma rounded_valid s m1 E :
  wf_round m1 E -> valid_binary (rounded s m1 E) = true.
Proof.
  intros W. pose proof W as [HE [B N]]. unfold rounded.
  destruct (Z.eqb_spec m1 0); [reflexivity|].
  destruct (Z.ltb_spec m1 (2 ^ 53)) as [U|U].
  - destruct (Z.leb_spec E 971) as [L|L]; [|reflexivity].
    pose proof (wf_round_canon m1 E W ltac:(lia)) as C.
    unfold valid_binary, SpecFloat.bounded, canonical_mantissa.
    unfold canon in C. rewrite C, Z.eqb_refl.
    apply Z.leb_le. exact L.
  - destruct (Z.leb_spec (E + 1) 971) as [L|L]; [|reflexivity].
    pose proof (canon_2p52 E HE) as C.
    unfold valid_binary, SpecFloat.bounded, canonical_mantissa.
    unfold canon in C. rewrite C, Z.eqb_refl.
    apply Z.leb_le. exact L.
Qed.

Lemma binary_normalize_valid m e :
  valid_binary (binary_normalize prec emax m e false) = true.
Proof.
  destruct m as [|p|p]; unfold binary_normalize; [reflexivity| |].
  - destruct (binary_round_wf false p e) as [m1 [-> [W _]]].
    now apply rounded_valid.
  - destruct (binary_round_wf true p e) as [m1 [-> [W _]]].
    now apply rounded_valid.
Qed.

Lemma float_of_nat_spec (n : nat) :
  Prim2SF (float_of_nat n)
  = binary_normalize prec emax (Z.of_nat n) 0 false.
Proof. apply Prim2SF_SF2Prim, binary_normalize_valid. Qed.

Lemma float_of_nat_pos (n : nat) :
  (1 <= n)%nat -> sf_pos_mag (Prim2SF (float_of_nat n)) 1.
Proof.
  intros H. rewrite float_of_nat_spec.
  destruct (Z.of_nat n) as [|p|p] eqn:E; try lia.
  unfold binary_normalize.
  pose proof (binary_round_mag p 0 ltac:(lia)) as R.
  destruct R as [R|[m [e [R [C K]]]]]; [now left|right].
  exists m, e. split; [exact R|split; [exact C|lia]].
Qed.

(** The square root of a positive number is positive. *)
Lemma SFsqrt_pos_finite (m : positive) (e : Z) :
  canon m e ->
  exists k, sf_pos_mag (SF64sqrt (S754_finite false m e)) k.
Proof.
  intros C. unfold SF64sqrt, SFsqrt, SFsqrt_core_binary.
  unfold Zdigits2.
  destruct (canon_facts _ _ C) as [A [U L]].
  pose proof (digits_bounds m) as [DL DU].
  assert (HC : Z.max (Z.pos (digits2_pos m) + e - 53) (-1074) = e)
    by (unfold canon in C; now rewrite fexp_eq in C).
  rewrite fexp_eq, Z.div2_div, Z.div2_div.
  set (d := Z.pos (digits2_pos m)) in *.
  assert (Hd : 0 < d) by (unfold d; lia).
  pose proof (Z.div_mod (d + e + 1) 2 ltac:(lia)) as DM.
  pose proof (Z.mod_pos_bound (d + e + 1) 2 ltac:(lia)) as MB.
  pose proof (Z.div_mod e 2 ltac:(lia)) as DMe.
  pose proof (Z.mod_pos_bound e 2 ltac:(lia)) as MBe.
  set (h := (d + e + 1) / 2) in *.
  set (r := (d + e + 1) mod 2) in *.
  set (e' := Z.min (Z.max (h - 53) (-1074)) (e / 2)).
  assert (He' : e' = h - 53) by (unfold e'; lia).
  assert (Hs : e - 2 * e' = 105 - d + r) by lia.
  destruct (e - 2 * e') as [|sh|sh] eqn:S; try lia.
  rewrite Z.shiftl_mul_pow2 by lia.
  rewrite Hs.
  set (m' := Z.pos m * 2 ^ (105 - d + r)).
  assert (P : forall k, 0 <= k -> 0 < 2 ^ k) by (intros; now apply pow2_pos).
  assert (Lo : 2 ^ 52 * 2 ^ 52 <= m').
  { unfold m'. rewrite <- pow2_split by lia.
    replace (52 + 52) with ((d - 1) + (105 - d)) by lia.
    rewrite pow2_split by lia.
    apply Z.mul_le_mono_nonneg;
      [apply Z.lt_le_incl, P; lia | exact DL
      |apply Z.lt_le_incl, P; lia | apply Z.pow_le_mono_r; lia]. }
  assert (Hi : m' < 2 ^ 53 * 2 ^ 53).
  { unfold m'. rewrite <- pow2_split by lia.
    apply Z.lt_le_trans with (2 ^ d * 2 ^ (105 - d + r)).
    - apply Z.mul_lt_mono_pos_r; [apply P; lia|lia].
    - rewrite <- pow2_split by lia. apply Z.pow_le_mono_r; lia. }
  assert (M0 : 0 <= m').
  { pose proof (P 52 ltac:(lia)).
    assert (0 <= 2 ^ 52 * 2 ^ 52) by (apply Z.mul_nonneg_nonneg; lia). lia. }
  pose proof (Z.sqrtrem_sqrt m') as Q.
  destruct (Z.sqrtrem m') as [q rr]. simpl in Q. subst q.
  assert (QL : 2 ^ 52 <= Z.sqrt m').
  { apply Z.sqrt_le_square; try lia; apply Z.lt_le_incl, P; lia. }
  assert (QU : Z.sqrt m' < 2 ^ 53).
  { apply Z.sqrt_lt_square; try lia; apply Z.lt_le_incl, P; lia. }
  pose proof (P 52 ltac:(lia)) as P52.
  destruct (Z.sqrt m') as [|q|q] eqn:EQ; try lia.
  assert (DQ : Z.pos (digits2_pos q) = 53).
  { apply digits_unique. replace (53 - 1) with 52 by lia. lia. }
  eexists. apply binary_round_aux_big; rewrite DQ; lia.
Qed.

Lemma SFsqrt_pos (x : spec_float) (k : Z) :
  sf_pos_mag x k -> exists k', sf_pos_mag (SF64sqrt x) k'.
Proof.
  intros [->|[m [e [-> [C _]]]]].
  - exists 0. now left.
  - now apply SFsqrt_pos_finite.
Qed.

End PositiveValues.

(** ** The exceptions the code raises *)

Lemma SFadd_nonneg a b : sf_nonneg a -> sf_nonneg b -> sf_nonneg (SF64add a b).
Proof.
  intros Ha Hb.
  destruct (sf_nonneg_cases a Ha) as [->|[[sa ->]|[->|[ma [ea ->]]]]];
    destruct (sf_nonneg_cases b Hb) as [->|[[sb ->]|[->|[mb [eb ->]]]]];
    unfold SF64add, SFadd; try (left; reflexivity);
    try (right; reflexivity).
  all: try solve [right; repeat match goal with
                         | s : bool |- _ => destruct s
                         end; reflexivity].
  cbn [cond_Zopp].
  match goal with
  | |- sf_nonneg (binary_normalize _ _ (Z.pos ?p + Z.pos ?q)%Z _ _) =>
      change (Z.pos p + Z.pos q)%Z with (Z.pos (p + q))
  end.
  unfold binary_normalize.
  destruct (binary_round_wf false
              (fst (shl_align ma ea (Z.min ea eb)) +
               fst (shl_align mb eb (Z.min ea eb))) (Z.min ea eb))
    as [m1 [-> [W _]]].
  unfold rounded.
  repeat match goal with
  | |- context [if ?c then _ else _] => destruct c
  end; right; reflexivity.
Qed.

Lemma SFmul_self_nonneg x : sf_nonneg (SF64mul x x).
Proof.
  unfold SF64mul, SFmul. destruct x as [s|s| |s m e];
    try (left; reflexivity); try (right; destruct s; reflexivity).
  replace (xorb s s) with false by (now destruct s).
  apply binary_round_aux_nonneg.
Qed.

Lemma add_nonneg a b : f_nonneg a -> f_nonneg b -> f_nonneg (a + b).
Proof. unfold f_nonneg. rewrite add_spec. apply SFadd_nonneg. Qed.

Lemma py_pow2_nonneg x r : py_pow2 x = Ok r -> f_nonneg r.
Proof.
  unfold py_pow2. destruct (_ && _); [discriminate|]. intros [= <-].
  unfold f_nonneg. rewrite mul_spec. apply SFmul_self_nonneg.
Qed.

Lemma zero_nonneg : f_nonneg 0.
Proof. right. reflexivity. Qed.

Lemma sum_sq_from_nonneg values mean : forall acc r,
  f_nonneg acc -> sum_sq_from acc values mean = Ok r -> f_nonneg r.
Proof.
  induction values as [|x rest IH]; intros acc r Ha; simpl.
  - now intros [= <-].
  - intros H. bind_inv H. eapply IH; [|exact H].
    apply add_nonneg; [exact Ha|]. eapply py_pow2_nonneg; eassumption.
Qed.

Lemma sum_sq_nonneg values mean r : sum_sq values mean = Ok r -> f_nonneg r.
Proof. apply sum_sq_from_nonneg, zero_nonneg. Qed.

Lemma sf_pos_mag_nonneg x k : sf_pos_mag x k -> sf_nonneg x.
Proof. intros [->|[m [e [-> _]]]]; right; reflexivity. Qed.

Lemma sf_pos_mag_nonzero x k :
  sf_pos_mag x k -> SFeqb x (S754_zero false) = false.
Proof. intros [->|[m [e [-> _]]]]; reflexivity. Qed.

Lemma float_of_nat_nonneg (n : nat) : 1 <= n -> f_nonneg (float_of_nat n).
Proof. intros H. eapply sf_pos_mag_nonneg, float_of_nat_pos, H. Qed.

Lemma float_of_nat_nonzero (n : nat) :
  1 <= n -> (float_of_nat n =? 0)%float = false.
Proof.
  intros H. rewrite FloatAxioms.eqb_spec, Prim2SF_zero.
  eapply sf_pos_mag_nonzero, float_of_nat_pos, H.
Qed.

Lemma sqrt_float_of_nat_nonzero (n : nat) :
  1 <= n -> (PrimFloat.sqrt (float_of_nat n) =? 0)%float = false.
Proof.
  intros H. rewrite FloatAxioms.eqb_spec, Prim2SF_zero, sqrt_spec.
  destruct (SFsqrt_pos _ _ (float_of_nat_pos n H)) as [k K].
  eapply sf_pos_mag_nonzero, K.
Qed.

Lemma div_float_of_nat_nonneg x (n : nat) :
  1 <= n -> f_nonneg x -> f_nonneg (x / float_of_nat n).
Proof.
  intros H Hx. apply div_nonneg; [exact Hx| |].
  - now apply float_of_nat_nonneg.
  - now apply float_of_nat_nonzero.
Qed.

Lemma py_sqrt_nonneg_ok x : f_nonneg x -> py_sqrt x = Ok (PrimFloat.sqrt x).
Proof. intros H. unfold py_sqrt. now rewrite f_nonneg_not_neg. Qed.

(** Where a sum of squared deviations raises. *)
Lemma sum_sq_from_raise values mean e : forall acc,
  sum_sq_from acc values mean = Raise e ->
  e = OverflowError /\
  exists x, In x values /\ is_finite (x - mean) = true /\
            is_infinity ((x - mean) * (x - mean)) = true.
Proof.
  induction values as [|x rest IH]; intros acc; simpl; [discriminate|].
  unfold py_pow2 at 1.
  destruct (is_finite (x - mean) && is_infinity ((x - mean) * (x - mean)))
    eqn:O; cbn [bind].
  - intros [= <-]. split; [reflexivity|].
    apply andb_true_iff in O. exists x. tauto.
  - intros H. destruct (IH _ H) as [-> [y [Hy Y]]].
    split; [reflexivity|]. exists y. tauto.
Qed.

(** The statistics of a sample raise only what the sum of the squared
    deviations raises. *)
Lemma calculate_stats_raise_sum_sq (values : list float) (e : PyError) :
  calculate_stats values = Raise e ->
  2 <= List.length values /\
  sum_sq values (py_sum values / float_of_nat (List.length values))
  = Raise e.
Proof.
  destruct values as [|v vs]; [discriminate|]. unfold calculate_stats.
  set (l := v :: vs). assert (L : 1 <= List.length l) by (simpl; lia).
  rewrite py_div_int_ok by lia. cbn [bind].
  destruct (Nat.ltb_spec (List.length l) 2) as [N|N]; [discriminate|].
  destruct (sum_sq l _) as [sq|e'] eqn:S; cbn [bind].
  - rewrite py_div_int_ok by lia. cbn [bind].
    assert (V : f_nonneg (sq / float_of_nat (List.length l - 1))).
    { apply div_float_of_nat_nonneg; [lia|]. eapply sum_sq_nonneg, S. }
    rewrite (py_sqrt_nonneg_ok _ V). cbn [bind].
    rewrite (py_sqrt_nonneg_ok _ (float_of_nat_nonneg _ L)). cbn [bind].
    rewrite py_div_ok by now apply sqrt_float_of_nat_nonzero.
    discriminate.
  - intros [= <-]. split; [exact N|reflexivity].
Qed.

(** X6. The only exception the statistics of a sample can raise is
    [OverflowError], and only for at least 2 observations one of which
    has a finite deviation from the mean whose square is infinite: the
    divisions and square roots never fail. *)
Theorem calculate_stats_raises (values : list float) (e : PyError) :
  calculate_stats values = Raise e ->
  e = OverflowError /\ 2 <= List.length values /\
  exists x,
    let mean := (py_sum values / float_of_nat (List.length values))%float in
    In x values /\ is_finite (x - mean) = true /\
    is_infinity ((x - mean) * (x - mean)) = true.
Proof.
  intros H. apply calculate_stats_raise_sum_sq in H. destruct H as [N S].
  apply sum_sq_from_raise in S. destruct S as [-> X].
  split; [reflexivity|]. split; [exact N|exact X].
Qed.

Lemma calculate_stats_raises_witness :
  calculate_stats [1e200; -1e200]%float = Raise OverflowError /\
  OverflowError = OverflowError.
Proof.
  split; [vm_compute; reflexivity|].
  exact (proj1 (calculate_stats_raises [1e200; -1e200]%float OverflowError
                  eq_refl)).
Defined.

Lemma raises_only_overflow_pow2 x :
  raises_only (eq OverflowError) (py_pow2 x).
Proof. intros e H. symmetry. now apply py_pow2_overflow in H. Qed.

Lemma raises_only_overflow_sum_sq values mean :
  raises_only (eq OverflowError) (sum_sq values mean).
Proof. intros e H. symmetry. now apply sum_sq_overflow in H. Qed.

Lemma variance_nonneg values mean sq (k : nat) :
  1 <= k -> sum_sq values mean = Ok sq -> f_nonneg (sq / float_of_nat k).
Proof.
  intros K S. apply div_float_of_nat_nonneg; [exact K|].
  eapply sum_sq_nonneg, S.
Qed.

(** The significance tester raises nothing but [OverflowError]. *)
Lemma welch_t_test_overflow erf sample1 sample2 :
  raises_only (eq OverflowError) (welch_t_test erf sample1 sample2).
Proof.
  unfold welch_t_test.
  destruct (_ || _) eqn:N; [apply raises_only_Ok|].
  apply orb_false_elim in N. destruct N as [N1 N2].
  apply Nat.ltb_ge in N1, N2.
  repeat (rewrite py_div_int_ok by lia; cbn [bind]).
  apply raises_only_bind; [apply raises_only_overflow_sum_sq|intros sq1 S1].
  repeat (rewrite py_div_int_ok by lia; cbn [bind]).
  apply raises_only_bind; [apply raises_only_overflow_sum_sq|intros sq2 S2].
  repeat (rewrite py_div_int_ok by lia; cbn [bind]).
  assert (V1 := variance_nonneg _ _ _ (List.length sample1 - 1)
                  ltac:(lia) S1).
  assert (V2 := variance_nonneg _ _ _ (List.length sample2 - 1)
                  ltac:(lia) S2).
  rewrite py_sqrt_nonneg_ok
    by (apply add_nonneg; apply div_float_of_nat_nonneg;
        solve [lia | assumption]).
  cbn [bind].
  destruct (_ =? 0)%float eqn:Z; [apply raises_only_Ok|].
  rewrite py_div_ok by exact Z. cbn [bind].
  apply raises_only_bind; [apply raises_only_overflow_pow2|intros num _].
  apply raises_only_bind; [apply raises_only_overflow_pow2|intros a2 _].
  repeat (rewrite py_div_int_ok by lia; cbn [bind]).
  apply raises_only_bind; [apply raises_only_overflow_pow2|intros b2 _].
  repeat (rewrite py_div_int_ok by lia; cbn [bind]).
  rewrite normal_cdf_eq.
  destruct (0 <? _)%float eqn:D;
    [rewrite py_div_ok by now apply pos_not_zero|]; cbn [bind];
    apply raises_only_Ok.
Qed.

Lemma cohens_d_overflow sample1 sample2 :
  raises_only (eq OverflowError) (cohens_d sample1 sample2).
Proof.
  unfold cohens_d.
  destruct (_ || _) eqn:N; [apply raises_only_Ok|].
  apply orb_false_elim in N. destruct N as [N1 N2].
  apply Nat.ltb_ge in N1, N2.
  repeat (rewrite py_div_int_ok by lia; cbn [bind]).
  apply raises_only_bind; [apply raises_only_overflow_sum_sq|intros sq1 S1].
  repeat (rewrite py_div_int_ok by lia; cbn [bind]).
  apply raises_only_bind; [apply raises_only_overflow_sum_sq|intros sq2 S2].
  repeat (rewrite py_div_int_ok by lia; cbn [bind]).
  assert (V1 := variance_nonneg _ _ _ (List.length sample1 - 1)
                  ltac:(lia) S1).
  assert (V2 := variance_nonneg _ _ _ (List.length sample2 - 1)
                  ltac:(lia) S2).
  rewrite py_sqrt_nonneg_ok.
  2:{ apply div_float_of_nat_nonneg; [lia|].
      apply add_nonneg; apply mul_nonneg;
        solve [assumption | apply float_of_nat_nonneg; lia]. }
  cbn [bind].
  destruct (_ =? 0)%float eqn:Z; [apply raises_only_Ok|].
  rewrite py_div_ok by exact Z. apply raises_only_Ok.
Qed.

(** X7. The significance test and the effect size raise nothing but
    [OverflowError], and only when both samples have at least 2
    observations: no input makes them divide by zero or take the square
    root of a negative number. *)
Theorem tests_raise_overflow_only (erf : float -> float)
    (sample1 sample2 : list float) (e : PyError) :
  welch_t_test erf sample1 sample2 = Raise e \/
  cohens_d sample1 sample2 = Raise e ->
  e = OverflowError /\
  2 <= List.length sample1 /\ 2 <= List.length sample2.
Proof.
  intros H. split.
  - destruct H as [H|H]; symmetry;
      [eapply welch_t_test_overflow | eapply cohens_d_overflow]; exact H.
  - assert (N : (List.length sample1 <? 2)%nat
                || (List.length sample2 <? 2)%nat = false).
    { destruct (_ || _) eqn:N; [|reflexivity].
      unfold welch_t_test, cohens_d in H. rewrite N in H.
      destruct H; discriminate. }
    apply orb_false_elim in N. destruct N as [N1 N2].
    apply Nat.ltb_ge in N1, N2. lia.
Qed.

Lemma tests_raise_overflow_only_witness :
  welch_t_test (fun x => x) [1e200; -1e200]%float [1; 2]%float
  = Raise OverflowError /\
  2 <= List.length [1e200; -1e200]%float.
Proof.
  split; [vm_compute; reflexivity|].
  exact (proj1 (proj2 (tests_raise_overflow_only (fun x => x)
                         [1e200; -1e200]%float [1; 2]%float OverflowError
                         (or_introl eq_refl)))).
Defined.

(** Why the comparator raised. *)
Lemma analyze_metric_raise_cases (erf : float -> float)
    (baseline_values esm_values : list float) (name : string)
    (lower_is_better : bool) (e : PyError) :
  analyze_metric erf baseline_values esm_values name lower_is_better
  = Raise e ->
  e = OverflowError \/
  (e = ZeroDivisionError /\
   exists bs es,
     calculate_stats baseline_values = Ok (Some bs) /\
     calculate_stats esm_values = Ok (Some es) /\
     (mean bs =? 0)%float = true).
Proof.
  unfold analyze_metric.
  destruct (calculate_stats baseline_values) as [bs|eb] eqn:Eb; cbn [bind].
  2:{ intros [= <-]. left.
      apply calculate_stats_raise_sum_sq in Eb. destruct Eb as [_ Eb].
      now apply sum_sq_overflow in Eb. }
  destruct (calculate_stats esm_values) as [es|ee] eqn:Ee; cbn [bind].
  2:{ intros [= <-]. left.
      apply calculate_stats_raise_sum_sq in Ee. destruct Ee as [_ Ee].
      now apply sum_sq_overflow in Ee. }
  destruct bs as [bs|]; [|discriminate].
  destruct es as [es|]; [|discriminate].
  rewrite improvement_eq.
  destruct (mean bs =? 0)%float eqn:Z; cbn [bind].
  - intros [= <-]. right. split; [reflexivity|]. now exists bs, es.
  - destruct (welch_t_test erf baseline_values esm_values) as [[t p]|ew] eqn:W;
      cbn [bind].
    2:{ intros [= <-]. left. symmetry.
        eapply welch_t_test_overflow, W. }
    destruct (cohens_d baseline_values esm_values) as [d|ed] eqn:D;
      cbn [bind]; [discriminate|].
    intros [= <-]. left. symmetry. eapply cohens_d_overflow, D.
Qed.

(** X8. The comparator raises only [OverflowError] or
    [ZeroDivisionError], never [ValueError]; and it raises
    [ZeroDivisionError] exactly when the statistics of both samples were
    computed and the baseline mean equals 0. *)
Theorem analyze_metric_raises (erf : float -> float)
    (baseline_values esm_values : list float) (name : string)
    (lower_is_better : bool) :
  (forall e,
     analyze_metric erf baseline_values esm_values name lower_is_better
     = Raise e ->
     e = OverflowError \/ e = ZeroDivisionError) /\
  (analyze_metric erf baseline_values esm_values name lower_is_better
   = Raise ZeroDivisionError <->
   exists bs es,
     calculate_stats baseline_values = Ok (Some bs) /\
     calculate_stats esm_values = Ok (Some es) /\
     (mean bs =? 0)%float = true).
Proof.
  split; [|split].
  - intros e H. apply analyze_metric_raise_cases in H.
    destruct H as [->|[-> _]]; [now left|now right].
  - intros H. apply analyze_metric_raise_cases in H.
    destruct H as [H|[_ H]]; [discriminate|exact H].
  - intros [bs [es [Eb [Ee Z]]]]. unfold analyze_metric.
    rewrite Eb, Ee. cbn [bind]. rewrite improvement_eq, Z. reflexivity.
Qed.

Lemma analyze_metric_raises_witness :
  analyze_metric (fun x => x) [0; 0; 0]%float [80%float] "latency" true
  = Raise ZeroDivisionError.
Proof.
  apply (proj2 (proj2 (analyze_metric_raises (fun x => x) [0; 0; 0]%float
                         [80%float] "latency" true))).
  exists (mkStatistics 3 0 0 0 0 0 0), (mkStatistics 1 80 0 80 80 80 80).
  split; [vm_compute; reflexivity|].
  split; [vm_compute; reflexivity|reflexivity].
Defined.

(** ** The results [main] collects *)

Lemma subseq_refl {A} (l : list A) : subseq l l.
Proof. induction l; [apply subseq_nil | now apply subseq_take]. Qed.

Lemma subseq_nil_l {A} (l : list A) : subseq [] l.
Proof. induction l; [apply subseq_nil | now apply subseq_skip]. Qed.

Lemma subseq_app {A} (a b c d : list A) :
  subseq a b -> subseq c d -> subseq (a ++ c) (b ++ d).
Proof.
  induction 1; intros Hcd; simpl;
    [exact Hcd | apply subseq_skip; auto | apply subseq_take; auto].
Qed.

Lemma subseq_length {A} (a b : list A) :
  subseq a b -> List.length a <= List.length b.
Proof. induction 1; simpl; lia. Qed.

Lemma subseq_In {A} (a b : list A) (x : A) : subseq a b -> In x a -> In x b.
Proof.
  induction 1; simpl; intros Hin; auto.
  destruct Hin as [Hin|Hin]; auto.
Qed.

Lemma subseq_NoDup {A} (a b : list A) : subseq a b -> NoDup b -> NoDup a.
Proof.
  induction 1; intros N; auto.
  - inversion N; auto.
  - inversion N as [|? ? Hn N']; subst. constructor; auto.
    intros Hin. apply Hn. eapply subseq_In; eassumption.
Qed.

(** What a returned comparison of two non-empty samples holds. *)
Lemma analyze_metric_Ok_inv erf B E name lob r :
  B <> [] -> E <> [] ->
  analyze_metric erf B E name lob = Ok r ->
  exists bs es t p d,
    calculate_stats B = Ok (Some bs) /\ calculate_stats E = Ok (Some es) /\
    (mean bs =? 0)%float = false /\
    welch_t_test erf B E = Ok (t, p) /\ cohens_d B E = Ok d /\
    r = Comparison name bs es
          (polarity_pct lob (mean bs) (mean es))
          (polarity_flag lob (mean bs) (mean es))
          t p d (effect_size_interpretation d) (p <? 0.05)%float.
Proof.
  intros HB HE H. unfold analyze_metric in H.
  destruct (calculate_stats B) as [[bs|]|e] eqn:Eb; cbn [bind] in H;
    [| |discriminate].
  2:{ apply calculate_stats_nil_iff in Eb.
      now destruct (HB (proj1 Eb eq_refl)). }
  destruct (calculate_stats E) as [[es|]|e] eqn:Ee; cbn [bind] in H;
    [| |discriminate].
  2:{ apply calculate_stats_nil_iff in Ee.
      now destruct (HE (proj1 Ee eq_refl)). }
  rewrite improvement_eq in H.
  destruct (mean bs =? 0)%float eqn:Z; cbn [bind] in H; [discriminate|].
  destruct (welch_t_test erf B E) as [[t p]|e]; cbn [bind] in H;
    [|discriminate].
  destruct (cohens_d B E) as [d|e]; cbn [bind] in H; [|discriminate].
  injection H as <-. exists bs, es, t, p, d.
  repeat split; solve [assumption | reflexivity].
Qed.

Section MainFacts.

Variable erf : float -> float.
Variable py_float : string -> Py float.

Lemma append_metric_inv results baseline_vals esm_vals name results' :
  append_metric erf results baseline_vals esm_vals name = Ok results' ->
  exists extra,
    results' = results ++ extra /\
    subseq (map metric_of extra) [name] /\ Forall appended extra /\
    (extra = [] <-> baseline_vals = [] \/ esm_vals = []).
Proof.
  unfold append_metric. intros H.
  destruct baseline_vals as [|b bv].
  { injection H as <-. exists []. rewrite app_nil_r.
    repeat split; auto; try (apply subseq_nil_l). }
  destruct esm_vals as [|c cv].
  { injection H as <-. exists []. rewrite app_nil_r.
    repeat split; auto; try (apply subseq_nil_l). }
  bind_inv H. injection H as <-.
  match goal with
  | E : analyze_metric _ _ _ _ _ = Ok ?a |- _ =>
      apply analyze_metric_Ok_inv in E; try discriminate;
      destruct E as [bs [es [t [p [d [_ [_ [Z [_ [_ ->]]]]]]]]]]
  end.
  eexists [_]. split; [reflexivity|].
  split; [apply subseq_refl|]. split.
  - constructor; [|constructor]. split; [reflexivity|].
    exists bs, es. repeat split. exact Z.
  - split; [discriminate|]. intros [?|?]; discriminate.
Qed.

Lemma metric_step_inv baseline esm keep key name results results' :
  metric_step erf py_float baseline esm keep key name results = Ok results' ->
  exists extra,
    results' = results ++ extra /\
    subseq (map metric_of extra) [name] /\ Forall appended extra /\
    (extra = [] <->
     column py_float baseline keep key = Ok [] \/
     column py_float esm keep key = Ok []).
Proof.
  unfold metric_step. intros H. bind_inv H. bind_inv H.
  apply append_metric_inv in H.
  destruct H as [extra [-> [S [F X]]]]. exists extra.
  repeat split; auto.
  - intros N. apply X in N. destruct N as [->| ->]; auto.
  - intros [N|N]; apply X; [left|right]; congruence.
Qed.

Lemma latency_loop_inv baseline esm todo : forall results results',
  latency_loop erf py_float baseline esm todo results = Ok results' ->
  exists extra,
    results' = results ++ extra /\
    subseq (map metric_of extra) (map latency_name todo) /\
    Forall appended extra.
Proof.
  induction todo as [|s rest IH]; intros results results' H; simpl in H.
  - injection H as <-. exists []. rewrite app_nil_r.
    repeat split; constructor.
  - bind_inv H. apply IH in H. destruct H as [x2 [-> [S2 F2]]].
    match goal with
    | E : metric_step _ _ _ _ _ _ _ _ = Ok _ |- _ =>
        apply metric_step_inv in E; destruct E as [x1 [-> [S1 [F1 _]]]]
    end.
    exists (x1 ++ x2). rewrite app_assoc. split; [reflexivity|].
    split.
    + rewrite map_app. apply (subseq_app _ [latency_name s]); assumption.
    + apply Forall_app. split; assumption.
Qed.

Lemma main_results_inv t results :
  main_results erf py_float t = Ok results ->
  subseq (map metric_of results) metric_names /\ Forall appended results.
Proof.
  unfold main_results. intros H.
  bind_inv H. bind_inv H. bind_inv H. bind_inv H.
  apply latency_loop_inv in E. destruct E as [x0 [-> [S0 F0]]].
  apply metric_step_inv in E0. destruct E0 as [x1 [-> [S1 [F1 _]]]].
  apply metric_step_inv in E1. destruct E1 as [x2 [-> [S2 [F2 _]]]].
  apply metric_step_inv in E2. destruct E2 as [x3 [-> [S3 [F3 _]]]].
  apply metric_step_inv in H. destruct H as [x4 [-> [S4 [F4 _]]]].
  split.
  - rewrite !map_app. simpl app.
    change metric_names with
      (map latency_name scenarios ++
       ["CPU - system_server (%)"%string] ++ ["CPU - Total (%)"%string] ++
       ["Syscalls (per 100 events)"%string] ++ ["Wakeups per second"%string]).
    rewrite <- !app_assoc.
    repeat (apply subseq_app; try assumption).
  - repeat (apply Forall_app; split); try assumption. constructor.
Qed.

End MainFacts.

Lemma subseq_trans {A} (a b c : list A) :
  subseq a b -> subseq b c -> subseq a c.
Proof.
  intros Hab Hbc. revert a Hab.
  induction Hbc as [|x l1 l2 H IH|x l1 l2 H IH]; intros a Hab.
  - exact Hab.
  - apply subseq_skip. now apply IH.
  - inversion Hab as [|y a' l1' Ha|y a' l1' Ha]; subst.
    + apply subseq_skip. now apply IH.
    + apply subseq_take. now apply IH.
Qed.

Lemma subseq_map_filter {A B} (f : A -> B) (p : A -> bool) (l : list A) :
  subseq (map f (filter p l)) (map f l).
Proof.
  induction l as [|x l IH]; simpl; [apply subseq_nil|].
  destruct (p x); simpl; [now apply subseq_take | now apply subseq_skip].
Qed.

Lemma NoDup_map_inj {A B} (f : A -> B) (l : list A) (x y : A) :
  NoDup (map f l) -> In x l -> In y l -> f x = f y -> x = y.
Proof.
  induction l as [|a l IH]; simpl; [tauto|].
  intros N Hx Hy E. inversion N as [|? ? Hn N']; subst.
  destruct Hx as [<-|Hx], Hy as [<-|Hy]; auto.
  - exfalso. apply Hn. rewrite E. now apply in_map.
  - exfalso. apply Hn. rewrite <- E. now apply in_map.
Qed.

Lemma metric_names_NoDup : NoDup metric_names.
Proof.
  unfold metric_names.
  repeat (constructor; [simpl; intros H;
                        repeat (destruct H as [H|H]; [discriminate|]);
                        exact H|]).
  constructor.
Qed.

(** The two lists of the Conclusions loop as filters of the results. *)
Lemma conclusions_fold_filter (results : list Result) : forall acc,
  fold_left conclusions_step results acc
  = (fst acc ++
       map metric_of
         (filter (fun r => negb (is_error r) && significant_of r
                           && improved_of r) results),
     snd acc ++
       map metric_of
         (filter (fun r => negb (is_error r) && negb (improved_of r))
            results)).
Proof.
  induction results as [|r rest IH]; intros [v u]; simpl.
  - now rewrite !app_nil_r.
  - rewrite IH. destruct r as [m e|m b e pct imp t p d ef sg]; simpl.
    + reflexivity.
    + destruct sg, imp; simpl; rewrite <- ?app_assoc; reflexivity.
Qed.

(** X9. The Conclusions loop keeps the order of the results: the validated
    list is the names of the comparisons that are significant and improved,
    the unvalidated list the names of the comparisons that are not
    improved, each in result order and once per such result. *)
Theorem conclusions_filter (results : list Result) :
  conclusions results
  = (map metric_of
       (filter (fun r => negb (is_error r) && significant_of r
                         && improved_of r) results),
     map metric_of
       (filter (fun r => negb (is_error r) && negb (improved_of r))
          results)).
Proof. unfold conclusions. now rewrite conclusions_fold_filter. Qed.

(** X10. Every result [main] collects is a comparison, never the
    "Insufficient data" record: the guard on the two value lists keeps
    empty samples from the comparator.  Each is analysed with lower is
    better: its baseline mean is not 0, its flag is [esm mean < baseline
    mean] and its percentage [(baseline - esm) / baseline * 100]. *)
Theorem main_results_comparisons (erf : float -> float)
    (py_float : string -> Py float) (t : Tables) (results : list Result) :
  main_results erf py_float t = Ok results -> Forall appended results.
Proof. intros H. now apply main_results_inv in H. Qed.

Lemma main_results_comparisons_witness :
  main_results (fun x => x) sample_float sample_tables
  = Ok [Comparison "Latency - Scroll (ms)"
          (mkStatistics 1 100 0 100 100 100 100)
          (mkStatistics 1 80 0 80 80 80 80)
          20 true 0 1 0 "negligible" false] /\
  Forall appended
    [Comparison "Latency - Scroll (ms)"
       (mkStatistics 1 100 0 100 100 100 100)
       (mkStatistics 1 80 0 80 80 80 80)
       20 true 0 1 0 "negligible" false].
Proof.
  split; [vm_compute; reflexivity|].
  exact (main_results_comparisons (fun x => x) sample_float sample_tables
           _ eq_refl).
Defined.

(** X11. The metric names of the results [main] collects are the seven
    fixed names with some dropped, in the order of the calls: at most 7
    results, no name twice. *)
Theorem main_results_names (erf : float -> float)
    (py_float : string -> Py float) (t : Tables) (results : list Result) :
  main_results erf py_float t = Ok results ->
  subseq (map metric_of results) metric_names /\
  List.length results <= 7 /\
  NoDup (map metric_of results).
Proof.
  intros H. apply main_results_inv in H. destruct H as [S _].
  split; [exact S|]. split.
  - apply subseq_length in S. now rewrite length_map in S.
  - eapply subseq_NoDup; [exact S|apply metric_names_NoDup].
Qed.

Lemma main_results_names_witness :
  exists results,
    main_results (fun x => x) sample_float sample_tables = Ok results /\
    map metric_of results = ["Latency - Scroll (ms)"%string] /\
    subseq (map metric_of results) metric_names.
Proof.
  eexists. split; [vm_compute; reflexivity|]. split; [reflexivity|].
  exact (proj1 (main_results_names (fun x => x) sample_float sample_tables
                  _ eq_refl)).
Defined.

(** X12. On the results of [main] the two lists of the Conclusions hold
    names out of the seven, in the order of the calls, none twice, and no
    metric is in both lists. *)
Theorem main_conclusions (erf : float -> float)
    (py_float : string -> Py float) (t : Tables) (results : list Result) :
  main_results erf py_float t = Ok results ->
  let validated := fst (conclusions results) in
  let refuted := snd (conclusions results) in
  subseq validated metric_names /\ subseq refuted metric_names /\
  NoDup validated /\ NoDup refuted /\
  forall m, In m validated -> ~ In m refuted.
Proof.
  intros H. apply main_results_inv in H. destruct H as [S _].
  unfold conclusions. rewrite conclusions_fold_filter. cbn [fst snd app].
  assert (N : NoDup (map metric_of results))
    by (eapply subseq_NoDup; [exact S|apply metric_names_NoDup]).
  assert (Sv := subseq_map_filter metric_of
                  (fun r => negb (is_error r) && significant_of r
                            && improved_of r) results).
  assert (Su := subseq_map_filter metric_of
                  (fun r => negb (is_error r) && negb (improved_of r))
                  results).
  split; [eapply subseq_trans; eassumption|].
  split; [eapply subseq_trans; eassumption|].
  split; [eapply subseq_NoDup; eassumption|].
  split; [eapply subseq_NoDup; eassumption|].
  intros m Hv Hu.
  apply in_map_iff in Hv. destruct Hv as [r1 [E1 H1]].
  apply in_map_iff in Hu. destruct Hu as [r2 [E2 H2]].
  apply filter_In in H1. destruct H1 as [I1 P1].
  apply filter_In in H2. destruct H2 as [I2 P2].
  assert (r1 = r2)
    by (apply (NoDup_map_inj metric_of results); congruence).
  subst r2.
  apply andb_true_iff in P1. destruct P1 as [_ P1].
  apply andb_true_iff in P2. destruct P2 as [_ P2].
  rewrite P1 in P2. discriminate.
Qed.

Lemma main_conclusions_witness :
  exists results,
    main_results (fun x => x) sample_float sample_tables = Ok results /\
    conclusions results = ([], []) /\
    NoDup (fst (conclusions results)).
Proof.
  eexists. split; [vm_compute; reflexivity|]. split; [reflexivity|].
  exact (proj1 (proj2 (proj2
           (main_conclusions (fun x => x) sample_float sample_tables
              _ eq_refl)))).
Defined.

(** X13. A comprehension of [main] over a table parses exactly the cells
    of the kept rows that are present and not empty, in row order; rows
    without such a cell are skipped without being parsed, and the
    comprehension raises only what [float] raises on one of those cells. *)
Theorem column_cells (py_float : string -> Py float) (rows : list Row)
    (keep : Row -> bool) (key : string) :
  match column py_float rows keep key with
  | Ok xs =>
      Forall2 (fun r x => exists cell, get r key = Some cell /\
                                       cell <> EmptyString /\
                                       py_float cell = Ok x)
        (filter (fun r => keep r &&
                          match get r key with
                          | Some (String _ _) => true
                          | _ => false
                          end) rows) xs
  | Raise e =>
      exists r cell, In r rows /\ keep r = true /\
                     get r key = Some cell /\ cell <> EmptyString /\
                     py_float cell = Raise e
  end.
Proof.
  induction rows as [|r rest IH]; simpl; [constructor|].
  destruct (get r key) as [[|c s]|] eqn:G;
    rewrite ?andb_false_r.
  - destruct (column py_float rest keep key) as [xs|e]; [exact IH|].
    destruct IH as [r' [cell [I H]]]. exists r', cell. tauto.
  - destruct (keep r) eqn:K; simpl.
    + destruct (py_float (String c s)) as [x|e] eqn:P; cbn [bind].
      * destruct (column py_float rest keep key) as [xs|e]; cbn [bind].
        -- constructor; [|exact IH]. exists (String c s).
           repeat split; auto. discriminate.
        -- destruct IH as [r' [cell [I H]]]. exists r', cell. tauto.
      * exists r, (String c s). repeat split; auto. discriminate.
    + destruct (column py_float rest keep key) as [xs|e]; [exact IH|].
      destruct IH as [r' [cell [I H]]]. exists r', cell. tauto.
  - destruct (column py_float rest keep key) as [xs|e]; [exact IH|].
    destruct IH as [r' [cell [I H]]]. exists r', cell. tauto.
Qed.

Section MainOutcome.

Variable erf : float -> float.
Variable py_float : string -> Py float.

Lemma metric_step_empty baseline esm keep key name results results' :
  metric_step erf py_float baseline esm keep key name results = Ok results' ->
  exists extra, results' = results ++ extra /\
                (extra = [] <-> no_data py_float baseline esm keep key).
Proof.
  intros H. apply metric_step_inv in H.
  destruct H as [extra [-> [_ [_ X]]]]. now exists extra.
Qed.

Lemma latency_loop_empty baseline esm todo : forall results results',
  latency_loop erf py_float baseline esm todo results = Ok results' ->
  exists extra,
    results' = results ++ extra /\
    (extra = [] <->
     forall s, In s todo ->
       no_data py_float baseline esm
         (fun r => get_eqb r "scenario" s) "latency_ms").
Proof.
  induction todo as [|s rest IH]; intros results results' H; simpl in H.
  - injection H as <-. exists []. rewrite app_nil_r.
    split; [reflexivity|]. split; [intros _ s []|reflexivity].
  - bind_inv H. apply IH in H. destruct H as [x2 [-> X2]].
    apply metric_step_empty in E. destruct E as [x1 [-> X1]].
    exists (x1 ++ x2). rewrite app_assoc. split; [reflexivity|].
    split.
    + intros N. apply app_eq_nil in N. destruct N as [N1 N2].
      intros s' [<-|Hs]; [now apply X1 | now apply X2].
    + intros A. rewrite (proj2 X1), (proj2 X2); auto.
      * intros s' Hs. apply A. now right.
      * apply A. now left.
Qed.

Lemma main_results_empty t results :
  main_results erf py_float t = Ok results ->
  (results = [] <-> nothing_to_analyze py_float t).
Proof.
  unfold main_results, nothing_to_analyze. intros H.
  bind_inv H. bind_inv H. bind_inv H. bind_inv H.
  apply latency_loop_empty in E. destruct E as [x0 [-> X0]].
  apply metric_step_empty in E0. destruct E0 as [x1 [-> X1]].
  apply metric_step_empty in E1. destruct E1 as [x2 [-> X2]].
  apply metric_step_empty in E2. destruct E2 as [x3 [-> X3]].
  apply metric_step_empty in H. destruct H as [x4 [-> X4]].
  simpl app. split.
  - intros N.
    repeat (apply app_eq_nil in N; destruct N as [N ?]).
    repeat split; [apply X0|apply X1|apply X2|apply X3|apply X4]; assumption.
  - intros [A0 [A1 [A2 [A3 A4]]]].
    rewrite (proj2 X0 A0), (proj2 X1 A1), (proj2 X2 A2), (proj2 X3 A3),
      (proj2 X4 A4).
    reflexivity.
Qed.

End MainOutcome.

(** X14. When [main] completes, it reports that there is nothing to
    analyze exactly when each of the seven metrics has no usable cell on
    one side at least; otherwise it generates the report from a non-empty
    list of results. *)
Theorem main_outcome (erf : float -> float) (py_float : string -> Py float)
    (t : Tables) (o : Outcome) :
  main erf py_float t = Ok o ->
  (o = NoResults <-> nothing_to_analyze py_float t) /\
  (forall results, o = Report results ->
     main_results erf py_float t = Ok results /\ results <> []).
Proof.
  unfold main. intros H. bind_inv H.
  pose proof (main_results_empty erf py_float t a E) as X.
  destruct a as [|r rs]; injection H as <-.
  - split; [|discriminate]. split; [intros _; now apply X|reflexivity].
  - split.
    + split; [discriminate|]. intros A. apply X in A. discriminate.
    + intros results [= <-]. split; [exact E|discriminate].
Qed.

Lemma main_outcome_witness :
  exists results,
    main (fun x => x) sample_float sample_tables = Ok (Report results) /\
    main_results (fun x => x) sample_float sample_tables = Ok results /\
    results <> [].
Proof.
  eexists. split; [vm_compute; reflexivity|].
  exact (proj2 (main_outcome (fun x => x) sample_float sample_tables
                  _ eq_refl) _ eq_refl).
Defined.

(** ** The direction of the change *)

Section SignOfDifference.
Local Open Scope Z_scope.

Lemma SFsub_opp_swap x y : SF64sub x y = SF64sub (SFopp y) (SFopp x).
Proof.
  unfold SF64sub, SFsub.
  destruct x as [sx|sx| |sx mx ex], y as [sy|sy| |sy my ey]; simpl;
    try reflexivity; try (destruct sx, sy; reflexivity);
    try (destruct sx; reflexivity); try (destruct sy; reflexivity).
  rewrite (Z.min_comm ey ex). f_equal.
  destruct sx, sy; simpl; lia.
Qed.

Lemma SFltb_opp a b : SFltb a b = true -> SFltb (SFopp b) (SFopp a) = true.
Proof.
  unfold SFltb, SFcompare.
  destruct a as [sa|sa| |sa ma ea], b as [sb|sb| |sb mb eb]; simpl;
    repeat match goal with
    | |- context [Pos.compare_cont Eq ?a ?b] =>
        change (Pos.compare_cont Eq a b) with (Pos.compare a b)
    end;
    sf_cases.
Qed.

Lemma valid_opp x : valid_binary x = true -> valid_binary (SFopp x) = true.
Proof. now destruct x. Qed.

(** The difference of a number and a smaller one is not negative. *)
Lemma SFsub_lt_nonneg (x y : spec_float) :
  valid_binary x = true -> valid_binary y = true ->
  SFltb y x = true -> sf_nonneg (SF64sub x y).
Proof.
  intros Vx Vy H.
  destruct x as [sx|[]| |[] mx ex].
  - destruct y as [sy|[]| |[] my ey]; try (destruct sx; discriminate);
      unfold SF64sub, SFsub; destruct sx; right; reflexivity.
  - destruct y as [sy|[]| |[] my ey]; discriminate.
  - destruct y as [sy|[]| |[] my ey]; try discriminate;
      right; reflexivity.
  - destruct y as [sy|[]| |[] my ey]; discriminate.
  - rewrite SFsub_opp_swap. apply SFltb_opp in H.
    eapply sf_pos_mag_nonneg.
    apply SFsub_gt_pos_mag; [exact Vx|now apply valid_opp|exact H].
  - eapply sf_pos_mag_nonneg. now apply SFsub_lt_pos_mag.
Qed.

Lemma sf_sim_opp_nonpos a b :
  sf_sim a (SFopp b) -> sf_nonneg b -> sf_nonpos a.
Proof.
  intros [->|[s [s' [-> _]]]] Hb.
  - apply sf_nonpos_opp.
    replace (SFopp (SFopp b)) with b; [exact Hb|].
    destruct b as [[]|[]| |[] ? ?]; reflexivity.
  - right. now destruct s.
Qed.

Lemma SFdiv_nonpos_gen r b :
  sf_nonpos r -> sf_nonneg b -> (forall s, b <> S754_zero s) ->
  sf_nonpos (SF64div r b).
Proof.
  rewrite !sf_nonpos_opp, <- SFdiv_opp. intros H Hb Hz.
  now apply SFdiv_nonneg.
Qed.

End SignOfDifference.

Lemma sub_lt_nonneg (x y : float) :
  (y <? x)%float = true -> f_nonneg (x - y).
Proof.
  rewrite FloatAxioms.ltb_spec. unfold f_nonneg. rewrite sub_spec.
  apply SFsub_lt_nonneg; apply Prim2SF_valid.
Qed.

Lemma sub_gt_nonpos (x y : float) :
  (x <? y)%float = true -> f_nonpos (x - y).
Proof.
  intros H. unfold f_nonpos.
  apply (sf_sim_opp_nonpos _ (Prim2SF (y - x))).
  - rewrite <- opp_spec. apply sub_antisym.
  - now apply sub_lt_nonneg.
Qed.

Lemma div_nonpos (a b : float) :
  f_nonpos a -> f_nonneg b -> (b =? 0)%float = false -> f_nonpos (a / b).
Proof.
  unfold f_nonpos, f_nonneg.
  rewrite div_spec, FloatAxioms.eqb_spec, Prim2SF_zero.
  intros Ha Hb Hz. apply SFdiv_nonpos_gen; try assumption.
  intros s E. rewrite E in Hz. discriminate.
Qed.

Lemma f_nonpos_not_pos x : f_nonpos x -> (0 <? x)%float = false.
Proof.
  unfold f_nonpos. rewrite FloatAxioms.ltb_spec, Prim2SF_zero.
  apply sf_nonpos_not_pos.
Qed.

Lemma calculate_stats_mean (values : list float) (st : Statistics) :
  calculate_stats values = Ok (Some st) ->
  mean st = (py_sum values / float_of_nat (List.length values))%float.
Proof.
  destruct values as [|v vs]; [discriminate|]. unfold calculate_stats.
  rewrite py_div_int_ok by (simpl; lia). cbn [bind].
  destruct (_ <? 2)%nat.
  - now intros [= <-].
  - intros H. do 5 (bind_inv H). now injection H as <-.
Qed.

(** The sign of a quotient by a square root. *)
Lemma quotient_sign (m1 m2 v q : float) :
  py_div (m1 - m2) (PrimFloat.sqrt v) = Ok q ->
  ((m2 <? m1)%float = true -> (q <? 0)%float = false) /\
  ((m1 <? m2)%float = true -> (0 <? q)%float = false).
Proof.
  intros H. apply py_div_Ok in H. destruct H as [Z ->]. split; intros L.
  - apply f_nonneg_not_neg, div_nonneg;
      [now apply sub_lt_nonneg | apply sqrt_nonneg | exact Z].
  - apply f_nonpos_not_pos, div_nonpos;
      [now apply sub_gt_nonpos | apply sqrt_nonneg | exact Z].
Qed.

Lemma zero_sign (m1 m2 : float) :
  ((m2 <? m1)%float = true -> (0 <? 0)%float = false) /\
  ((m1 <? m2)%float = true -> (0 <? 0)%float = false).
Proof. split; reflexivity. Qed.

Lemma welch_t_test_sign erf A B t p :
  welch_t_test erf A B = Ok (t, p) ->
  let m1 := (py_sum A / float_of_nat (List.length A))%float in
  let m2 := (py_sum B / float_of_nat (List.length B))%float in
  ((m2 <? m1)%float = true -> (t <? 0)%float = false) /\
  ((m1 <? m2)%float = true -> (0 <? t)%float = false).
Proof.
  intros H m1 m2. unfold welch_t_test in H.
  destruct (_ || _) eqn:N; [injection H as <- <-; apply zero_sign|].
  apply orb_false_elim in N. destruct N as [N1 N2].
  apply Nat.ltb_ge in N1, N2.
  rewrite !py_div_int_ok in H by lia. cbn [bind] in H.
  fold m1 m2 in H.
  do 7 (bind_inv H).
  match goal with
  | E : py_sqrt _ = Ok ?se |- _ => apply py_sqrt_Ok in E; subst se
  end.
  destruct (_ =? 0)%float; [injection H as <- <-; apply zero_sign|].
  bind_inv H.
  match goal with
  | E : py_div (m1 - m2) _ = Ok _ |- _ => apply quotient_sign in E
  end.
  do 10 (bind_inv H). now injection H as <- <-.
Qed.

Lemma cohens_d_sign A B d :
  cohens_d A B = Ok d ->
  let m1 := (py_sum A / float_of_nat (List.length A))%float in
  let m2 := (py_sum B / float_of_nat (List.length B))%float in
  ((m2 <? m1)%float = true -> (d <? 0)%float = false) /\
  ((m1 <? m2)%float = true -> (0 <? d)%float = false).
Proof.
  intros H m1 m2. unfold cohens_d in H.
  destruct (_ || _) eqn:N; [injection H as <-; apply zero_sign|].
  apply orb_false_elim in N. destruct N as [N1 N2].
  apply Nat.ltb_ge in N1, N2.
  rewrite !py_div_int_ok in H by lia. cbn [bind] in H.
  fold m1 m2 in H.
  do 6 (bind_inv H).
  match goal with
  | E : py_sqrt _ = Ok ?se |- _ => apply py_sqrt_Ok in E; subst se
  end.
  destruct (_ =? 0)%float; [injection H as <-; apply zero_sign|].
  now apply quotient_sign in H.
Qed.

(** X15. The test statistics point the way the flag does: when a metric is
    improved under lower is better, its t-statistic and its Cohen's d are
    not negative, and when it is improved under higher is better they are
    not positive (a NaN is neither). *)
Theorem analyze_metric_direction (erf : float -> float)
    (baseline_values esm_values : list float) (name : string)
    (lower_is_better : bool) (r : Result) :
  analyze_metric erf baseline_values esm_values name lower_is_better = Ok r ->
  improved_of r = true ->
  if lower_is_better
  then (t_statistic_of r <? 0)%float = false /\
       (cohens_d_of r <? 0)%float = false
  else (0 <? t_statistic_of r)%float = false /\
       (0 <? cohens_d_of r)%float = false.
Proof.
  intros H I. unfold analyze_metric in H.
  destruct (calculate_stats baseline_values) as [[bs|]|e] eqn:Eb;
    cbn [bind] in H; [| |discriminate].
  2:{ destruct (calculate_stats esm_values) as [[es|]|e];
        cbn [bind] in H; try discriminate; injection H as <-; discriminate. }
  destruct (calculate_stats esm_values) as [[es|]|e] eqn:Ee;
    cbn [bind] in H; [| |discriminate].
  2:{ injection H as <-. discriminate. }
  rewrite improvement_eq in H.
  destruct (mean bs =? 0)%float; cbn [bind] in H; [discriminate|].
  destruct (welch_t_test erf baseline_values esm_values) as [[t p]|e] eqn:W;
    cbn [bind] in H; [|discriminate].
  destruct (cohens_d baseline_values esm_values) as [d|e] eqn:D;
    cbn [bind] in H; [|discriminate].
  injection H as <-. cbn in I |- *.
  apply welch_t_test_sign in W. apply cohens_d_sign in D.
  rewrite <- (calculate_stats_mean _ _ Eb), <- (calculate_stats_mean _ _ Ee)
    in W, D.
  unfold polarity_flag in I.
  destruct lower_is_better; split;
    solve [now apply W | now apply D].
Qed.

Lemma analyze_metric_direction_witness :
  exists r,
    analyze_metric (fun x => x) [2; 4; 9]%float [1; 2; 3]%float
      "latency" true = Ok r /\
    improved_of r = true /\ t_statistic_of r = 1.3887301496588274%float /\
    (t_statistic_of r <? 0)%float = false.
Proof.
  eexists. split; [vm_compute; reflexivity|]. split; [reflexivity|].
  split; [reflexivity|].
  exact (proj1 (analyze_metric_direction (fun x => x) [2; 4; 9]%float
                  [1; 2; 3]%float "latency" true _ eq_refl eq_refl)).
Defined.

(** ** A sample against itself *)

Lemma SFsub_self x : sf_zero_or_nan (SF64sub x x).
Proof.
  unfold SF64sub, SFsub. destruct x as [[]|[]| |s m e];
    try (left; reflexivity); try (right; eexists; reflexivity).
  rewrite Z.sub_diag. right. eexists. reflexivity.
Qed.

Lemma SFdiv_zero_or_nan a b : sf_zero_or_nan a -> sf_zero_or_nan (SF64div a b).
Proof.
  intros [->|[s ->]]; unfold SF64div, SFdiv.
  - left. reflexivity.
  - destruct b; try (left; reflexivity); right; eexists; reflexivity.
Qed.

Lemma SFmul_zero_or_nan a b : sf_zero_or_nan a -> sf_zero_or_nan (SF64mul a b).
Proof.
  intros [->|[s ->]]; unfold SF64mul, SFmul.
  - left. reflexivity.
  - destruct b; try (left; reflexivity); right; eexists; reflexivity.
Qed.

Lemma sf_zero_or_nan_spec x :
  sf_zero_or_nan (Prim2SF x) -> zero_or_nan x = true.
Proof.
  unfold zero_or_nan, is_nan. rewrite !FloatAxioms.eqb_spec, Prim2SF_zero.
  intros [->|[s ->]]; [reflexivity|now destruct s].
Qed.

Lemma ltb_irrefl (x : float) : (x <? x)%float = false.
Proof.
  destruct (x <? x)%float eqn:E; [|reflexivity].
  pose proof (ltb_asym x x) as H. rewrite E in H. discriminate.
Qed.

Lemma self_quotient (m v q : float) :
  py_div (m - m) v = Ok q -> zero_or_nan q = true.
Proof.
  intros H. apply py_div_Ok in H. destruct H as [_ ->].
  apply sf_zero_or_nan_spec. rewrite div_spec, sub_spec.
  apply SFdiv_zero_or_nan, SFsub_self.
Qed.

Lemma welch_t_test_self erf A t p :
  welch_t_test erf A A = Ok (t, p) -> zero_or_nan t = true.
Proof.
  unfold welch_t_test. intros H.
  destruct (_ || _) eqn:N; [now injection H as <- <-|].
  apply orb_false_elim in N. destruct N as [N1 _].
  apply Nat.ltb_ge in N1.
  rewrite !py_div_int_ok in H by lia. cbn [bind] in H.
  do 7 (bind_inv H).
  destruct (_ =? 0)%float; [now injection H as <- <-|].
  bind_inv H.
  match goal with
  | E : py_div (_ - _) _ = Ok _ |- _ => apply self_quotient in E
  end.
  do 10 (bind_inv H). now injection H as <- <-.
Qed.

Lemma cohens_d_self A d : cohens_d A A = Ok d -> zero_or_nan d = true.
Proof.
  unfold cohens_d. intros H.
  destruct (_ || _) eqn:N; [now injection H as <-|].
  apply orb_false_elim in N. destruct N as [N1 _].
  apply Nat.ltb_ge in N1.
  rewrite !py_div_int_ok in H by lia. cbn [bind] in H.
  do 6 (bind_inv H).
  destruct (_ =? 0)%float; [now injection H as <-|].
  now apply self_quotient in H.
Qed.

(** X16. A sample compared with itself is never improved: the result is a
    comparison whose improvement percentage, t-statistic and Cohen's d are
    each 0 or NaN, and the Conclusions list it as unvalidated. *)
Theorem analyze_metric_self (erf : float -> float) (values : list float)
    (name : string) (lower_is_better : bool) (r : Result) :
  values <> [] ->
  analyze_metric erf values values name lower_is_better = Ok r ->
  is_error r = false /\ improved_of r = false /\
  zero_or_nan (improvement_pct_of r) = true /\
  zero_or_nan (t_statistic_of r) = true /\
  zero_or_nan (cohens_d_of r) = true /\
  conclusions [r] = ([], [name]).
Proof.
  intros NE H. unfold analyze_metric in H.
  destruct (calculate_stats values) as [[st|]|e] eqn:Es;
    cbn [bind] in H; [| |discriminate].
  2:{ apply calculate_stats_nil_iff in Es.
      now destruct (NE (proj1 Es eq_refl)). }
  rewrite improvement_eq in H.
  destruct (mean st =? 0)%float; cbn [bind] in H; [discriminate|].
  destruct (welch_t_test erf values values) as [[t p]|e] eqn:W;
    cbn [bind] in H; [|discriminate].
  destruct (cohens_d values values) as [d|e] eqn:D;
    cbn [bind] in H; [|discriminate].
  injection H as <-. cbn.
  apply welch_t_test_self in W. apply cohens_d_self in D.
  assert (I : polarity_flag lower_is_better (mean st) (mean st) = false)
    by (unfold polarity_flag; destruct lower_is_better; apply ltb_irrefl).
  rewrite I. rewrite andb_false_r. cbn.
  repeat split; try assumption.
  apply sf_zero_or_nan_spec. unfold polarity_pct.
  destruct lower_is_better; rewrite mul_spec, div_spec, sub_spec;
    apply SFmul_zero_or_nan, SFdiv_zero_or_nan, SFsub_self.
Qed.

Lemma analyze_metric_self_witness :
  exists r,
    analyze_metric (fun x => x) [1; 2; 3]%float [1; 2; 3]%float
      "latency" true = Ok r /\
    improvement_pct_of r = 0%float /\ improved_of r = false.
Proof.
  eexists. split; [vm_compute; reflexivity|]. split; [reflexivity|].
  refine (proj1 (proj2 (analyze_metric_self (fun x => x) [1; 2; 3]%float
                          "latency" true _ _ eq_refl))).
  discriminate.
Defined.

(** ** What the collection of the results raises *)

Section MainRaises.

Variable erf : float -> float.
Variable py_float : string -> Py float.

Lemma column_raise rows keep key :
  raises_only (main_error py_float) (column py_float rows keep key).
Proof.
  induction rows as [|r rest IH]; simpl; [apply raises_only_Ok|].
  destruct (get r key) as [[|c s]|]; try exact IH.
  destruct (keep r); [|exact IH].
  apply raises_only_bind.
  - intros e H. right. right. exists (String c s).
    split; [discriminate|exact H].
  - intros x _. apply raises_only_bind; [exact IH|].
    intros xs _. apply raises_only_Ok.
Qed.

Lemma append_metric_raise results baseline_vals esm_vals name :
  raises_only (main_error py_float)
    (append_metric erf results baseline_vals esm_vals name).
Proof.
  unfold append_metric.
  destruct baseline_vals as [|b bv]; [apply raises_only_Ok|].
  destruct esm_vals as [|c cv]; [apply raises_only_Ok|].
  apply raises_only_bind; [|intros r _; apply raises_only_Ok].
  intros e H. apply analyze_metric_raise_cases in H.
  destruct H as [->|[-> _]]; [left|right; left]; reflexivity.
Qed.

Lemma metric_step_raise baseline esm keep key name results :
  raises_only (main_error py_float)
    (metric_step erf py_float baseline esm keep key name results).
Proof.
  unfold metric_step.
  apply raises_only_bind; [apply column_raise|intros bv _].
  apply raises_only_bind; [apply column_raise|intros ev _].
  apply append_metric_raise.
Qed.

Lemma latency_loop_raise baseline esm todo : forall results,
  raises_only (main_error py_float)
    (latency_loop erf py_float baseline esm todo results).
Proof.
  induction todo as [|s rest IH]; intros results; simpl.
  - apply raises_only_Ok.
  - apply raises_only_bind; [apply metric_step_raise|intros rs _; apply IH].
Qed.

End MainRaises.

(** X17. Once the tables are loaded, the collection of the results in
    [main] (its comprehensions and its guarded calls of the comparator)
    raises only [OverflowError] or [ZeroDivisionError], from the
    comparator, or the exception [float] raises on a cell that is present
    and not empty. *)
Theorem main_results_raises (erf : float -> float)
    (py_float : string -> Py float) (t : Tables) (e : PyError) :
  main_results erf py_float t = Raise e ->
  e = OverflowError \/ e = ZeroDivisionError \/
  exists cell, cell <> EmptyString /\ py_float cell = Raise e.
Proof.
  revert e.
  change (raises_only (main_error py_float) (main_results erf py_float t)).
  unfold main_results.
  apply raises_only_bind; [apply latency_loop_raise|intros r0 _].
  do 3 (apply raises_only_bind; [apply metric_step_raise|intros ? _]).
  apply metric_step_raise.
Qed.

Lemma main_results_raises_witness :
  main_results (fun x => x) sample_float unparsable_tables
  = Raise ValueError /\
  (ValueError = OverflowError \/ ValueError = ZeroDivisionError \/
   exists cell, cell <> EmptyString /\ sample_float cell = Raise ValueError).
Proof.
  split; [vm_compute; reflexivity|].
  exact (main_results_raises (fun x => x) sample_float unparsable_tables
           ValueError eq_refl).
Defined.

(** ** The neutral result of the significance tester *)




